(** * coastjs/hypermedia: the affordance document model

    A shallow embedding of [lib/input.js], [lib/affordance.js],
    [lib/affordances.js] and [lib/naval.js].

    JavaScript objects live in a heap addressed by locations, so that object
    identity ([===] on references, [lastIndexOf]), aliasing (metadata shared
    by reference between a node and its copy) and in-place writes
    ([this._metadata = ...], [push]) are what they are in the source.  Methods
    are computations in a state-and-exception monad over that heap. *)

From stdpp Require Import gmap strings list fin_maps pretty.

Open Scope string_scope.

(** ** Values and objects *)

Definition loc := positive.

(** JavaScript values.  Numbers are integers here (the library does no
    arithmetic on them); functions are opaque. *)
Inductive val :=
  | VUndef
  | VNull
  | VBool (b : bool)
  | VNum (n : Z)
  | VStr (s : string)
  | VFun (f : nat)
  | VRef (l : loc).

#[global] Instance val_eq_dec : EqDecision val.
Proof. solve_decision. Defined.

#[global] Instance val_inhabited : Inhabited val := populate VUndef.

(** The constructor function an object was made by ([instanceof]). *)
Inductive cls := CObject | CInput | CAffordance | CAffordances.

#[global] Instance cls_eq_dec : EqDecision cls.
Proof. solve_decision. Defined.

(** An object is its class and its own enumerable properties; an array is its
    elements. *)
Inductive obj :=
  | Obj (c : cls) (props : gmap string val)
  | Arr (elems : list val).

Abbreviation heap := (gmap loc obj).

(** [typeof v] *)
Definition typeof (v : val) : string :=
  match v with
  | VUndef => "undefined"
  | VNull => "object"
  | VBool _ => "boolean"
  | VNum _ => "number"
  | VStr _ => "string"
  | VFun _ => "function"
  | VRef _ => "object"
  end.

(** [!!v]; falsy values: false, 0, "", null, undefined. *)
Definition truthy (v : val) : bool :=
  match v with
  | VUndef | VNull => false
  | VBool b => b
  | VNum n => negb (n =? 0)%Z
  | VStr s => negb (s =? "")
  | VFun _ | VRef _ => true
  end.

(** [a === b] *)
Definition strict_eq (a b : val) : bool := bool_decide (a = b).

(** [!!v && typeof v === 'object'] *)
Definition is_object (v : val) : bool := truthy v && (typeof v =? "object").

(** Own enumerable properties, as [for (k in o)] filtered by
    [o.hasOwnProperty(k)] sees them: the fields of an object, the indices of
    an array. *)
Definition own_props (o : obj) : gmap string val :=
  match o with
  | Obj _ ps => ps
  | Arr xs => list_to_map (imap (λ i x, (pretty i, x)) xs)
  end.

(** [v instanceof C] *)
Definition instanceOf (c : cls) (h : heap) (v : val) : bool :=
  match v with
  | VRef l => match h !! l with
              | Some (Obj c' _) => bool_decide (c' = c)
              | _ => false
              end
  | _ => false
  end.

(** The elements of [v] when [Array.isArray(v)]. *)
Definition array_elems (h : heap) (v : val) : option (list val) :=
  match v with
  | VRef l => match h !! l with
              | Some (Arr xs) => Some xs
              | _ => None
              end
  | _ => None
  end.

(** [Array.isArray(v)] *)
Definition isArray (h : heap) (v : val) : bool :=
  match array_elems h v with Some _ => true | None => false end.

(** [Array.isArray(v) && v.length > 0] *)
Definition is_nonempty_array (h : heap) (v : val) : bool :=
  match array_elems h v with Some (_ :: _) => true | _ => false end.

(** ** The monad of heap computations *)

(** A step that the objects of this model do not represent.  Every object
    here has the prototype of its class and holds data; the code leaves
    that ground when it replaces the prototype of an object (an assignment
    to [__proto__]) and when it calls a function it found in a data
    object (its behaviour is the caller's). *)
Inductive beyond :=
  | SetPrototypeOf (o proto : val)
  | CallOf (f this : val) (args : list val).

(** How a computation ends: with a result; with an Error of the engine or
    of the library ([Exn], by the name of the Error, whose [message] is a
    string); with a value thrown by code of the caller ([Thrown]); at a
    step the model does not follow ([Beyond]: the heap is the one before
    that step, and what the execution does from there on is not
    described); or for want of fuel. *)
Inductive result (A : Type) :=
  | Val (a : A)
  | Exn (msg : string)
  | Thrown (v : val)
  | Beyond (step : beyond)
  | Fuel.
Arguments Val {A} a.
Arguments Exn {A} msg.
Arguments Thrown {A} v.
Arguments Beyond {A} step.
Arguments Fuel {A}.

Definition M (A : Type) : Type := heap → heap * result A.

#[global] Instance M_ret : MRet M := λ A a h, (h, Val a).

#[global] Instance M_bind : MBind M := λ A B f m h,
  match m h with
  | (h', Val a) => f a h'
  | (h', Exn e) => (h', Exn e)
  | (h', Thrown v) => (h', Thrown v)
  | (h', Beyond step) => (h', Beyond step)
  | (h', Fuel) => (h', Fuel)
  end.

Definition throw {A} (msg : string) : M A := λ h, (h, Exn msg).

Definition out_of_fuel {A} : M A := λ h, (h, Fuel).

Definition leave {A} (step : beyond) : M A := λ h, (h, Beyond step).

(** What a [catch] clause receives. *)
Inductive caught :=
  | CaughtError (name : string)
  | CaughtValue (v : val).

(** [try { body } catch (e) { handler(e) }] *)
Definition try_catch {A} (body : M A) (handler : caught → M A) : M A := λ h,
  match body h with
  | (h', Exn e) => handler (CaughtError e) h'
  | (h', Thrown v) => handler (CaughtValue v) h'
  | r => r
  end.

(** Reading the heap without changing it. *)
Definition gets {A} (f : heap → A) : M A := λ h, (h, Val (f h)).

(** A test that reads the heap ([Array.isArray], [instanceof]). *)
Definition test (f : heap → bool) : M bool := gets f.

(** A new object; its location is one the heap does not use yet. *)
Definition alloc (o : obj) : M val := λ h,
  let l := fresh (dom h) in (<[l := o]> h, Val (VRef l)).

(** [v[k]]: undefined for a property the object does not have; a TypeError on
    [undefined] and [null]. *)
Definition get_prop (v : val) (k : string) : M val := λ h,
  match v with
  | VUndef | VNull => (h, Exn "TypeError")
  | VRef l => match h !! l with
              | Some o => (h, Val (default VUndef (own_props o !! k)))
              | None => (h, Exn "ReferenceError")
              end
  | _ => (h, Val VUndef)
  end.

(** [v[k] = x] on an object. *)
Definition set_prop (v : val) (k : string) (x : val) : M () := λ h,
  match v with
  | VUndef | VNull => (h, Exn "TypeError")
  | VRef l => match h !! l with
              | Some (Obj c ps) => (<[l := Obj c (<[k := x]> ps)]> h, Val ())
              | _ => (h, Exn "ReferenceError")
              end
  | _ => (h, Val ())
  end.

(** [arr.lastIndexOf(x) === -1] *)
Definition not_in_array (x : val) (xs : list val) : bool :=
  forallb (λ y, negb (strict_eq y x)) xs.

(** [arr.push(x)] *)
Definition push (arr : val) (x : val) : M () := λ h,
  match arr with
  | VRef l => match h !! l with
              | Some (Arr xs) => (<[l := Arr (xs ++ [x])]> h, Val ())
              | _ => (h, Exn "TypeError")
              end
  | _ => (h, Exn "TypeError")
  end.

(** [for (var i in xs) { x = xs[i]; body }] without an early exit. *)
Fixpoint for_each {A} (body : A → M ()) (xs : list A) : M () :=
  match xs with
  | [] => mret ()
  | x :: xs' => body x;; for_each body xs'
  end.

(** The same loop when the body may [return]: [Some r] leaves the loop (and
    the function) with [r]. *)
Fixpoint for_until {A B} (body : A → M (option B)) (xs : list A) : M (option B) :=
  match xs with
  | [] => mret None
  | x :: xs' =>
      r ← body x;
      match r with
      | Some b => mret (Some b)
      | None => for_until body xs'
      end
  end.

(** [o[k] = x] for a key [k] that the caller chooses.  A property the
    object has is written and a new one is added, except under the name
    [__proto__]: an object that has no property of its own under that name
    inherits it from [Object.prototype] as an accessor, whose setter
    replaces the prototype of [o] when [x] is an object, a function or
    [null], and does nothing for any other [x]. *)
Definition assign (o : val) (k : string) (x : val) : M () := λ h,
  match o with
  | VRef l =>
      match h !! l with
      | Some (Obj c ps) =>
          if (k =? "__proto__") && bool_decide (ps !! k = None) then
            match x with
            | VRef _ | VFun _ | VNull => (h, Beyond (SetPrototypeOf o x))
            | _ => (h, Val ())
            end
          else set_prop o k x h
      | _ => set_prop o k x h
      end
  | _ => set_prop o k x h
  end.

(** [o.hasOwnProperty(k)] calls what the object has under the name
    [hasOwnProperty]: a property of its own, when it has one (a TypeError
    unless that is a function, and a function is the caller's), and else
    the method of [Object.prototype], which no class of the library
    redefines. *)
Definition call_hasOwnProperty (o : val) (k : string) : M bool := λ h,
  match o with
  | VUndef | VNull => (h, Exn "TypeError")
  | VRef l =>
      match h !! l with
      | Some ob =>
          match own_props ob !! "hasOwnProperty" with
          | None => (h, Val (bool_decide (is_Some (own_props ob !! k))))
          | Some (VFun f) => (h, Beyond (CallOf (VFun f) o [VStr k]))
          | Some _ => (h, Exn "TypeError")
          end
      | None => (h, Exn "ReferenceError")
      end
  | _ => (h, Val false)
  end.

(** [for (var k in src) { if (src.hasOwnProperty(k)) { dst[k] = src[k]; } }].
    The loop visits the own properties of [src] and then those it inherits
    from its class (the methods), which the [hasOwnProperty] of
    [Object.prototype] rejects; when [src] has a [hasOwnProperty] of its
    own, it is among the properties visited and the first call already
    leaves the loop.  The order of the visits is the engine's; here it is
    that of the map. *)
Definition copy_own_props (src dst : val) : M () :=
  ks ← gets (λ h, match src with
                  | VRef l => match h !! l with
                              | Some o => (map_to_list (own_props o)).*1
                              | None => []
                              end
                  | _ => []
                  end);
  for_each (λ k, own ← call_hasOwnProperty src k;
                 if own : bool then x ← get_prop src k; assign dst k x
                 else mret ()) ks.

(** ** lib/input.js *)

Module Input.

(** [function Input(id, value)] *)
Definition new (id value : val) : M val :=
  this ← alloc (Obj CInput ∅);
  set_prop this "_id" (if typeof id =? "string" then id else VStr "");;
  set_prop this "_value"
    (if negb (typeof value =? "undefined") then value else VStr "");;
  mret this.

Definition toJSON (this : val) : M val :=
  id ← get_prop this "_id";
  value ← get_prop this "_value";
  accept ← get_prop this "_accept";
  hidden ← get_prop this "_hidden";
  label ← get_prop this "_label";
  options ← get_prop this "_options";
  readonly ← get_prop this "_readonly";
  regexp ← get_prop this "_regexp";
  required ← get_prop this "_required";
  alloc (Obj CObject
    (<["_id" := id]> (<["_value" := value]> (<["_accept" := accept]>
    (<["_hidden" := hidden]> (<["_label" := label]> (<["_options" := options]>
    (<["_readonly" := readonly]> (<["_regexp" := regexp]>
    (<["_required" := required]> ∅)))))))))).

Definition setId (this id : val) : M val :=
  cur ← get_prop this "_id";
  set_prop this "_id" (if typeof id =? "string" then id else cur);;
  mret this.

Definition setValue (this value : val) : M val :=
  cur ← get_prop this "_value";
  set_prop this "_value"
    (if negb (typeof value =? "undefined") then value else cur);;
  mret this.

Definition setAccept (this accept : val) : M val :=
  cur ← get_prop this "_accept";
  ok ← test (λ h, is_nonempty_array h accept);
  set_prop this "_accept" (if ok : bool then accept else cur);;
  mret this.

Definition setRequired (this required : val) : M val :=
  cur ← get_prop this "_required";
  set_prop this "_required"
    (if typeof required =? "boolean" then required else cur);;
  mret this.

Definition setLabel (this label : val) : M val :=
  cur ← get_prop this "_label";
  set_prop this "_label" (if typeof label =? "string" then label else cur);;
  mret this.

Definition setHidden (this hidden : val) : M val :=
  cur ← get_prop this "_hidden";
  set_prop this "_hidden"
    (if typeof hidden =? "boolean" then hidden else cur);;
  mret this.

Definition setReadonly (this readonly : val) : M val :=
  cur ← get_prop this "_readonly";
  set_prop this "_readonly"
    (if typeof readonly =? "boolean" then readonly else cur);;
  mret this.

Definition setValueOptions (this options : val) : M val :=
  cur ← get_prop this "_options";
  ok ← test (λ h, is_nonempty_array h options);
  set_prop this "_options" (if ok : bool then options else cur);;
  mret this.

Definition setRegExp (this regexp : val) : M val :=
  cur ← get_prop this "_regexp";
  set_prop this "_regexp"
    (if typeof regexp =? "string" then regexp else cur);;
  mret this.

(** The chain of setters shared by [copy] and [revive]: every field of
    [src] is read and offered to the setter of the new Input. *)
Definition set_all_from (src : val) : M val :=
  c ← new VUndef VUndef;
  x ← get_prop src "_id"; c ← setId c x;
  x ← get_prop src "_value"; c ← setValue c x;
  x ← get_prop src "_accept"; c ← setAccept c x;
  x ← get_prop src "_required"; c ← setRequired c x;
  x ← get_prop src "_label"; c ← setLabel c x;
  x ← get_prop src "_hidden"; c ← setHidden c x;
  x ← get_prop src "_readonly"; c ← setReadonly c x;
  x ← get_prop src "_options"; c ← setValueOptions c x;
  x ← get_prop src "_regexp"; setRegExp c x.

Definition copy (this : val) : M val := set_all_from this.

(** [function input(id, value)] *)
Definition input (id value : val) : M val := new id value.

Definition isPrototypeOf (h : heap) (object : val) : bool :=
  instanceOf CInput h object.

Definition canRevive (object : val) : M bool :=
  if is_object object then
    id ← get_prop object "_id";
    value ← get_prop object "_value";
    mret ((typeof id =? "string") && negb (typeof value =? "undefined"))
  else mret false.

Definition revive (object : val) : M val :=
  ok ← canRevive object;
  if ok : bool then set_all_from object else mret VNull.

End Input.

(** ** lib/affordance.js *)


Module Affordance.

(** [function Affordance(id, method, uri)] *)
Definition new (id method uri : val) : M val :=
  this ← alloc (Obj CAffordance ∅);
  set_prop this "_id" (if typeof id =? "string" then id else VStr "");;
  set_prop this "_method"
    (if typeof method =? "string" then method else VStr "");;
  set_prop this "_uri" (if typeof uri =? "string" then uri else VStr "");;
  own ← get_prop this "_id";
  star ← alloc (Arr [own]);
  messages ← alloc (Obj CObject (<["*" := star]> ∅));
  set_prop this "_messages" messages;;
  mret this.

Definition toJSON (this : val) : M val :=
  id ← get_prop this "_id";
  method ← get_prop this "_method";
  uri ← get_prop this "_uri";
  relation ← get_prop this "_relation";
  metadata ← get_prop this "_metadata";
  controls ← get_prop this "_controls";
  alloc (Obj CObject
    (<["_id" := id]> (<["_method" := method]> (<["_uri" := uri]>
    (<["_relation" := relation]> (<["_metadata" := metadata]>
    (<["_controls" := controls]> ∅))))))).

Definition addMessage (this response message : val) : M val :=
  messages ← get_prop this "_messages";
  ok ← test (λ h, (typeof response =? "string")
                  && is_nonempty_array h message);
  if ok : bool then
    ids ← gets (λ h, default [] (array_elems h message));
    r ← for_until
          (λ id, if negb (typeof id =? "string")
                 then mret (Some this) else mret None) ids;
    match r with
    | Some out => mret out
    | None =>
        match response with
        | VStr code => assign messages code message
        | _ => mret ()
        end;;
        mret this
    end
  else mret this.




Definition setRelation (this relation : val) : M val :=
  cur ← get_prop this "_relation";
  set_prop this "_relation"
    (if typeof relation =? "string" then relation else cur);;
  mret this.

Definition setMetadata (this metadata : val) : M val :=
  cur ← get_prop this "_metadata";
  set_prop this "_metadata" (if is_object metadata then metadata else cur);;
  mret this.

Definition getId (this : val) : M val := get_prop this "_id".
Definition getMethod (this : val) : M val := get_prop this "_method".
Definition getUri (this : val) : M val := get_prop this "_uri".
Definition getRelation (this : val) : M val := get_prop this "_relation".
Definition getMetadata (this : val) : M val := get_prop this "_metadata".

Definition addInput (this control : val) : M val :=
  controls ← get_prop this "_controls";
  controls ← (if negb (truthy controls)
              then fresh_arr ← alloc (Arr []);
                   set_prop this "_controls" fresh_arr;;
                   mret fresh_arr
              else mret controls);
  isInput ← test (λ h, Input.isPrototypeOf h control);
  (if isInput : bool then
     xs ← gets (λ h, array_elems h controls);
     match xs with
     | Some xs => if not_in_array control xs
                  then push controls control else mret ()
     | None => throw "TypeError"
     end
   else mret ());;
  mret this.

Definition cascadeMetadata (this parentMeta : val) : M val :=
  childMeta ← get_prop this "_metadata";
  let parentMetaIsObject := is_object parentMeta in
  let childMetaIsObject := is_object childMeta in
  mergedMetadata ← (if parentMetaIsObject || childMetaIsObject
                    then alloc (Obj CObject ∅) else mret VUndef);
  (if parentMetaIsObject
   then copy_own_props parentMeta mergedMetadata else mret ());;
  (if childMetaIsObject
   then copy_own_props childMeta mergedMetadata else mret ());;
  set_prop this "_metadata" mergedMetadata;;
  mret this.

(** [control.copy()] is a dynamic call; [call_copy] resolves it. *)
Definition copy (call_copy : val → M val) (this : val) : M val :=
  id ← get_prop this "_id";
  method ← get_prop this "_method";
  uri ← get_prop this "_uri";
  c ← new id method uri;
  relation ← get_prop this "_relation";
  c ← setRelation c relation;
  metadata ← get_prop this "_metadata";
  c ← setMetadata c metadata;
  controls ← get_prop this "_controls";
  xs ← gets (λ h, array_elems h controls);
  match xs with
  | Some xs =>
      for_each (λ control, cc ← call_copy control;
                           addInput c cc;; mret ()) xs
  | None => mret ()
  end;;
  mret c.

(** [function affordance(id, method, uri)] *)
Definition affordance (id method uri : val) : M val := new id method uri.

Definition isPrototypeOf (h : heap) (object : val) : bool :=
  instanceOf CAffordance h object.

Definition canRevive (object : val) : M bool :=
  if is_object object then
    id ← get_prop object "_id";
    method ← get_prop object "_method";
    uri ← get_prop object "_uri";
    mret ((typeof id =? "string") && (typeof method =? "string")
          && (typeof uri =? "string"))
  else mret false.

Definition revive (object : val) : M val :=
  ok ← canRevive object;
  if ok : bool then
    id ← get_prop object "_id";
    method ← get_prop object "_method";
    uri ← get_prop object "_uri";
    instance ← new id method uri;
    relation ← get_prop object "_relation";
    instance ← setRelation instance relation;
    metadata ← get_prop object "_metadata";
    instance ← setMetadata instance metadata;
    controls ← get_prop object "_controls";
    xs ← gets (λ h, array_elems h controls);
    match xs with
    | Some xs => for_each (λ control, addInput instance control;; mret ()) xs
    | None => mret ()
    end;;
    mret instance
  else mret VNull.

End Affordance.

(** ** lib/affordances.js *)

(** The values [x] of [for (var i in v) { x = v[i]; ... }]: the elements of
    an array, the property values of an object, nothing otherwise. *)
Definition for_in_values (h : heap) (v : val) : list val :=
  match v with
  | VRef l => match h !! l with
              | Some (Arr xs) => xs
              | Some (Obj _ ps) => (map_to_list ps).*2
              | None => []
              end
  | _ => []
  end.

Module Affordances.

(** [function Affordances(id)] *)
Definition new (id : val) : M val :=
  this ← alloc (Obj CAffordances ∅);
  (if typeof id =? "string" then set_prop this "_id" id else mret ());;
  arr ← alloc (Arr []);
  set_prop this "_affordances" arr;;
  mret this.

Definition toJSON (this : val) : M val :=
  id ← get_prop this "_id";
  metadata ← get_prop this "_metadata";
  affordances ← get_prop this "_affordances";
  alloc (Obj CObject
    (<["_id" := id]> (<["_metadata" := metadata]>
    (<["_affordances" := affordances]> ∅)))).

Definition setId (this id : val) : M val :=
  cur ← get_prop this "_id";
  set_prop this "_id" (if typeof id =? "string" then id else cur);;
  mret this.

Definition setMetadata (this metadata : val) : M val :=
  cur ← get_prop this "_metadata";
  set_prop this "_metadata" (if is_object metadata then metadata else cur);;
  mret this.

Definition getId (this : val) : M val := get_prop this "_id".
Definition getMetadata (this : val) : M val := get_prop this "_metadata".

Definition addAffordance (this action : val) : M val :=
  isNode ← test (λ h, Affordance.isPrototypeOf h action
                      || instanceOf CAffordances h action);
  (if isNode : bool then
     affordances ← get_prop this "_affordances";
     xs ← gets (λ h, array_elems h affordances);
     match xs with
     | Some xs => if not_in_array action xs
                  then push affordances action else mret ()
     | None => throw "TypeError"
     end
   else mret ());;
  mret this.

Definition cascadeMetadata (this parentMeta : val) : M val :=
  childMeta ← get_prop this "_metadata";
  let parentMetaIsObject := is_object parentMeta in
  let childMetaIsObject := is_object childMeta in
  mergedMetadata ← (if parentMetaIsObject || childMetaIsObject
                    then alloc (Obj CObject ∅) else mret VUndef);
  (if parentMetaIsObject
   then copy_own_props parentMeta mergedMetadata else mret ());;
  (if childMetaIsObject
   then copy_own_props childMeta mergedMetadata else mret ());;
  set_prop this "_metadata" mergedMetadata;;
  mret this.

(** [affordance.copy()] is a dynamic call; [call_copy] resolves it. *)
Definition copy (call_copy : val → M val) (this : val) : M val :=
  c ← new VUndef;
  id ← get_prop this "_id";
  c ← setId c id;
  metadata ← get_prop this "_metadata";
  c ← setMetadata c metadata;
  affordances ← get_prop this "_affordances";
  xs ← gets (λ h, array_elems h affordances);
  match xs with
  | Some xs =>
      for_each (λ affordance, ac ← call_copy affordance;
                              addAffordance c ac;; mret ()) xs
  | None => mret ()
  end;;
  mret c.

(** [this._affordances.length].  The constructor makes [_affordances] an
    array and no method replaces it; on [undefined] and [null] the read is
    a TypeError, and that is what every value that is not an array gives
    here. *)
Definition getCount (this : val) : M val :=
  affordances ← get_prop this "_affordances";
  ((λ h, match array_elems h affordances with
         | Some xs => (h, Val (VNum (Z.of_nat (length xs))))
         | None => (h, Exn "TypeError")
         end) : M val).

(** [function affordances(id)] *)
Definition affordances (id : val) : M val := new id.

Definition isPrototypeOf (h : heap) (object : val) : bool :=
  instanceOf CAffordances h object.

Definition canRevive (object : val) : M bool :=
  if is_object object then
    affordances ← get_prop object "_affordances";
    test (λ h, isArray h affordances)
  else mret false.

Definition revive (object : val) : M val :=
  ok ← canRevive object;
  if ok : bool then
    instance ← new VUndef;
    id ← get_prop object "_id";
    instance ← setId instance id;
    metadata ← get_prop object "_metadata";
    instance ← setMetadata instance metadata;
    affordances ← get_prop object "_affordances";
    xs ← gets (λ h, for_in_values h affordances);
    for_each (λ affordance, addAffordance instance affordance;; mret ()) xs;;
    mret instance
  else mret VNull.

End Affordances.

(** ** Dynamic dispatch and the recursive methods

    [x.copy()] and [x.cascadeMetadata(m)] run the method of the class of [x].
    The recursion of [copy], [hasAffordanceWithId] and [copyAffordanceById]
    follows the nesting of the collections; [fuel] bounds its depth. *)

Definition class_of (h : heap) (v : val) : option cls :=
  match v with
  | VRef l => match h !! l with
              | Some (Obj c _) => Some c
              | _ => None
              end
  | _ => None
  end.

Fixpoint call_copy (fuel : nat) (v : val) : M val :=
  match fuel with
  | 0 => out_of_fuel
  | S n =>
      c ← gets (λ h, class_of h v);
      match c with
      | Some CInput => Input.copy v
      | Some CAffordance => Affordance.copy (call_copy n) v
      | Some CAffordances => Affordances.copy (call_copy n) v
      | _ => throw "TypeError"
      end
  end.

Definition call_cascadeMetadata (v parentMeta : val) : M val :=
  c ← gets (λ h, class_of h v);
  match c with
  | Some CAffordance => Affordance.cascadeMetadata v parentMeta
  | Some CAffordances => Affordances.cascadeMetadata v parentMeta
  | _ => throw "TypeError"
  end.

(** [Affordances.prototype.hasAffordanceWithId] *)
Fixpoint hasAffordanceWithId (fuel : nat) (this id : val) : M val :=
  match fuel with
  | 0 => out_of_fuel
  | S n =>
      if typeof id =? "string" then
        affordances ← get_prop this "_affordances";
        xs ← gets (λ h, for_in_values h affordances);
        r ← for_until
              (λ affordance,
                 aid ← get_prop affordance "_id";
                 if strict_eq aid id then mret (Some (VBool true))
                 else
                   nested ← test (λ h, instanceOf CAffordances h affordance);
                   if nested : bool then
                     found ← hasAffordanceWithId n affordance id;
                     if truthy found then mret (Some (VBool true))
                     else mret None
                   else mret None) xs;
        mret (default (VBool false) r)
      else mret (VBool false)
  end.

(** [Affordances.prototype.copyAffordanceById] *)
Fixpoint copyAffordanceById (fuel : nat) (this id : val) : M val :=
  match fuel with
  | 0 => out_of_fuel
  | S n =>
      if typeof id =? "string" then
        affordances ← get_prop this "_affordances";
        metadata ← get_prop this "_metadata";
        xs ← gets (λ h, for_in_values h affordances);
        r ← for_until
              (λ affordance,
                 aid ← get_prop affordance "_id";
                 if strict_eq aid id then
                   c ← call_copy n affordance;
                   c ← call_cascadeMetadata c metadata;
                   mret (Some c)
                 else
                   nested ← test (λ h, instanceOf CAffordances h affordance);
                   if nested : bool then
                     found ← copyAffordanceById n affordance id;
                     if truthy found then
                       c ← call_cascadeMetadata found metadata;
                       mret (Some c)
                     else mret None
                   else mret None) xs;
        mret (default VNull r)
      else mret VNull
  end.

(** ** lib/naval.js *)

Set Warnings "-register-all".

(** A parsed JSON text, before revival. *)
Inductive json :=
  | JNull
  | JBool (b : bool)
  | JNum (n : Z)
  | JStr (s : string)
  | JArr (items : list json)
  | JObj (members : list (string * json)).

Module Naval.

(** [function navalJsonReviver(key, value)] *)
Definition navalJsonReviver (key : string) (value : val) : M val :=
  if is_object value then
    isAffordance ← Affordance.canRevive value;
    if isAffordance : bool then Affordance.revive value
    else
      isInput ← Input.canRevive value;
      if isInput : bool then Input.revive value
      else
        isAffordances ← Affordances.canRevive value;
        if isAffordances : bool then Affordances.revive value
        else mret value
  else mret value.

(** [console.log(x)] writes to the console only. *)
Definition console_log (x : val) : M () := mret ().

Section JSON.

(** The grammar of JSON texts ([None]: a SyntaxError) is the JavaScript
    engine's.  The conversion of an argument that is not a string to a
    string runs, for an object, the [toString] and [valueOf] the object
    has: code of the caller, which may write to the heap and throw any
    value. *)
Variable JSON_grammar : string → option json.
Variable ToString : val → M string.

(** The text [JSON.parse] reads. *)
Definition to_source (text : val) : M string :=
  match text with
  | VStr s => mret s
  | _ => ToString text
  end.

(** The walk [JSON.parse] does when given a reviver: the members of an
    object or array are revived first, innermost values first, and the
    reviver's result replaces each one (a member revived to [undefined]
    is deleted); then the holder itself is passed to the reviver. *)
Fixpoint internalize (reviver : string → val → M val)
    (key : string) (j : json) : M val :=
  match j with
  | JNull => reviver key VNull
  | JBool b => reviver key (VBool b)
  | JNum n => reviver key (VNum n)
  | JStr s => reviver key (VStr s)
  | JArr items =>
      vs ← (fix walk (i : nat) (items : list json) : M (list val) :=
              match items with
              | [] => mret []
              | x :: rest =>
                  v ← internalize reviver (pretty i) x;
                  vs ← walk (S i) rest;
                  mret (v :: vs)
              end) 0 items;
      holder ← alloc (Arr vs);
      reviver key holder
  | JObj members =>
      ps ← (fix walk (ps : gmap string val)
                (members : list (string * json)) : M (gmap string val) :=
              match members with
              | [] => mret ps
              | (k, x) :: rest =>
                  v ← internalize reviver k x;
                  walk (if strict_eq v VUndef
                        then delete k ps else <[k := v]> ps) rest
              end) ∅ members;
      holder ← alloc (Obj CObject ps);
      reviver key holder
  end.

(** [JSON.parse(text, reviver)] *)
Definition JSON_parse (text : val)
    (reviver : string → val → M val) : M val :=
  source ← to_source text;
  match JSON_grammar source with
  | Some j => internalize reviver "" j
  | None => throw "SyntaxError"
  end.

(** [e.message] in the [catch] clause: the message of an Error, a string,
    which the model writes as the name of the Error; a property read on
    any other value thrown, which is a TypeError on [null] and
    [undefined]. *)
Definition message_of (e : caught) : M val :=
  match e with
  | CaughtError name => mret (VStr name)
  | CaughtValue v => get_prop v "message"
  end.

(** The delegate given to [naval.setShouldDecodeDelegate]. *)
Definition shouldDecodeDelegate (string : val) : M val :=
  try_catch
    (object ← JSON_parse string navalJsonReviver;
     isNode ← test (λ h, Affordance.isPrototypeOf h object
                         || Affordances.isPrototypeOf h object);
     if isNode : bool then mret object else mret VNull)
    (λ e, message ← message_of e; console_log message;; mret VNull).

End JSON.

End Naval.

(** ** More of lib/affordance.js and lib/affordances.js *)

(** [arr.length] of an array.  The code reads it from [_affordances], which
    the constructor makes an array and no method replaces; on [undefined]
    and [null] the read is a TypeError, and that is what every value that
    is not an array gives here. *)
Definition array_length (arr : val) : M Z := λ h,
  match array_elems h arr with
  | Some xs => (h, Val (Z.of_nat (length xs)))
  | None => (h, Exn "TypeError")
  end.

(** [arr[index]] for an integer [index]: the element, [undefined] outside
    the array. *)
Definition array_at (arr : val) (index : Z) : M val :=
  gets (λ h, if (index <? 0)%Z then VUndef
             else default VUndef
                    (array_elems h arr ≫= (.!! Z.to_nat index))).

(** [Affordances.prototype.getAffordanceAtIndex], called with a number. *)
Definition getAffordanceAtIndex (this : val) (index : Z) : M val :=
  affordances ← get_prop this "_affordances";
  len ← array_length affordances;
  if (index >=? len)%Z || (index <? 0)%Z then mret VNull
  else array_at affordances index.

(** [Affordances.prototype.getLastAffordance]; [getCount] returns a
    number. *)
Definition getLastAffordance (this : val) : M val :=
  count ← Affordances.getCount this;
  match count with
  | VNum n => getAffordanceAtIndex this (n - 1)
  | _ => throw "TypeError"
  end.

(** [arr.forEach(body)]: the length is read once; an index the array no
    longer has when its turn comes is skipped.  A TypeError when [arr] is
    not an array. *)
Definition array_forEach (body : val → M ()) (arr : val) : M () :=
  len ← array_length arr;
  for_each
    (λ k, x ← gets (λ h, array_elems h arr ≫= (.!! k));
          match x with
          | Some v => body v
          | None => mret ()
          end)
    (seq 0 (Z.to_nat len)).

Section Calls.

(** What calling a function value with one argument does is the
    caller's code; its result is not used. *)
Variable call_function : val → val → M ().

(** [Affordances.prototype.forEachAffordance] *)
Fixpoint forEachAffordance (fuel : nat) (this callback : val) : M val :=
  match fuel with
  | 0 => out_of_fuel
  | S n =>
      affordances ← get_prop this "_affordances";
      (if typeof callback =? "function" then
         array_forEach
           (λ affordance,
              nested ← test (λ h, instanceOf CAffordances h affordance);
              if nested : bool
              then forEachAffordance n affordance callback;; mret ()
              else call_function callback affordance)
           affordances
       else mret ());;
      mret this
  end.

End Calls.

Section Prototype.

(** The value of the property [k] that an object inherits from the
    prototype of its class ([None]: an array), [undefined] when it inherits
    none.  For a plain object these are the properties of
    [Object.prototype] ([toString], [constructor], ...), which are the
    JavaScript engine's. *)
Variable inherited : option cls → string → val.

(** [o[k]]: the own property when [o] has one, the inherited one
    otherwise. *)
Definition get_inherited (o : val) (k : string) : M val := λ h,
  match o with
  | VUndef | VNull => (h, Exn "TypeError")
  | VRef l => match h !! l with
              | Some (Obj c ps) =>
                  (h, Val (default (inherited (Some c) k) (ps !! k)))
              | Some (Arr xs) =>
                  (h, Val (default (inherited None k)
                             (own_props (Arr xs) !! k)))
              | None => (h, Exn "ReferenceError")
              end
  | _ => (h, Val VUndef)
  end.

(** [Affordance.prototype.getMessage], for a string [response]. *)
Definition getMessage (this : val) (response : string) : M val :=
  messages ← get_prop this "_messages";
  message ← get_inherited messages response;
  if truthy message then mret message else get_inherited messages "*".

End Prototype.

(** ** HypermediaApi

    The methods that work on the collection of requests, [this._requests].
    The constructor and the methods on [this._responses] need
    [messages.js], which is not part of the sources. *)

Module HypermediaApi.

(** [v.setMetadata(meta)]: the method of the class of [v]. *)
Definition call_setMetadata (v meta : val) : M val :=
  c ← gets (λ h, class_of h v);
  match c with
  | Some CAffordance => Affordance.setMetadata v meta
  | Some CAffordances => Affordances.setMetadata v meta
  | _ => throw "TypeError"
  end.

(** A method of [Affordances.prototype] called on [v]: a TypeError unless
    [v] is an Affordances. *)
Definition on_Affordances {A} (v : val) (method : M A) : M A :=
  isCollection ← test (λ h, instanceOf CAffordances h v);
  if isCollection : bool then method else throw "TypeError".

Definition setRequests (this requests : val) : M val :=
  cur ← get_prop this "_requests";
  isCollection ← test (λ h, Affordances.isPrototypeOf h requests);
  set_prop this "_requests" (if isCollection : bool then requests else cur);;
  mret this.

Definition getRequests (this : val) : M val := get_prop this "_requests".

Definition addMetadata (this meta : val) : M val :=
  requests ← get_prop this "_requests";
  request ← on_Affordances requests (getLastAffordance requests);
  (if truthy request
   then call_setMetadata request meta
   else call_setMetadata requests meta);;
  mret this.

Definition addRequest (fuel : nat) (this id method uri : val) : M val :=
  requests ← get_prop this "_requests";
  (if (typeof id =? "string") && (typeof method =? "string")
      && (typeof uri =? "string")
   then
     found ← on_Affordances requests (hasAffordanceWithId fuel requests id);
     if negb (truthy found) then
       request ← Affordance.affordance id method uri;
       Affordances.addAffordance requests request;;
       mret ()
     else mret ()
   else mret ());;
  mret this.

Definition addInput (this control : val) : M val :=
  requests ← get_prop this "_requests";
  request ← on_Affordances requests (getLastAffordance requests);
  isRequest ← test (λ h, Affordance.isPrototypeOf h request);
  (if isRequest : bool then
     revivable ← Input.canRevive control;
     if revivable : bool then
       revived ← Input.revive control;
       Affordance.addInput request revived;;
       mret ()
     else mret ()
   else mret ());;
  mret this.

End HypermediaApi.

(** * Vocabulary of the properties *)

Open Scope list_scope.

(** [v[k]] as a function of the heap. *)
Definition prop (h : heap) (v : val) (k : string) : val :=
  match v with
  | VRef l => match h !! l with
              | Some o => default VUndef (own_props o !! k)
              | None => VUndef
              end
  | _ => VUndef
  end.

(** [m] run from [h] returns normally, with a result and a heap that
    satisfy [Q]. *)
Definition wp {A} (m : M A) (h : heap) (Q : A → heap → Prop) : Prop :=
  ∃ a h', m h = (h', Val a) ∧ Q a h'.

(** The ways a computation ends without a result. *)
Inductive abort :=
  | AError (msg : string)
  | AThrown (v : val)
  | ABeyond (step : beyond)
  | AFuel.

Definition outcome {A} (r : result A) : A + abort :=
  match r with
  | Val a => inl a
  | Exn msg => inr (AError msg)
  | Thrown v => inr (AThrown v)
  | Beyond step => inr (ABeyond step)
  | Fuel => inr AFuel
  end.

(** [m] run from [h] ends with a result and a heap that satisfy [Q], or
    without a result, in a way and with a heap that satisfy [E]. *)
Definition wpo {A} (m : M A) (h : heap)
    (Q : A → heap → Prop) (E : abort → heap → Prop) : Prop :=
  match outcome (m h).2 with
  | inl a => Q a (m h).1
  | inr x => E x (m h).1
  end.

(** ** The setters of the three classes *)

Inductive setter :=
  | Input_setId
  | Input_setValue
  | Input_setAccept
  | Input_setRequired
  | Input_setLabel
  | Input_setHidden
  | Input_setReadonly
  | Input_setValueOptions
  | Input_setRegExp
  | Affordance_setRelation
  | Affordance_setMetadata
  | Affordances_setId
  | Affordances_setMetadata.

Definition call_setter (s : setter) : val → val → M val :=
  match s with
  | Input_setId => Input.setId
  | Input_setValue => Input.setValue
  | Input_setAccept => Input.setAccept
  | Input_setRequired => Input.setRequired
  | Input_setLabel => Input.setLabel
  | Input_setHidden => Input.setHidden
  | Input_setReadonly => Input.setReadonly
  | Input_setValueOptions => Input.setValueOptions
  | Input_setRegExp => Input.setRegExp
  | Affordance_setRelation => Affordance.setRelation
  | Affordance_setMetadata => Affordance.setMetadata
  | Affordances_setId => Affordances.setId
  | Affordances_setMetadata => Affordances.setMetadata
  end.

(** The class whose prototype carries the setter. *)
Definition setter_class (s : setter) : cls :=
  match s with
  | Affordance_setRelation | Affordance_setMetadata => CAffordance
  | Affordances_setId | Affordances_setMetadata => CAffordances
  | _ => CInput
  end.

(** The field the setter is the accessor of. *)
Definition setter_field (s : setter) : string :=
  match s with
  | Input_setId | Affordances_setId => "_id"
  | Input_setValue => "_value"
  | Input_setAccept => "_accept"
  | Input_setRequired => "_required"
  | Input_setLabel => "_label"
  | Input_setHidden => "_hidden"
  | Input_setReadonly => "_readonly"
  | Input_setValueOptions => "_options"
  | Input_setRegExp => "_regexp"
  | Affordance_setRelation => "_relation"
  | Affordance_setMetadata | Affordances_setMetadata => "_metadata"
  end.

(** The shape each setter asks of its argument: a string, a boolean, a
    defined value, a non-empty array, an object. *)
Definition setter_accepts (s : setter) (h : heap) (arg : val) : bool :=
  match s with
  | Input_setId | Input_setLabel | Input_setRegExp
  | Affordance_setRelation | Affordances_setId =>
      typeof arg =? "string"
  | Input_setRequired | Input_setHidden | Input_setReadonly =>
      typeof arg =? "boolean"
  | Input_setValue => negb (typeof arg =? "undefined")
  | Input_setAccept | Input_setValueOptions => is_nonempty_array h arg
  | Affordance_setMetadata | Affordances_setMetadata =>
      is_object arg
  end.

(** ** What an Input made from the fields of another object holds

    [Input.copy] and [input.revive] offer each field of their source to the
    setter of a new Input; a field the setter rejects keeps what the
    constructor left: [''] for the id and the value, nothing for the rest. *)
Definition input_props_from (h : heap) (src : val) : gmap string val :=
  let p := prop h src in
  <["_regexp" := if typeof (p "_regexp") =? "string"
                 then p "_regexp" else VUndef]>
  (<["_options" := if is_nonempty_array h (p "_options")
                   then p "_options" else VUndef]>
  (<["_readonly" := if typeof (p "_readonly") =? "boolean"
                    then p "_readonly" else VUndef]>
  (<["_hidden" := if typeof (p "_hidden") =? "boolean"
                  then p "_hidden" else VUndef]>
  (<["_label" := if typeof (p "_label") =? "string"
                 then p "_label" else VUndef]>
  (<["_required" := if typeof (p "_required") =? "boolean"
                    then p "_required" else VUndef]>
  (<["_accept" := if is_nonempty_array h (p "_accept")
                  then p "_accept" else VUndef]>
  (<["_value" := if negb (typeof (p "_value") =? "undefined")
                 then p "_value" else VStr ""]>
  (<["_id" := if typeof (p "_id") =? "string"
              then p "_id" else VStr ""]> ∅)))))))).

(** The nine fields of an Input. *)
Definition input_fields : list string :=
  ["_id"; "_value"; "_accept"; "_required"; "_label"; "_hidden";
   "_readonly"; "_options"; "_regexp"].

(** An optional field: absent, or of the shape its setter accepts. *)
Definition undefined_or (shape : val → bool) (v : val) : bool :=
  if typeof v =? "undefined" then true else shape v.

(** The invariant the constructor and the setters of Input keep: the id is
    a string, the value is defined, and every optional field is either
    absent or of the shape its setter accepts. *)
Definition input_shape (h : heap) (v : val) : bool :=
  (typeof (prop h v "_id") =? "string")
  && negb (typeof (prop h v "_value") =? "undefined")
  && undefined_or (is_nonempty_array h) (prop h v "_accept")
  && undefined_or (λ x, typeof x =? "boolean") (prop h v "_required")
  && undefined_or (λ x, typeof x =? "string") (prop h v "_label")
  && undefined_or (λ x, typeof x =? "boolean") (prop h v "_hidden")
  && undefined_or (λ x, typeof x =? "boolean") (prop h v "_readonly")
  && undefined_or (is_nonempty_array h) (prop h v "_options")
  && undefined_or (λ x, typeof x =? "string") (prop h v "_regexp").

(** [v] is an Input that satisfies the invariant. *)
Definition input_ok (h : heap) (v : val) : bool :=
  instanceOf CInput h v && input_shape h v.

(** Two Inputs with the same observable fields. *)
Definition same_input_fields (h1 : heap) (v1 : val) (h2 : heap) (v2 : val) : Prop :=
  Forall (λ k, prop h1 v1 k = prop h2 v2 k) input_fields.

(** ** Invariants of computations *)

(** Whatever the outcome of [m] (a result, an exception, no fuel left), a
    heap satisfying [I] is left satisfying [I]; a result satisfies [V]. *)
Definition inv {A} (I : heap → Prop) (m : M A) (V : A → Prop) : Prop :=
  ∀ h, I h → I (m h).1 ∧ ∀ a, (m h).2 = Val a → V a.

(** [m] ends with a result or with an Error: it does not stop for want of
    fuel, it runs no code of the caller and it stays within the model. *)
Definition settles {A} (m : M A) : Prop :=
  ∀ h, match (m h).2 with
       | Val _ | Exn _ => True
       | _ => False
       end.

(** ** The message table of an Affordance *)

(** The object held in [_messages]. *)
Definition messages_of (h : heap) (v : val) : option (gmap string val) :=
  match prop h v "_messages" with
  | VRef lm => match h !! lm with
               | Some (Obj CObject ps) => Some ps
               | _ => None
               end
  | _ => None
  end.

(** [messages[code]], as the list of ids it holds. *)
Definition message_for (h : heap) (v : val) (code : string) : option (list val) :=
  ps ← messages_of h v; x ← ps !! code; array_elems h x.




(** [idList] is a non-empty array whose every entry is a string. *)
Definition valid_id_list (h : heap) (idList : val) : bool :=
  match array_elems h idList with
  | Some (x :: xs) => forallb (λ id, typeof id =? "string") (x :: xs)
  | _ => false
  end.


(** The id an Affordance is constructed with: the argument when it is a
    string, [''] otherwise. *)
Definition string_or_empty (v : val) : val :=
  if typeof v =? "string" then v else VStr "".

(** ** Trees of Affordances and Affordance nodes

    The shape of a tree, with the location of every node: a [Leaf] is an
    Affordance, a [Node] an Affordances with its children in order. *)
Inductive tree :=
  | Leaf (l : loc)
  | Node (l : loc) (kids : list tree).

Definition root (t : tree) : loc :=
  match t with Leaf l | Node l _ => l end.

(** The nesting depth of the collections. *)
Fixpoint height (t : tree) : nat :=
  match t with
  | Leaf _ => 0
  | Node _ kids => S (max_list (height <$> kids))
  end.

(** The nodes below the root, depth first, left to right; a collection
    comes before its members. *)
Fixpoint descendants (t : tree) : list tree :=
  match t with
  | Leaf _ => []
  | Node _ kids => flat_map (λ k, k :: descendants k) kids
  end.

(** Every node, the root first. *)
Definition nodes (t : tree) : list tree := t :: descendants t.

(** A reference to an object of the heap. *)
Definition live_object (h : heap) (v : val) : bool :=
  match v with
  | VRef l => bool_decide (is_Some (h !! l))
  | _ => false
  end.

(** An array of Inputs. *)
Definition controls_ok (h : heap) (v : val) : bool :=
  match array_elems h v with
  | Some xs => forallb (input_ok h) xs
  | None => false
  end.

(** What the constructor and the setters of Affordance maintain: id,
    method and uri are strings; relation, metadata and the inputs are
    absent or a string, an object, an array of Inputs. *)
Definition affordance_ok (h : heap) (v : val) : bool :=
  instanceOf CAffordance h v
  && (typeof (prop h v "_id") =? "string")
  && (typeof (prop h v "_method") =? "string")
  && (typeof (prop h v "_uri") =? "string")
  && undefined_or (λ x, typeof x =? "string") (prop h v "_relation")
  && undefined_or (live_object h) (prop h v "_metadata")
  && undefined_or (controls_ok h) (prop h v "_controls").

(** The same for Affordances: the id is absent or a string, the metadata
    absent or an object. *)
Definition affordances_ok (h : heap) (v : val) : bool :=
  instanceOf CAffordances h v
  && undefined_or (λ x, typeof x =? "string") (prop h v "_id")
  && undefined_or (live_object h) (prop h v "_metadata").

(** The heap holds the tree [t]: every node is an object of its class in
    the state its methods maintain, and the [_affordances] array of a
    collection lists its children in order. *)
Fixpoint wf_tree (h : heap) (t : tree) : bool :=
  match t with
  | Leaf l => affordance_ok h (VRef l)
  | Node l kids =>
      affordances_ok h (VRef l)
      && bool_decide (array_elems h (prop h (VRef l) "_affordances")
                      = Some ((λ k, VRef (root k)) <$> kids))
      && forallb (wf_tree h) kids
  end.

(** The inputs of an Affordance. *)
Definition inputs_of (h : heap) (v : val) : list val :=
  default [] (array_elems h (prop h v "_controls")).

(** ** Copies *)

(** What a setter leaves in a new object, given a value to copy. *)
Definition keep_string (v : val) : val :=
  if typeof v =? "string" then v else VUndef.

Definition keep_object (v : val) : val :=
  if is_object v then v else VUndef.

(** [x'] is the Input that [copy] made of [x]; the objects of the copy are
    read in [g]. *)
Definition input_copy_of (h g : heap) (x x' : val) : Prop :=
  ∃ li' hi, x' = VRef li' ∧ h ⊆ hi
            ∧ g !! li' = Some (Obj CInput (input_props_from hi x)).

(** The Affordance at [l'] is what [copy] makes of the one at [l]. *)
Definition leaf_copy_of (h g : heap) (l l' : loc) : Prop :=
  ∃ ps' lm ls,
    g !! l' = Some (Obj CAffordance ps')
    ∧ ps' !! "_id" = Some (string_or_empty (prop h (VRef l) "_id"))
    ∧ ps' !! "_method" = Some (string_or_empty (prop h (VRef l) "_method"))
    ∧ ps' !! "_uri" = Some (string_or_empty (prop h (VRef l) "_uri"))
    ∧ ps' !! "_relation" = Some (keep_string (prop h (VRef l) "_relation"))
    ∧ ps' !! "_metadata" = Some (keep_object (prop h (VRef l) "_metadata"))
    ∧ ps' !! "_messages" = Some (VRef lm)
    ∧ g !! lm = Some (Obj CObject (<["*" := VRef ls]> ∅))
    ∧ g !! ls = Some (Arr [string_or_empty (prop h (VRef l) "_id")])
    ∧ match inputs_of h (VRef l) with
      | [] => ps' !! "_controls" = None
      | xs => ∃ la xs', ps' !! "_controls" = Some (VRef la)
                        ∧ g !! la = Some (Arr xs')
                        ∧ Forall2 (input_copy_of h g) xs xs'
      end.

(** The Affordances at [l'], with children [kids'], is what [copy] makes of
    the one at [l], given the copies of its children. *)
Definition node_copy_of (h g : heap) (l l' : loc) (kids' : list tree) : Prop :=
  ∃ ps' la,
    g !! l' = Some (Obj CAffordances ps')
    ∧ ps' !! "_id" = Some (keep_string (prop h (VRef l) "_id"))
    ∧ ps' !! "_metadata" = Some (keep_object (prop h (VRef l) "_metadata"))
    ∧ ps' !! "_affordances" = Some (VRef la)
    ∧ g !! la = Some (Arr ((λ k, VRef (root k)) <$> kids')).

(** The tree [t'], read in [g], is what [copy] makes of [t], read in [h]. *)
Fixpoint is_copy (h g : heap) (t t' : tree) : Prop :=
  match t, t' with
  | Leaf l, Leaf l' => leaf_copy_of h g l l'
  | Node l kids, Node l' kids' =>
      node_copy_of h g l l' kids'
      ∧ (fix all2 (ks ks' : list tree) : Prop :=
           match ks, ks' with
           | [], [] => True
           | k :: ks, k' :: ks' => is_copy h g k k' ∧ all2 ks ks'
           | _, _ => False
           end) kids kids'
  | _, _ => False
  end.

(** An object under construction at [l]: either its inputs array does not
    exist yet, or it is the array at [la] and holds [xs]. *)
Definition building (h : heap) (l : loc) (c : cls) (ps0 : gmap string val)
    (ola : option loc) (xs : list val) : Prop :=
  match ola with
  | None => xs = [] ∧ h !! l = Some (Obj c ps0)
  | Some la => h !! l = Some (Obj c (<["_controls" := VRef la]> ps0))
               ∧ h !! la = Some (Arr xs)
  end.

(** ** What a copy is, field by field *)

Definition affordance_fields : list string :=
  ["_id"; "_method"; "_uri"; "_relation"; "_metadata"].

Definition affordances_fields : list string := ["_id"; "_metadata"].

Definition same_fields (ks : list string)
    (h1 : heap) (v1 : val) (h2 : heap) (v2 : val) : Prop :=
  Forall (λ k, prop h1 v1 k = prop h2 v2 k) ks.

(** The message tables of two Affordances hold the same lists. *)
Definition same_messages (h : heap) (v : val) (h' : heap) (v' : val) : Prop :=
  ∀ code, message_for h' v' code = message_for h v code.

(** [x'] is another Input with the fields of [x]. *)
Definition copied_input (h h' : heap) (x x' : val) : Prop :=
  x ≠ x' ∧ Input.isPrototypeOf h' x' = true ∧ same_input_fields h' x' h x.

(** [t'], read in [h'], has the shape of [t], read in [h]; each of its nodes
    is another object than the node of [t] it stands for, of the same
    class and with the same id, method, uri, relation and metadata; the
    inputs of an Affordance are other Inputs with the same fields, in the
    same order; its message table binds ['*'] to the list of its id and
    nothing else. *)
Fixpoint copied (h h' : heap) (t t' : tree) : Prop :=
  match t, t' with
  | Leaf l, Leaf l' =>
      l ≠ l'
      ∧ Affordance.isPrototypeOf h' (VRef l') = true
      ∧ same_fields affordance_fields h' (VRef l') h (VRef l)
      ∧ Forall2 (copied_input h h')
          (inputs_of h (VRef l)) (inputs_of h' (VRef l'))
      ∧ message_for h' (VRef l') "*" = Some [prop h (VRef l) "_id"]
      ∧ (∀ code, code ≠ "*" → message_for h' (VRef l') code = None)
  | Node l kids, Node l' kids' =>
      l ≠ l'
      ∧ Affordances.isPrototypeOf h' (VRef l') = true
      ∧ same_fields affordances_fields h' (VRef l') h (VRef l)
      ∧ array_elems h' (prop h' (VRef l') "_affordances")
        = Some ((λ k, VRef (root k)) <$> kids')
      ∧ (fix all2 (ks ks' : list tree) : Prop :=
           match ks, ks' with
           | [], [] => True
           | k :: ks, k' :: ks' => copied h h' k k' ∧ all2 ks ks'
           | _, _ => False
           end) kids kids'
  | _, _ => False
  end.

(** ** Metadata and its cascade *)

(** The own properties of the object [v] refers to. *)
Definition props_of (h : heap) (v : val) : gmap string val :=
  match v with
  | VRef l => match h !! l with
              | Some o => own_props o
              | None => ∅
              end
  | _ => ∅
  end.

(** The metadata a field holds: nothing, or the fields of an object. *)
Definition meta_props (h : heap) (v : val) : option (gmap string val) :=
  if is_object v then Some (props_of h v) else None.

(** The merge of [cascadeMetadata]: the parent's fields first, then the
    child's over them; nothing when neither side has metadata. *)
Definition merge_meta (parent child : option (gmap string val))
    : option (gmap string val) :=
  match parent, child with
  | None, None => None
  | _, _ => Some (default ∅ child ∪ default ∅ parent)
  end.

(** [v] is not a dangling reference. *)
Definition val_live (h : heap) (v : val) : Prop :=
  match v with
  | VRef l => is_Some (h !! l)
  | _ => True
  end.


(** Fields without the two names an object gives a meaning of its own:
    [hasOwnProperty], which the cascade calls on the metadata, and
    [__proto__], which is not added by an assignment. *)
Definition plain_props (ps : gmap string val) : bool :=
  bool_decide (ps !! "hasOwnProperty" = None)
  && bool_decide (ps !! "__proto__" = None).

Definition plain_meta (h : heap) (v : val) : bool :=
  plain_props (props_of h v).

(** The search among the children [ks] of the collection at [l], given the
    search [find] below a child: a child with the id is the match;
    otherwise a match below the child is; otherwise the next child is
    tried. *)
Definition find_in (find : tree → option (tree * list loc))
    (h : heap) (id : val) (l : loc) : list tree → option (tree * list loc) :=
  fix go (ks : list tree) : option (tree * list loc) :=
    match ks with
    | [] => None
    | k :: ks' =>
        if strict_eq (prop h (VRef (root k)) "_id") id
        then Some (k, [l])
        else match find k with
             | Some (m, ancs) => Some (m, ancs ++ [l])
             | None => go ks'
             end
    end.

(** The first node below the root of [t], depth first, whose id is [id],
    with the collections it lies in, the nearest first and the root of [t]
    last. *)
Fixpoint find_below (h : heap) (id : val) (t : tree) : option (tree * list loc) :=
  match t with
  | Leaf _ => None
  | Node l kids => find_in (find_below h id) h id l kids
  end.

(** [ancs] are the collections on the way from [m] up to the root of [t],
    the parent of [m] first. *)
Inductive path_up : tree → list loc → tree → Prop :=
  | path_child l kids m :
      m ∈ kids → path_up (Node l kids) [l] m
  | path_deeper l kids k ancs m :
      k ∈ kids → path_up k ancs m → path_up (Node l kids) (ancs ++ [l]) m.









(** The class of the object a node of a tree is. *)
Definition node_class (t : tree) : cls :=
  match t with
  | Leaf _ => CAffordance
  | Node _ _ => CAffordances
  end.

(** ** The shapes the reviver looks for *)

(** What [affordance.canRevive] asks of a value: an object whose id, method
    and uri are strings. *)
Definition affordance_shape (h : heap) (v : val) : bool :=
  is_object v
  && (typeof (prop h v "_id") =? "string")
  && (typeof (prop h v "_method") =? "string")
  && (typeof (prop h v "_uri") =? "string").

(** What [input.canRevive] asks: an object whose id is a string and whose
    value is defined. *)
Definition input_min_shape (h : heap) (v : val) : bool :=
  is_object v
  && (typeof (prop h v "_id") =? "string")
  && negb (typeof (prop h v "_value") =? "undefined").

(** What [affordances.canRevive] asks: an object whose [_affordances] is an
    array. *)
Definition affordances_shape (h : heap) (v : val) : bool :=
  is_object v && isArray h (prop h v "_affordances").

(** ** Vocabulary for the further properties *)

(** The getter that reads the field of a setter, for the setters that have
    one. *)
Definition setter_getter (s : setter) : option (val → M val) :=
  match s with
  | Affordance_setRelation => Some Affordance.getRelation
  | Affordance_setMetadata => Some Affordance.getMetadata
  | Affordances_setId => Some Affordances.getId
  | Affordances_setMetadata => Some Affordances.getMetadata
  | _ => None
  end.

(** The string ids of the nodes below the root of [t], in the order of the
    search; a collection without id contributes none. *)
Definition string_ids (h : heap) (t : tree) : list string :=
  omap (λ d, match prop h (VRef (root d)) "_id" with
             | VStr s => Some s
             | _ => None
             end) (descendants t).

(** The Affordances of a tree, depth first, left to right. *)
Fixpoint leaves (t : tree) : list loc :=
  match t with
  | Leaf l => [l]
  | Node _ kids => flat_map leaves kids
  end.

(** The heap [h1] holds the nodes of [t] and the arrays of children of its
    collections as [h] does. *)
Definition undisturbed (t : tree) (h h1 : heap) : Prop :=
  ∀ n, n ∈ nodes t →
    h1 !! root n = h !! root n
    ∧ ∀ la, prop h (VRef (root n)) "_affordances" = VRef la →
            h1 !! la = h !! la.

(** Two computations do the same from every heap that satisfies [P]. *)
Definition eq_on {A} (P : heap → Prop) (m1 m2 : M A) : Prop :=
  ∀ h, P h → m1 h = m2 h.

(** A computation leaves [P] in place, whatever its outcome. *)
Definition preserves {A} (P : heap → Prop) (m : M A) : Prop :=
  ∀ h, P h → P (m h).1.

(** What the conversion of the argument of [decode] to a string may end
    with for the [catch] clause to handle it: a string, an Error, or a
    thrown value other than [null] and [undefined] (an object thrown is
    one of the heap). *)
Definition catchable (r : heap * result string) : Prop :=
  match r.2 with
  | Val _ | Exn _ => True
  | Thrown v => v ≠ VNull ∧ v ≠ VUndef ∧ val_live r.1 v
  | Beyond _ | Fuel => False
  end.

(** ** Documents

    The JSON texts that describe a tree of nodes: what [JSON.stringify]
    makes of the plain forms, without metadata, with Inputs that have an id
    and a value. *)

Inductive doc :=
  | DAffordance (id method uri : string) (relation : option string)
      (controls : option (list (string * string)))
  | DAffordances (id : option string) (members : list doc).

(** An Input [(id, value)] as JSON. *)
Definition json_of_input (c : string * string) : json :=
  JObj [("_id", JStr c.1); ("_value", JStr c.2)].

(** A document as JSON; the members are in the order [toJSON] gives them,
    an absent field has no member. *)
Fixpoint to_json (d : doc) : json :=
  match d with
  | DAffordance id method uri relation controls =>
      JObj ([("_id", JStr id); ("_method", JStr method); ("_uri", JStr uri)]
            ++ from_option (λ r, [("_relation", JStr r)]) [] relation
            ++ from_option
                 (λ cs, [("_controls", JArr (json_of_input <$> cs))])
                 [] controls)
  | DAffordances id members =>
      JObj (from_option (λ i, [("_id", JStr i)]) [] id
            ++ [("_affordances", JArr (to_json <$> members))])
  end.

(** The two loops of [internalize], by name. *)
Fixpoint walk_items (reviver : string → val → M val)
    (i : nat) (items : list json) : M (list val) :=
  match items with
  | [] => mret []
  | x :: rest =>
      v ← Naval.internalize reviver (pretty i) x;
      vs ← walk_items reviver (S i) rest;
      mret (v :: vs)
  end.

Fixpoint walk_members (reviver : string → val → M val)
    (ps : gmap string val) (members : list (string * json))
    : M (gmap string val) :=
  match members with
  | [] => mret ps
  | (k, x) :: rest =>
      v ← Naval.internalize reviver k x;
      walk_members reviver
        (if strict_eq v VUndef then delete k ps else <[k := v]> ps) rest
  end.

(** An optional string field. *)
Definition optional_string (o : option string) : val :=
  from_option VStr VUndef o.

(** The Input [x] has the id and the value of [c] and no other field. *)
Definition input_holds (h : heap) (x : val) (c : string * string) : Prop :=
  input_ok h x = true
  ∧ prop h x "_id" = VStr c.1
  ∧ prop h x "_value" = VStr c.2
  ∧ Forall (λ k, prop h x k = VUndef)
      ["_accept"; "_required"; "_label"; "_hidden"; "_readonly";
       "_options"; "_regexp"].

(** The tree [t], read in [h], is what the document [d] describes. *)
Fixpoint holds (h : heap) (t : tree) (d : doc) : Prop :=
  match t, d with
  | Leaf l, DAffordance id method uri relation controls =>
      prop h (VRef l) "_id" = VStr id
      ∧ prop h (VRef l) "_method" = VStr method
      ∧ prop h (VRef l) "_uri" = VStr uri
      ∧ prop h (VRef l) "_relation" = optional_string relation
      ∧ prop h (VRef l) "_metadata" = VUndef
      ∧ Forall2 (input_holds h) (inputs_of h (VRef l)) (default [] controls)
  | Node l kids, DAffordances id members =>
      prop h (VRef l) "_id" = optional_string id
      ∧ prop h (VRef l) "_metadata" = VUndef
      ∧ (fix all2 (ks : list tree) (ds : list doc) : Prop :=
           match ks, ds with
           | [], [] => True
           | k :: ks, d :: ds => holds h k d ∧ all2 ks ds
           | _, _ => False
           end) kids members
  | _, _ => False
  end.

(** What decoding a document gives: a new tree that the document
    describes. *)
Definition decoded (h : heap) (d : doc) (v : val) (h' : heap) : Prop :=
  ∃ t, v = VRef (root t) ∧ h ⊆ h' ∧ h !! root t = None
       ∧ wf_tree h' t = true ∧ holds h' t d.


(** ** Concrete heaps used as examples *)

(** One Input with id ["q"], at location 1. *)
Definition heap_one_input : heap :=
  <[1%positive := Obj CInput (<["_id" := VStr "q"]> (<["_value" := VStr ""]> ∅))]> ∅.

(** The heap after [affordance('a', 'GET', '/a')] from an empty heap: the
    Affordance at location 1, the list [['a']] at 2, the message table at 3. *)
Definition heap_one_affordance : heap :=
  (Affordance.affordance (VStr "a") (VStr "GET") (VStr "/a") ∅).1.

(** [a = affordance('a', 'GET', '/a'); a.addMessage('200', ['a'])]: as
    [heap_one_affordance], with the list [['a']] of the call at location 4
    and bound to ['200'] in the message table. *)
Definition heap_with_message : heap :=
  fst ((a ← Affordance.affordance (VStr "a") (VStr "GET") (VStr "/a");
        ids ← alloc (Arr [VStr "a"]);
        Affordance.addMessage a (VStr "200") ids) ∅).

(** [r = affordances('r'); r.addAffordance(a)] after [heap_with_message]:
    the collection at location 5, its array of children at 6. *)
Definition heap_tree_with_message : heap :=
  fst ((r ← Affordances.affordances (VStr "r");
        Affordances.addAffordance r (VRef 1%positive)) heap_with_message).

Definition tree_with_message : tree := Node 5%positive [Leaf 1%positive].

(** The tree of the lookup example: the collection ['R'] with metadata
    [{a: 1}] holds the collection ['C'] with metadata [{a: 2, b: 2}], which
    holds the Affordance ['L'] with metadata [{b: 3}].  From an empty heap:
    R at location 1 (its children at 2, its metadata at 3), C at 4 (children
    at 5, metadata at 6), L at 7 (message list and table at 8 and 9,
    metadata at 10). *)
Definition heap_nested : heap :=
  fst ((r ← Affordances.affordances (VStr "R");
        mr ← alloc (Obj CObject (<["a" := VNum 1]> ∅));
        Affordances.setMetadata r mr;;
        c ← Affordances.affordances (VStr "C");
        mc ← alloc (Obj CObject (<["a" := VNum 2]> (<["b" := VNum 2]> ∅)));
        Affordances.setMetadata c mc;;
        l ← Affordance.affordance (VStr "L") (VStr "GET") (VStr "/l");
        ml ← alloc (Obj CObject (<["b" := VNum 3]> ∅));
        Affordance.setMetadata l ml;;
        Affordances.addAffordance c l;;
        Affordances.addAffordance r c) ∅).

Definition tree_nested : tree :=
  Node 1%positive [Node 4%positive [Leaf 7%positive]].

(** A plain object, at location 1, with the fields of an Affordance and
    those of a collection: [{_id: 'x', _method: 'GET', _uri: '/x',
    _affordances: []}]; the empty array is at location 2. *)
Definition heap_both_shapes : heap :=
  <[1%positive := Obj CObject
      (<["_id" := VStr "x"]> (<["_method" := VStr "GET"]>
      (<["_uri" := VStr "/x"]>
      (<["_affordances" := VRef 2%positive]> ∅))))]>
  (<[2%positive := Arr []]> ∅).

(** [heap_nested] with, at location 11, an object whose [_requests] is the
    collection R: what the methods of HypermediaApi modelled here read of
    their receiver. *)
Definition heap_api : heap :=
  <[11%positive := Obj CObject (<["_requests" := VRef 1%positive]> ∅)]>
    heap_nested.

(** [heap_tree_with_message] with, at location 7, an object whose
    [_requests] is the collection ['r'], and at location 8 the plain object
    [{_id: 'q', _value: ''}]. *)
Definition heap_api_form : heap :=
  <[8%positive := Obj CObject (<["_id" := VStr "q"]>
                                 (<["_value" := VStr ""]> ∅))]>
    (<[7%positive := Obj CObject (<["_requests" := VRef 5%positive]> ∅)]>
       heap_tree_with_message).

(** [heap_nested] with an empty array at location 12, where a callback
    keeps a log. *)
Definition heap_with_log : heap := <[12%positive := Arr []]> heap_nested.

(** A callback that appends its argument to the log. *)
Definition log_call (callback x : val) : M () := push (VRef 12%positive) x.

(** A document: a collection of a search form and a nested collection. *)
Definition doc_form : doc :=
  DAffordances (Some "api")
    [DAffordance "search" "GET" "/search" (Some "search")
       (Some [("q", ""); ("page", "1")]);
     DAffordances None [DAffordance "home" "GET" "/" None None]].

(** An engine's grammar that reads one text, as the JSON of [doc_form]. *)
Definition grammar_form (s : string) : option json :=
  if String.eqb s "the text of doc_form" then Some (to_json doc_form)
  else None.

(** [heap_nested] where the metadata of R is
    [{a: 1, hasOwnProperty: 1}]. *)
Definition heap_own_method : heap :=
  <[3%positive := Obj CObject (<["hasOwnProperty" := VNum 1]>
                                 (<["a" := VNum 1]> ∅))]> heap_nested.

(** [heap_one_affordance] with the array [['a']] at location 4. *)
Definition heap_with_ids : heap :=
  <[4%positive := Arr [VStr "a"]]> heap_one_affordance.

(** A [toString] of the caller that throws [null]. *)
Definition throws_null (v : val) : M string := λ h, (h, Thrown VNull).

(** An object with such a [toString], at location 1. *)
Definition heap_hostile : heap :=
  <[1%positive := Obj CObject (<["toString" := VFun 1]> ∅)]> ∅.

(** An engine whose conversion of an object to a string returns
    ["[object Object]"]. *)
Definition engine_ToString (v : val) : M string := mret "[object Object]".


(** * Properties *)

(** ** Running computations *)

Lemma wp_ret {A} (a : A) h Q : Q a h → wp (mret a) h Q.
Proof. intros. by exists a, h. Qed.

Lemma wp_bind {A B} (m : M A) (f : A → M B) h Q :
  wp m h (λ a h', wp (f a) h' Q) → wp (m ≫= f) h Q.
Proof.
  intros (a & h' & Hm & b & h'' & Hf & HQ). exists b, h''. split; [|done].
  unfold mbind, M_bind. by rewrite Hm.
Qed.

Lemma wp_mono {A} (m : M A) h (Q Q' : A → heap → Prop) :
  wp m h Q → (∀ a h', Q a h' → Q' a h') → wp m h Q'.
Proof. intros (a & h' & Hm & HQ) HQQ. exists a, h'. eauto. Qed.

Lemma wp_gets {A} (f : heap → A) h Q : Q (f h) h → wp (gets f) h Q.
Proof. intros. by exists (f h), h. Qed.

Lemma wp_test (f : heap → bool) h Q : Q (f h) h → wp (test f) h Q.
Proof. intros. by exists (f h), h. Qed.

Lemma wp_alloc o h Q :
  (∀ l, l ∉ dom h → Q (VRef l) (<[l := o]> h)) → wp (alloc o) h Q.
Proof. intros HQ. eexists _, _. split; [done|]. apply HQ, is_fresh. Qed.

Lemma wp_get_prop l k h Q :
  is_Some (h !! l) → Q (prop h (VRef l) k) h → wp (get_prop (VRef l) k) h Q.
Proof.
  intros [o Ho] HQ. exists (prop h (VRef l) k), h. split; [|done].
  unfold get_prop, prop. by rewrite Ho.
Qed.

Lemma wp_set_prop l k x c ps h Q :
  h !! l = Some (Obj c ps) →
  Q () (<[l := Obj c (<[k := x]> ps)]> h) →
  wp (set_prop (VRef l) k x) h Q.
Proof.
  intros Ho HQ. eexists _, _. split; [|done]. unfold set_prop. by rewrite Ho.
Qed.

Lemma wp_push l x xs h Q :
  h !! l = Some (Arr xs) →
  Q () (<[l := Arr (xs ++ [x])]> h) →
  wp (push (VRef l) x) h Q.
Proof.
  intros Ho HQ. eexists _, _. split; [|done]. unfold push. by rewrite Ho.
Qed.

(** The same with the ways a computation ends without a result. *)
Lemma wpo_wp {A} (m : M A) h Q E : wp m h Q → wpo m h Q E.
Proof. intros (a & h' & Hm & HQ). unfold wpo. by rewrite Hm. Qed.

Lemma wpo_bind {A B} (m : M A) (f : A → M B) h Q E :
  wpo m h (λ a h', wpo (f a) h' Q E) E → wpo (m ≫= f) h Q E.
Proof.
  unfold wpo, mbind, M_bind. by destruct (m h) as [h' [a|e|v|step|]].
Qed.

Lemma wpo_mono {A} (m : M A) h (Q Q' : A → heap → Prop)
    (E E' : abort → heap → Prop) :
  wpo m h Q E →
  (∀ a h', Q a h' → Q' a h') → (∀ x h', E x h' → E' x h') →
  wpo m h Q' E'.
Proof.
  unfold wpo. intros Hm HQ HE.
  destruct (outcome (m h).2); [by apply HQ|by apply HE].
Qed.

Lemma wp_wpo {A} (m : M A) h Q : wpo m h Q (λ _ _, False) → wp m h Q.
Proof.
  unfold wpo, wp. destruct (m h) as [h' [a|e|v|step|]]; simpl; try done.
  eauto.
Qed.

Lemma wpo_ret {A} (a : A) h Q E : Q a h → wpo (mret a) h Q E.
Proof. intros. by apply wpo_wp, wp_ret. Qed.

(** ** Reading the heap *)

Lemma prop_lookup h l c ps k :
  h !! l = Some (Obj c ps) → prop h (VRef l) k = default VUndef (ps !! k).
Proof. intros H. unfold prop. by rewrite H. Qed.

Lemma is_object_ref v : is_object v = true ↔ ∃ l, v = VRef l.
Proof.
  split; [|by intros [l ->]].
  destruct v; try done; [| | |by eauto]; simpl.
  - unfold is_object; simpl. by rewrite andb_false_r.
  - unfold is_object; simpl. by rewrite andb_false_r.
  - unfold is_object; simpl. by rewrite andb_false_r.
Qed.

(** ** Setters *)

(** Every setter writes its own field, with the argument when it has the
    right shape and with the field's previous value otherwise, and returns
    the receiver. *)
Lemma call_setter_run s l c ps h arg :
  h !! l = Some (Obj c ps) →
  call_setter s (VRef l) arg h =
    (<[l := Obj c (<[setter_field s :=
                       if setter_accepts s h arg then arg
                       else default VUndef (ps !! setter_field s)]> ps)]> h,
     Val (VRef l)).
Proof.
  intros Hl.
  destruct s; simpl;
    unfold Input.setId, Input.setValue, Input.setAccept, Input.setRequired,
      Input.setLabel, Input.setHidden, Input.setReadonly,
      Input.setValueOptions, Input.setRegExp, Affordance.setRelation,
      Affordance.setMetadata, Affordances.setId, Affordances.setMetadata,
      mbind, M_bind, mret, M_ret, get_prop, set_prop, test, gets;
    rewrite Hl; simpl; rewrite ?Hl; done.
Qed.

Lemma prop_insert_eq h l c ps k :
  prop (<[l := Obj c ps]> h) (VRef l) k = default VUndef (ps !! k).
Proof. unfold prop. by rewrite lookup_insert_eq. Qed.

(** C8.  A setter of Input, Affordance or Affordances that is given an
    argument failing its shape test keeps the previous value of its field:
    every property of the receiver reads as before, no other object
    changes, nothing is thrown and the receiver itself is returned. *)
Theorem setters_reject_silently (s : setter) (l : loc)
    (ps : gmap string val) (h : heap) (arg : val) :
  h !! l = Some (Obj (setter_class s) ps) →
  setter_accepts s h arg = false →
  ∃ h', call_setter s (VRef l) arg h = (h', Val (VRef l))
        ∧ (∀ k, prop h' (VRef l) k = prop h (VRef l) k)
        ∧ class_of h' (VRef l) = class_of h (VRef l)
        ∧ (∀ l', l' ≠ l → h' !! l' = h !! l')
        ∧ (is_Some (ps !! setter_field s) → h' = h).
Proof.
  intros Hl Hrej. eexists. split; [by apply call_setter_run|].
  rewrite Hrej. repeat split.
  - intros k. rewrite prop_insert_eq, (prop_lookup _ _ _ _ _ Hl).
    destruct (decide (k = setter_field s)) as [->|Hk].
    + rewrite lookup_insert_eq. by destruct (ps !! setter_field s).
    + by rewrite lookup_insert_ne.
  - simpl. by rewrite lookup_insert_eq, Hl.
  - intros l' Hl'. by rewrite lookup_insert_ne.
  - intros [x Hx]. rewrite Hx; simpl.
    rewrite (insert_id ps) by done. by apply insert_id.
Qed.

Lemma setters_reject_silently_witness :
  ∃ h', call_setter Input_setAccept (VRef 1%positive) (VNum 5) heap_one_input
        = (h', Val (VRef 1%positive))
        ∧ (∀ k, prop h' (VRef 1%positive) k
                = prop heap_one_input (VRef 1%positive) k)
        ∧ class_of h' (VRef 1%positive)
          = class_of heap_one_input (VRef 1%positive)
        ∧ (∀ l', l' ≠ 1%positive → h' !! l' = heap_one_input !! l')
        ∧ (is_Some ((<["_id" := VStr "q"]> (<["_value" := VStr ""]> ∅)
                       : gmap string val) !! setter_field Input_setAccept) →
           h' = heap_one_input).
Proof.
  apply (setters_reject_silently Input_setAccept 1%positive
           (<["_id" := VStr "q"]> (<["_value" := VStr ""]> ∅))
           heap_one_input (VNum 5)); reflexivity.
Defined.

(** ** Input *)

Lemma prop_insert_ne h l o l' k :
  l ≠ l' → prop (<[l := o]> h) (VRef l') k = prop h (VRef l') k.
Proof. intros. unfold prop. by rewrite lookup_insert_ne. Qed.

Lemma array_elems_alloc h l c ps v :
  h !! l = None →
  array_elems (<[l := Obj c ps]> h) v = array_elems h v.
Proof.
  intros Hl. destruct v; try done. simpl.
  destruct (decide (l = l0)) as [->|Hne].
  - by rewrite lookup_insert_eq, Hl.
  - by rewrite lookup_insert_ne.
Qed.

Lemma is_nonempty_array_alloc h l c ps v :
  h !! l = None →
  is_nonempty_array (<[l := Obj c ps]> h) v = is_nonempty_array h v.
Proof. intros. unfold is_nonempty_array. by rewrite array_elems_alloc. Qed.

Lemma wp_call_setter s l c ps arg h Q :
  h !! l = Some (Obj c ps) →
  Q (VRef l)
    (<[l := Obj c (<[setter_field s :=
                       if setter_accepts s h arg then arg
                       else default VUndef (ps !! setter_field s)]> ps)]> h) →
  wp (call_setter s (VRef l) arg) h Q.
Proof. intros Hl HQ. eexists _, _. split; [by apply call_setter_run|done]. Qed.

Lemma wp_get_prop_obj l k c ps x h Q :
  h !! l = Some (Obj c ps) →
  default VUndef (ps !! k) = x →
  Q x h →
  wp (get_prop (VRef l) k) h Q.
Proof.
  intros Hl <- HQ. apply wp_get_prop; [by eauto|].
  by rewrite (prop_lookup _ _ _ _ _ Hl).
Qed.

(** One link of the chain [.setX(src._x)] on the new Input at [l]. *)
Lemma wp_offer s ls k l ps od h (K : val → M val) Q :
  h !! l = None →
  is_Some (h !! ls) →
  ps !! setter_field s = od →
  wp (K (VRef l))
     (<[l := Obj CInput
              (<[setter_field s :=
                   if setter_accepts s h (prop h (VRef ls) k)
                   then prop h (VRef ls) k
                   else default VUndef od]> ps)]> h) Q →
  wp (x ← get_prop (VRef ls) k; c ← call_setter s (VRef l) x; K c)
     (<[l := Obj CInput ps]> h) Q.
Proof.
  intros Hl Hls <- HK.
  assert (l ≠ ls) as Hne by (intros ->; destruct Hls; congruence).
  apply wp_bind, wp_get_prop; [by rewrite lookup_insert_ne|].
  rewrite prop_insert_ne by done.
  apply wp_bind. eapply wp_call_setter; [apply lookup_insert_eq|].
  rewrite insert_insert_eq.
  replace (setter_accepts s (<[l:=Obj CInput ps]> h) (prop h (VRef ls) k))
    with (setter_accepts s h (prop h (VRef ls) k)); [done|].
  destruct s; simpl; try done; by rewrite is_nonempty_array_alloc.
Qed.

Lemma wp_offer_last s ls k l ps od h Q :
  h !! l = None →
  is_Some (h !! ls) →
  ps !! setter_field s = od →
  Q (VRef l)
    (<[l := Obj CInput
             (<[setter_field s :=
                  if setter_accepts s h (prop h (VRef ls) k)
                  then prop h (VRef ls) k
                  else default VUndef od]> ps)]> h) →
  wp (x ← get_prop (VRef ls) k; call_setter s (VRef l) x)
     (<[l := Obj CInput ps]> h) Q.
Proof.
  intros Hl Hls <- HK.
  assert (l ≠ ls) as Hne by (intros ->; destruct Hls; congruence).
  apply wp_bind, wp_get_prop; [by rewrite lookup_insert_ne|].
  rewrite prop_insert_ne by done.
  eapply wp_call_setter; [apply lookup_insert_eq|].
  rewrite insert_insert_eq.
  replace (setter_accepts s (<[l:=Obj CInput ps]> h) (prop h (VRef ls) k))
    with (setter_accepts s h (prop h (VRef ls) k)); [done|].
  destruct s; simpl; try done; by rewrite is_nonempty_array_alloc.
Qed.

Ltac solve_lookup :=
  first
    [ eassumption
    | apply lookup_insert_eq
    | rewrite lookup_insert_ne by (first [done | congruence]); solve_lookup
    | eexists; solve_lookup ].

Ltac wp_step :=
  lazymatch goal with
  | |- wp (mbind _ _) _ _ => apply wp_bind
  | |- wp (mret _) _ _ => apply wp_ret
  | |- wp (alloc _) _ _ => apply wp_alloc; intros ? ?
  | |- wp (get_prop (VRef _) _) _ _ => apply wp_get_prop; [solve_lookup|]
  | |- wp (set_prop (VRef _) _ _) _ _ =>
      eapply wp_set_prop; [solve_lookup|]; rewrite ?insert_insert_eq
  | |- wp (push (VRef _) _) _ _ =>
      eapply wp_push; [solve_lookup|]; rewrite ?insert_insert_eq
  | |- wp (gets _) _ _ => apply wp_gets
  | |- wp (test _) _ _ => apply wp_test
  end.

(** The new Input of [set_all_from] sits at a location the heap did not
    use, and holds [input_props_from]. *)
Lemma wp_set_all_from ls h Q :
  is_Some (h !! ls) →
  (∀ l, l ∉ dom h →
     Q (VRef l) (<[l := Obj CInput (input_props_from h (VRef ls))]> h)) →
  wp (Input.set_all_from (VRef ls)) h Q.
Proof.
  intros Hls HQ. unfold Input.set_all_from, Input.new.
  do 2 wp_step. wp_step. rename H into Hl.
  apply not_elem_of_dom in Hl as Hnone.
  do 5 wp_step.
  apply (wp_offer Input_setId ls "_id" l _ (Some (VStr ""))); [done..|].
  apply (wp_offer Input_setValue ls "_value" l _ (Some (VStr ""))); [done..|].
  apply (wp_offer Input_setAccept ls "_accept" l _ None); [done..|].
  apply (wp_offer Input_setRequired ls "_required" l _ None); [done..|].
  apply (wp_offer Input_setLabel ls "_label" l _ None); [done..|].
  apply (wp_offer Input_setHidden ls "_hidden" l _ None); [done..|].
  apply (wp_offer Input_setReadonly ls "_readonly" l _ None); [done..|].
  apply (wp_offer Input_setValueOptions ls "_options" l _ None); [done..|].
  apply (wp_offer_last Input_setRegExp ls "_regexp" l _ None); [done..|].
  exact (HQ l Hl).
Qed.

Lemma undefined_or_true shape v :
  undefined_or shape v = true → v = VUndef ∨ shape v = true.
Proof. unfold undefined_or. destruct v; simpl; auto. Qed.

Lemma input_props_from_inv h v :
  input_shape h v = true →
  Forall (λ k, default VUndef (input_props_from h v !! k) = prop h v k)
    input_fields.
Proof.
  unfold input_shape. intros H.
  repeat (apply andb_prop in H as [H ?]).
  repeat match goal with
  | H : undefined_or _ _ = true |- _ => apply undefined_or_true in H
  end.
  unfold input_props_from.
  repeat apply Forall_cons_2; [..|apply Forall_nil_2];
    match goal with
    | |- default VUndef (?m !! ?k) = _ =>
        let x := fresh in
        evar (x : val);
        replace (m !! k) with (Some x) by (subst x; reflexivity); subst x
    end; simpl.
  - by rewrite H.
  - by destruct (prop h v "_value").
  - by destruct H6 as [->| ->].
  - by destruct H5 as [->| ->].
  - by destruct H4 as [->| ->].
  - by destruct H3 as [->| ->].
  - by destruct H2 as [->| ->].
  - by destruct H1 as [->| ->].
  - by destruct H0 as [->| ->].
Qed.

Lemma wp_Input_new id value h Q :
  (∀ l, l ∉ dom h →
     Q (VRef l)
       (<[l := Obj CInput
                 (<["_value" := if negb (typeof value =? "undefined")
                                then value else VStr ""]>
                    (<["_id" := if typeof id =? "string"
                                then id else VStr ""]> ∅))]> h)) →
  wp (Input.new id value) h Q.
Proof.
  intros HQ. unfold Input.new. repeat wp_step. by apply HQ.
Qed.

Lemma wp_Input_toJSON l h Q :
  is_Some (h !! l) →
  (∀ p, p ∉ dom h →
     Q (VRef p)
       (<[p := Obj CObject
                 (list_to_map ((λ k, (k, prop h (VRef l) k)) <$> input_fields))]>
          h)) →
  wp (Input.toJSON (VRef l)) h Q.
Proof.
  intros Hl HQ. unfold Input.toJSON. repeat wp_step. by apply HQ.
Qed.

Lemma wp_Input_revive l h Q :
  is_Some (h !! l) →
  typeof (prop h (VRef l) "_id") = "string" →
  prop h (VRef l) "_value" ≠ VUndef →
  (∀ r, r ∉ dom h →
     Q (VRef r) (<[r := Obj CInput (input_props_from h (VRef l))]> h)) →
  wp (Input.revive (VRef l)) h Q.
Proof.
  intros Hl Hid Hval HQ. unfold Input.revive, Input.canRevive.
  change (is_object (VRef l)) with true. cbv iota.
  repeat wp_step. rewrite Hid.
  replace (typeof (prop h (VRef l) "_value") =? "undefined") with false
    by (by destruct (prop h (VRef l) "_value")).
  simpl. by apply wp_set_all_from.
Qed.

(** C9.  For a string [id] and a defined [value], the Input made by
    [input(id, value)], serialised by [toJSON] and revived by
    [input.revive] comes back as a new Input whose nine fields equal those
    of the original. *)
Theorem input_roundtrip (h : heap) (id : string) (value : val) :
  value ≠ VUndef →
  wp (Input.input (VStr id) value) h (λ i h1,
    wp (Input.toJSON i) h1 (λ plain h2,
      wp (Input.revive plain) h2 (λ r h3,
        Input.isPrototypeOf h3 r = true
        ∧ r ≠ i
        ∧ same_input_fields h3 r h1 i
        ∧ same_input_fields h3 r h3 i
        ∧ prop h3 r "_id" = VStr id
        ∧ prop h3 r "_value" = value))).
Proof.
  intros Hval. unfold Input.input.
  apply wp_Input_new. intros i Hi.
  replace (negb (typeof value =? "undefined")) with true
    by (by destruct value).
  simpl.
  set (ps := <["_value" := value]> (<["_id" := VStr id]> ∅)).
  set (h1 := <[i := Obj CInput ps]> h).
  assert (∀ k, prop h1 (VRef i) k = default VUndef (ps !! k)) as Hi1
    by (intros k; apply prop_insert_eq).
  apply wp_Input_toJSON; [eexists; apply lookup_insert_eq|].
  intros p Hp.
  set (h2 := <[p := _]> h1).
  assert (p ≠ i) as Hpi.
  { intros ->. apply Hp, elem_of_dom. eexists. apply lookup_insert_eq. }
  assert (Forall (λ k, prop h2 (VRef p) k = prop h1 (VRef i) k) input_fields)
    as Hplain.
  { unfold input_fields.
    repeat apply Forall_cons_2; [..|apply Forall_nil_2];
      apply prop_insert_eq. }
  assert (input_shape h2 (VRef p) = true
          ∧ typeof (prop h2 (VRef p) "_id") = "string"
          ∧ prop h2 (VRef p) "_value" ≠ VUndef) as (Hshape & Hid2 & Hval2).
  { pose proof Hplain as Hall. unfold input_fields in Hall.
    repeat (apply Forall_cons_1 in Hall as [? Hall]).
    unfold input_shape.
    repeat match goal with H : prop h2 _ _ = _ |- _ => rewrite H; clear H end.
    rewrite !Hi1. change (default VUndef (ps !! "_value")) with value.
    by destruct value. }
  apply wp_Input_revive; [eexists; apply lookup_insert_eq|done..|].
  intros r Hr.
  set (h3 := <[r := _]> h2).
  assert (r ≠ i) as Hri.
  { intros ->. apply Hr, elem_of_dom. eexists. unfold h2.
    rewrite lookup_insert_ne by done. apply lookup_insert_eq. }
  assert (∀ k, prop h3 (VRef i) k = prop h1 (VRef i) k) as Hi3.
  { intros k. subst h3 h2. by rewrite !prop_insert_ne. }
  assert (same_input_fields h3 (VRef r) h1 (VRef i)) as Hsame.
  { unfold same_input_fields.
    pose proof (input_props_from_inv h2 (VRef p) Hshape) as Hfrom.
    rewrite Forall_forall in Hfrom, Hplain. apply Forall_forall.
    intros k Hk. unfold h3.
    by rewrite prop_insert_eq, Hfrom, Hplain. }
  split; [|split; [|split; [|split; [|split]]]].
  - unfold Input.isPrototypeOf, instanceOf. subst h3.
    by rewrite lookup_insert_eq.
  - congruence.
  - done.
  - eapply Forall_impl; [exact Hsame|]. intros k Hk. simpl in *.
    by rewrite Hi3.
  - apply Forall_cons_1 in Hsame as [-> _]. by rewrite Hi1.
  - apply Forall_cons_1 in Hsame as [_ Hsame].
    apply Forall_cons_1 in Hsame as [-> _]. by rewrite Hi1.
Qed.

Lemma input_roundtrip_witness :
  wp (Input.input (VStr "q") (VNum 7)) ∅ (λ i h1,
    wp (Input.toJSON i) h1 (λ plain h2,
      wp (Input.revive plain) h2 (λ r h3,
        Input.isPrototypeOf h3 r = true
        ∧ r ≠ i
        ∧ same_input_fields h3 r h1 i
        ∧ same_input_fields h3 r h3 i
        ∧ prop h3 r "_id" = VStr "q"
        ∧ prop h3 r "_value" = VNum 7))).
Proof. apply (input_roundtrip ∅ "q" (VNum 7)). discriminate. Defined.

(** ** Invariants are kept step by step *)

Lemma inv_ret {A} I (a : A) (V : A → Prop) : V a → inv I (mret a) V.
Proof. intros HV h HI. split; [done|]. intros a' [= <-]. done. Qed.

Lemma inv_bind {A B} I (m : M A) (f : A → M B) (V : A → Prop) (W : B → Prop) :
  inv I m V → (∀ a, V a → inv I (f a) W) → inv I (m ≫= f) W.
Proof.
  intros Hm Hf h HI. specialize (Hm h HI) as [HI' HV].
  unfold mbind, M_bind. destruct (m h) as [h' [a|e|v|step|]]; simpl in *;
    [|by split..].
  by apply Hf; [apply HV|].
Qed.

Lemma inv_weaken {A} I (m : M A) (V V' : A → Prop) :
  inv I m V → (∀ a, V a → V' a) → inv I m V'.
Proof. intros Hm HV h HI. destruct (Hm h HI). naive_solver. Qed.

Lemma inv_throw {A} I msg (V : A → Prop) : inv I (throw msg) V.
Proof. intros h HI. by split. Qed.

Lemma inv_out_of_fuel {A} I (V : A → Prop) : inv I out_of_fuel V.
Proof. intros h HI. by split. Qed.

Lemma inv_gets {A} I (f : heap → A) : inv I (gets f) (λ _, True).
Proof. intros h HI. by split. Qed.

Lemma inv_test I (f : heap → bool) : inv I (test f) (λ _, True).
Proof. intros h HI. by split. Qed.

Lemma inv_get_prop I v k : inv I (get_prop v k) (λ _, True).
Proof.
  intros h HI. unfold get_prop.
  destruct v; try by split. by destruct (h !! l).
Qed.








Lemma inv_if {A} I (b : bool) (m1 m2 : M A) V :
  inv I m1 V → inv I m2 V → inv I (if b then m1 else m2) V.
Proof. by destruct b. Qed.

(** ** Affordance: construction and the message table *)









Ltac inv_go :=
  repeat first
    [ apply inv_ret; done
    | apply inv_throw
    | apply inv_gets
    | apply inv_test
    | apply inv_get_prop
    | apply inv_if
    | eapply inv_bind; [|intros ? ?] ].


(** A new Affordance, its message table and the list [[id]] under ['*'] are
    three objects the heap did not hold. *)
Lemma wp_Affordance_new id method uri h Q :
  (∀ l ls lm,
     l ∉ dom h → ls ∉ dom h → lm ∉ dom h → l ≠ ls → l ≠ lm → ls ≠ lm →
     Q (VRef l)
       (<[l := Obj CAffordance
                 (<["_messages" := VRef lm]>
                 (<["_uri" := string_or_empty uri]>
                 (<["_method" := string_or_empty method]>
                 (<["_id" := string_or_empty id]> ∅))))]>
        (<[lm := Obj CObject (<["*" := VRef ls]> ∅)]>
        (<[ls := Arr [string_or_empty id]]> h)))) →
  wp (Affordance.new id method uri) h Q.
Proof.
  intros HQ. unfold Affordance.new.
  wp_step. wp_step. rename H into Hl.
  do 7 wp_step.
  eapply (wp_get_prop_obj _ _ _ _ (string_or_empty id));
    [apply lookup_insert_eq|reflexivity|].
  wp_step. wp_step. rename l0 into ls, H into Hls.
  wp_step. wp_step. rename l0 into lm, H into Hlm.
  assert (ls ≠ l) as Hlsl.
  { intros ->. apply Hls, elem_of_dom. eexists. apply lookup_insert_eq. }
  assert (lm ≠ ls) as Hlmls.
  { intros ->. apply Hlm, elem_of_dom. eexists. apply lookup_insert_eq. }
  assert (lm ≠ l) as Hlml.
  { intros ->. apply Hlm, elem_of_dom. eexists.
    rewrite lookup_insert_ne by done. apply lookup_insert_eq. }
  wp_step. wp_step. wp_step.
  match goal with |- Q _ ?hx =>
    replace hx with
      (<[l := Obj CAffordance
                (<["_messages" := VRef lm]>
                (<["_uri" := string_or_empty uri]>
                (<["_method" := string_or_empty method]>
                (<["_id" := string_or_empty id]> ∅))))]>
       (<[lm := Obj CObject (<["*" := VRef ls]> ∅)]>
       (<[ls := Arr [string_or_empty id]]> h)))
  end.
  - apply HQ; try done.
    + intros Hin. apply Hls. rewrite dom_insert_L. set_solver.
    + intros Hin. apply Hlm. rewrite !dom_insert_L. set_solver.
  - apply map_eq. intros j.
    destruct (decide (j = l)) as [->|?];
      [by rewrite !lookup_insert_eq|].
    rewrite !(lookup_insert_ne _ l) by done.
    destruct (decide (j = lm)) as [->|?];
      [by rewrite !lookup_insert_eq|].
    rewrite !(lookup_insert_ne _ lm) by done.
    destruct (decide (j = ls)) as [->|?];
      [by rewrite !lookup_insert_eq|].
    rewrite !(lookup_insert_ne _ ls) by done.
    by rewrite lookup_insert_ne.
Qed.

(** The loop of [addMessage] over the ids leaves early exactly when some
    entry is not a string. *)
Lemma for_until_strings (out : val) ids h :
  for_until
    (λ id : val, if negb (typeof id =? "string")
                 then mret (Some out) else mret None) ids h
  = (h, Val (if forallb (λ id, typeof id =? "string") ids
             then None else Some out)).
Proof.
  induction ids as [|id ids IH]; [done|]. simpl.
  unfold mbind, M_bind. destruct (typeof id =? "string"); simpl; [|done].
  apply IH.
Qed.

(** What [addMessage] does: with a string code and a non-empty array of
    strings, it assigns the array to the table under the code, which
    writes one entry of the table, or, for the code [__proto__] when the
    table has no entry of that name, replaces the prototype of the table;
    otherwise nothing is written. *)
Lemma addMessage_run l lm ps pm response message h :
  h !! l = Some (Obj CAffordance ps) →
  ps !! "_messages" = Some (VRef lm) →
  h !! lm = Some (Obj CObject pm) →
  Affordance.addMessage (VRef l) response message h
  = match response with
    | VStr code =>
        if valid_id_list h message then
          if (code =? "__proto__") && bool_decide (pm !! code = None)
          then (h, Beyond (SetPrototypeOf (VRef lm) message))
          else (<[lm := Obj CObject (<[code := message]> pm)]> h,
                Val (VRef l))
        else (h, Val (VRef l))
    | _ => (h, Val (VRef l))
    end.
Proof.
  intros Hl Hm Hlm. unfold Affordance.addMessage.
  unfold mbind at 1, M_bind at 1. unfold get_prop at 1. rewrite Hl. simpl.
  rewrite Hm. simpl.
  unfold mbind at 1, M_bind at 1. unfold test, gets. simpl.
  unfold valid_id_list, is_nonempty_array.
  destruct (typeof response =? "string") eqn:Hr; simpl;
    [|by destruct response].
  destruct (array_elems h message) as [[|x xs]|] eqn:Hxs;
    [by destruct response| |by destruct response].
  unfold mbind at 1, M_bind at 1. simpl. rewrite Hxs.
  cbn [default from_option].
  unfold mbind at 1, M_bind at 1. rewrite for_until_strings.
  simpl forallb.
  destruct ((typeof x =? "string")
            && forallb (λ id, typeof id =? "string") xs) eqn:Hall; simpl;
    rewrite ?Hall.
  - destruct response as [| | | |code| |]; try done. simpl.
    unfold mbind, M_bind, assign. rewrite Hlm.
    destruct ((code =? "__proto__") && bool_decide (pm !! code = None)).
    + by destruct message.
    + unfold set_prop. by rewrite Hlm.
  - by destruct response.
Qed.



(** [a.addMessage('__proto__', ['a'])] on a new Affordance: the message
    table (at location 3) gets no entry; the call is at the step that makes
    the array its prototype. *)
Example addMessage_proto :
  Affordance.addMessage (VRef 1%positive) (VStr "__proto__")
    (VRef 4%positive) heap_with_ids
  = (heap_with_ids,
     Beyond (SetPrototypeOf (VRef 3%positive) (VRef 4%positive))).
Proof. vm_compute. reflexivity. Qed.

(** ** Reading a heap that has grown *)

Lemma prop_mono h h1 l k :
  h ⊆ h1 → is_Some (h !! l) → prop h1 (VRef l) k = prop h (VRef l) k.
Proof.
  intros Hsub [o Ho]. unfold prop.
  by rewrite Ho, (lookup_weaken _ _ _ _ Ho Hsub).
Qed.

Lemma class_of_mono h h1 v c :
  h ⊆ h1 → class_of h v = Some c → class_of h1 v = Some c.
Proof.
  intros Hsub. destruct v; try done. simpl.
  destruct (h !! l) as [o|] eqn:Ho; [|done].
  by rewrite (lookup_weaken _ _ _ _ Ho Hsub).
Qed.

Lemma instanceOf_class c h v :
  instanceOf c h v = true ↔ class_of h v = Some c.
Proof.
  destruct v; try done. simpl. destruct (h !! l) as [[c' ps|]|]; try done.
  rewrite bool_decide_eq_true. naive_solver.
Qed.

Lemma instanceOf_live c h v :
  instanceOf c h v = true → ∃ l ps, v = VRef l ∧ h !! l = Some (Obj c ps).
Proof.
  destruct v; try done. simpl.
  destruct (h !! l) as [[c' ps|]|] eqn:Hl; try done.
  intros ->%bool_decide_eq_true. eauto.
Qed.

Lemma instanceOf_mono c h h1 v :
  h ⊆ h1 → instanceOf c h v = true → instanceOf c h1 v = true.
Proof. rewrite !instanceOf_class. apply class_of_mono. Qed.

Lemma array_elems_mono h h1 v xs :
  h ⊆ h1 → array_elems h v = Some xs → array_elems h1 v = Some xs.
Proof.
  intros Hsub. destruct v; try done. simpl.
  destruct (h !! l) as [o|] eqn:Ho; [|done].
  by rewrite (lookup_weaken _ _ _ _ Ho Hsub).
Qed.

Lemma is_nonempty_array_mono h h1 v :
  h ⊆ h1 → is_nonempty_array h v = true → is_nonempty_array h1 v = true.
Proof.
  intros Hsub. unfold is_nonempty_array.
  destruct (array_elems h v) as [xs|] eqn:Hxs; [|done].
  by rewrite (array_elems_mono _ _ _ _ Hsub Hxs).
Qed.

Lemma live_object_mono h h1 v :
  h ⊆ h1 → live_object h v = true → live_object h1 v = true.
Proof.
  intros Hsub. destruct v; try done. simpl.
  rewrite !bool_decide_eq_true. intros [o Ho].
  exists o. by eapply lookup_weaken.
Qed.

Lemma undefined_or_mono (P P' : val → bool) v :
  (P v = true → P' v = true) →
  undefined_or P v = true → undefined_or P' v = true.
Proof. unfold undefined_or. destruct (typeof v =? "undefined"); auto. Qed.

(** An optional array field reads the same in the larger heap. *)
Lemma optional_array_mono h h1 v :
  h ⊆ h1 → undefined_or (is_nonempty_array h) v = true →
  is_nonempty_array h1 v = is_nonempty_array h v.
Proof.
  intros Hsub [->|Hv]%undefined_or_true; [done|].
  by rewrite Hv, (is_nonempty_array_mono _ _ _ Hsub Hv).
Qed.

Lemma input_ok_mono h h1 v :
  h ⊆ h1 → input_ok h v = true →
  input_ok h1 v = true
  ∧ input_props_from h1 v = input_props_from h v
  ∧ ∀ k, prop h1 v k = prop h v k.
Proof.
  intros Hsub [Hin Hshape]%andb_prop.
  destruct (instanceOf_live _ _ _ Hin) as (l & ps & -> & Hl).
  assert (∀ k, prop h1 (VRef l) k = prop h (VRef l) k) as Hp
    by (intros; apply prop_mono; eauto).
  unfold input_shape in Hshape.
  repeat (apply andb_prop in Hshape as [Hshape ?]).
  assert (is_nonempty_array h1 (prop h (VRef l) "_accept")
          = is_nonempty_array h (prop h (VRef l) "_accept")) as Hacc
    by (by apply optional_array_mono).
  assert (is_nonempty_array h1 (prop h (VRef l) "_options")
          = is_nonempty_array h (prop h (VRef l) "_options")) as Hopt
    by (by apply optional_array_mono).
  split; [|split; [|done]].
  - unfold input_ok, input_shape. rewrite !Hp.
    rewrite (instanceOf_mono _ _ _ _ Hsub Hin).
    unfold undefined_or in *. rewrite Hacc, Hopt.
    repeat (apply andb_true_intro; split); done.
  - unfold input_props_from. rewrite !Hp. by rewrite Hacc, Hopt.
Qed.

Lemma controls_ok_mono h h1 v :
  h ⊆ h1 → controls_ok h v = true →
  controls_ok h1 v = true ∧ array_elems h1 v = array_elems h v.
Proof.
  intros Hsub. unfold controls_ok.
  destruct (array_elems h v) as [xs|] eqn:Hxs; [|done].
  rewrite (array_elems_mono _ _ _ _ Hsub Hxs). intros Hall.
  split; [|done]. rewrite forallb_forall in Hall. apply forallb_forall.
  intros x Hx. by apply (input_ok_mono h h1 x Hsub), Hall.
Qed.

Lemma affordance_ok_mono h h1 v :
  h ⊆ h1 → affordance_ok h v = true → affordance_ok h1 v = true.
Proof.
  intros Hsub. unfold affordance_ok. intros H.
  repeat (apply andb_prop in H as [H ?]).
  destruct (instanceOf_live _ _ _ H) as (l & ps & -> & Hl).
  rewrite !(prop_mono h h1 l) by eauto.
  rewrite (instanceOf_mono _ _ _ _ Hsub H).
  repeat (apply andb_true_intro; split); try done.
  - eapply undefined_or_mono; [|done]. by apply live_object_mono.
  - eapply undefined_or_mono; [|done]. intros Hc.
    by apply (controls_ok_mono h h1).
Qed.

Lemma affordances_ok_mono h h1 v :
  h ⊆ h1 → affordances_ok h v = true → affordances_ok h1 v = true.
Proof.
  intros Hsub. unfold affordances_ok. intros H.
  repeat (apply andb_prop in H as [H ?]).
  destruct (instanceOf_live _ _ _ H) as (l & ps & -> & Hl).
  rewrite !(prop_mono h h1 l) by eauto.
  rewrite (instanceOf_mono _ _ _ _ Hsub H).
  repeat (apply andb_true_intro; split); try done.
  eapply undefined_or_mono; [|done]. by apply live_object_mono.
Qed.

(** ** Trees *)

Lemma tree_ind_kids (P : tree → Prop) :
  (∀ l, P (Leaf l)) →
  (∀ l kids, Forall P kids → P (Node l kids)) →
  ∀ t, P t.
Proof.
  intros Hleaf Hnode. fix IH 1. intros [l|l kids].
  - apply Hleaf.
  - apply Hnode. induction kids as [|k kids IHk]; constructor; [apply IH|done].
Qed.

Lemma wf_tree_node h l kids :
  wf_tree h (Node l kids) = true ↔
  affordances_ok h (VRef l) = true
  ∧ array_elems h (prop h (VRef l) "_affordances")
    = Some ((λ k, VRef (root k)) <$> kids)
  ∧ Forall (λ k, wf_tree h k = true) kids.
Proof.
  simpl. rewrite !andb_true_iff, bool_decide_eq_true, forallb_forall.
  rewrite Forall_forall. setoid_rewrite list_elem_of_In. naive_solver.
Qed.

Lemma wf_tree_root_live h t : wf_tree h t = true → is_Some (h !! root t).
Proof.
  destruct t as [l|l kids].
  - simpl. unfold affordance_ok. intros H.
    repeat (apply andb_prop in H as [H ?]).
    destruct (instanceOf_live _ _ _ H) as (? & ? & [= <-] & ?). eauto.
  - intros (H & _)%wf_tree_node. unfold affordances_ok in H.
    repeat (apply andb_prop in H as [H ?]).
    destruct (instanceOf_live _ _ _ H) as (? & ? & [= <-] & ?). eauto.
Qed.

Lemma wf_tree_mono h h1 t :
  h ⊆ h1 → wf_tree h t = true → wf_tree h1 t = true.
Proof.
  intros Hsub. induction t as [l|l kids IH] using tree_ind_kids.
  - apply affordance_ok_mono; done.
  - rewrite !wf_tree_node. intros (Hok & Harr & Hkids).
    assert (is_Some (h !! l)) as Hl.
    { apply (wf_tree_root_live h (Node l kids)). by apply wf_tree_node. }
    split; [by eapply affordances_ok_mono|]. split.
    + rewrite (prop_mono h h1) by done. by eapply array_elems_mono.
    + rewrite Forall_forall in IH, Hkids. apply Forall_forall.
      intros k Hk. by apply IH, Hkids.
Qed.

(** ** Loops *)

(** A loop keeps an invariant that speaks of the elements done so far. *)
Lemma wp_for_each_from {A} (body : A → M ()) (pre xs : list A)
    (I : list A → heap → Prop) h Q :
  I pre h →
  (∀ (dn : list A) (x : A) (rest : list A) h1,
     pre ++ xs = dn ++ x :: rest → I dn h1 →
     wp (body x) h1 (λ _ h2, I (dn ++ [x]) h2)) →
  (∀ h', I (pre ++ xs) h' → Q () h') →
  wp (for_each body xs) h Q.
Proof.
  revert pre h. induction xs as [|x xs IH]; intros pre h HI Hbody HQ; simpl.
  - apply wp_ret, HQ. by rewrite app_nil_r.
  - apply wp_bind. eapply wp_mono; [by eapply (Hbody pre x xs)|].
    intros [] h2 HI2. apply (IH (pre ++ [x])); [done| |].
    + intros dn y rest h1 Heq. apply (Hbody dn y rest).
      by rewrite <- Heq, <- app_assoc.
    + intros h' HI'. apply HQ. by rewrite <- app_assoc in HI'.
Qed.

Lemma wp_for_each {A} (body : A → M ()) (xs : list A)
    (I : list A → heap → Prop) h Q :
  I [] h →
  (∀ (dn : list A) (x : A) (rest : list A) h1,
     xs = dn ++ x :: rest → I dn h1 →
     wp (body x) h1 (λ _ h2, I (dn ++ [x]) h2)) →
  (∀ h', I xs h' → Q () h') →
  wp (for_each body xs) h Q.
Proof. intros. by eapply (wp_for_each_from body [] xs I). Qed.

Lemma wpo_for_each_from {A} (body : A → M ()) (pre xs : list A)
    (I : list A → heap → Prop) h Q E :
  I pre h →
  (∀ (dn : list A) (x : A) (rest : list A) h1,
     pre ++ xs = dn ++ x :: rest → I dn h1 →
     wpo (body x) h1 (λ _ h2, I (dn ++ [x]) h2) E) →
  (∀ h', I (pre ++ xs) h' → Q () h') →
  wpo (for_each body xs) h Q E.
Proof.
  revert pre h. induction xs as [|x xs IH]; intros pre h HI Hbody HQ; simpl.
  - apply wpo_ret, HQ. by rewrite app_nil_r.
  - apply wpo_bind.
    eapply wpo_mono; [by eapply (Hbody pre x xs)| |done].
    intros [] h2 HI2. apply (IH (pre ++ [x])); [done| |].
    + intros dn y rest h1 Heq. apply (Hbody dn y rest).
      by rewrite <- Heq, <- app_assoc.
    + intros h' HI'. apply HQ. by rewrite <- app_assoc in HI'.
Qed.

Lemma wpo_for_each {A} (body : A → M ()) (xs : list A)
    (I : list A → heap → Prop) h Q E :
  I [] h →
  (∀ (dn : list A) (x : A) (rest : list A) h1,
     xs = dn ++ x :: rest → I dn h1 →
     wpo (body x) h1 (λ _ h2, I (dn ++ [x]) h2) E) →
  (∀ h', I xs h' → Q () h') →
  wpo (for_each body xs) h Q E.
Proof. intros. by eapply (wpo_for_each_from body [] xs I). Qed.

(** ** Building an Affordance: [addInput] *)

Lemma instanceOf_insert_other c h l o v :
  h !! l = None → (∀ ps, o ≠ Obj c ps) →
  instanceOf c (<[l := o]> h) v = instanceOf c h v.
Proof.
  intros Hl Ho. destruct v; try done. simpl.
  destruct (decide (l = l0)) as [<-|Hne].
  - rewrite lookup_insert_eq, Hl. destruct o as [c' ps|]; [|done].
    apply bool_decide_eq_false. intros ->. by eapply Ho.
  - by rewrite lookup_insert_ne.
Qed.

Lemma instanceOf_set_prop c h l c' ps ps' v :
  h !! l = Some (Obj c' ps) →
  instanceOf c (<[l := Obj c' ps']> h) v = instanceOf c h v.
Proof.
  intros Hl. destruct v; try done. simpl.
  destruct (decide (l = l0)) as [<-|Hne].
  - by rewrite lookup_insert_eq, Hl.
  - by rewrite lookup_insert_ne.
Qed.

Lemma wp_addInput l c ps0 ola xs control h Q :
  ps0 !! "_controls" = None →
  building h l c ps0 ola xs →
  (∀ h' la,
     (ola = None → la ∉ dom h) →
     (∀ la0, ola = Some la0 → la = la0) →
     la ≠ l →
     building h' l c ps0 (Some la)
       (if Input.isPrototypeOf h control && not_in_array control xs
        then xs ++ [control] else xs) →
     (∀ l', l' ≠ l → l' ≠ la → h' !! l' = h !! l') →
     Q (VRef l) h') →
  wp (Affordance.addInput (VRef l) control) h Q.
Proof.
  intros Hps0 Hb HQ. unfold Affordance.addInput.
  destruct ola as [la|]; simpl in Hb.
  - destruct Hb as [Hl Hla].
    assert (la ≠ l) as Hne by (intros ->; congruence).
    apply wp_bind.
    eapply (wp_get_prop_obj _ _ _ _ (VRef la)); [done|by rewrite lookup_insert_eq|].
    simpl. wp_step. wp_step. wp_step. wp_step.
    apply wp_bind.
    assert (array_elems h (VRef la) = Some xs) as Hxs by (simpl; by rewrite Hla).
    unfold Input.isPrototypeOf in *.
    destruct (instanceOf CInput h control) eqn:Hin; simpl.
    + wp_step. wp_step. rewrite Hla.
      destruct (not_in_array control xs) eqn:Hnot.
      * wp_step. wp_step. apply (HQ _ la); try done.
        -- intros ? [= <-]. done.
        -- split; [by rewrite lookup_insert_ne|by rewrite lookup_insert_eq].
        -- intros l' _ Hl'. by rewrite lookup_insert_ne.
      * wp_step. wp_step. apply (HQ _ la); try done.
        intros ? [= <-]. done.
    + wp_step. wp_step. apply (HQ _ la); try done.
      intros ? [= <-]. done.
  - destruct Hb as [-> Hl].
    apply wp_bind.
    eapply (wp_get_prop_obj _ _ _ _ VUndef); [done|by rewrite Hps0|].
    simpl. wp_step. wp_step. wp_step. rename l0 into la, H into Hla.
    assert (la ≠ l) as Hne.
    { intros ->. by apply Hla, elem_of_dom. }
    apply not_elem_of_dom in Hla as Hnone.
    wp_step. wp_step. wp_step. wp_step. wp_step.
    unfold Input.isPrototypeOf in *.
    rewrite (instanceOf_set_prop _ _ _ c ps0)
      by (by rewrite lookup_insert_ne).
    rewrite instanceOf_insert_other by done.
    apply wp_bind.
    destruct (instanceOf CInput h control) eqn:Hin; simpl.
    + wp_step. wp_step. simpl.
      rewrite lookup_insert_ne by done. rewrite lookup_insert_eq.
      simpl. wp_step. wp_step. apply (HQ _ la); try done.
      * split; [by rewrite lookup_insert_ne, lookup_insert_eq|].
        by rewrite lookup_insert_eq.
      * intros l' Hl' Hl'a. by rewrite !lookup_insert_ne.
    + wp_step. wp_step. apply (HQ _ la); try done.
      * split; [by rewrite lookup_insert_eq|].
        rewrite lookup_insert_ne by done. by rewrite lookup_insert_eq.
      * intros l' Hl' Hl'a. by rewrite !lookup_insert_ne.
Qed.

(** ** Copying an Affordance *)

Lemma undefined_or_controls h v :
  undefined_or (controls_ok h) v = true →
  (v = VUndef ∧ array_elems h v = None)
  ∨ (∃ xs, array_elems h v = Some xs ∧ forallb (input_ok h) xs = true).
Proof.
  intros [->|Hc]%undefined_or_true; [by left|]. right.
  unfold controls_ok in Hc. destruct (array_elems h v) as [xs|]; [|done].
  by exists xs.
Qed.

Lemma array_elems_fresh h h1 v :
  h ⊆ h1 →
  (v = VUndef ∨ is_Some (array_elems h v)) →
  array_elems h1 v = array_elems h v.
Proof.
  intros Hsub [->|[xs Hxs]]; [done|].
  by rewrite Hxs, (array_elems_mono _ _ _ _ Hsub Hxs).
Qed.

Lemma wp_Affordance_copy (call : val → M val) l h Q :
  affordance_ok h (VRef l) = true →
  (∀ x h1 Q', h ⊆ h1 → x ∈ inputs_of h (VRef l) →
     (∀ li', li' ∉ dom h1 →
        Q' (VRef li') (<[li' := Obj CInput (input_props_from h1 x)]> h1)) →
     wp (call x) h1 Q') →
  (∀ h' l', h ⊆ h' → l' ∉ dom h → leaf_copy_of h (h' ∖ h) l l' →
     Q (VRef l') h') →
  wp (Affordance.copy call (VRef l)) h Q.
Proof.
  intros Hok Hcall HQ.
  pose proof Hok as Hok'. unfold affordance_ok in Hok'.
  repeat (apply andb_prop in Hok' as [Hok' ?]).
  destruct (instanceOf_live _ _ _ Hok') as (? & ps & [= <-] & Hl).
  assert (is_Some (h !! l)) as Hlive by eauto.
  unfold Affordance.copy.
  do 3 (apply wp_bind, wp_get_prop; [done|]).
  apply wp_bind, wp_Affordance_new.
  intros l' ls lm Hl' Hls Hlm Hl'ls Hl'lm Hlslm.
  assert (l ≠ l') as Hll' by (intros ->; by apply Hl', elem_of_dom).
  assert (l ≠ lm) as Hllm by (intros ->; by apply Hlm, elem_of_dom).
  assert (l ≠ ls) as Hlls by (intros ->; by apply Hls, elem_of_dom).
  apply not_elem_of_dom in Hl' as Hl'n, Hls as Hlsn, Hlm as Hlmn.
  set (id' := string_or_empty (prop h (VRef l) "_id")).
  set (hb := <[lm := Obj CObject (<["*" := VRef ls]> ∅)]>
               (<[ls := Arr [id']]> h)).
  assert (h ⊆ hb) as Hhb.
  { unfold hb. apply insert_subseteq_r; [done|].
    by apply insert_subseteq. }
  assert (hb !! l' = None) as Hbl'.
  { unfold hb. by rewrite !lookup_insert_ne. }
  assert (∀ o k, prop (<[l' := o]> hb) (VRef l) k = prop h (VRef l) k) as Hp.
  { intros o k. rewrite prop_insert_ne by done. by apply prop_mono. }
  assert (∀ o, is_Some (<[l' := o]> hb !! l)) as Hl1.
  { intros o. exists (Obj CAffordance ps).
    rewrite lookup_insert_ne by done. by eapply lookup_weaken. }
  apply wp_bind, wp_get_prop; [done|]. rewrite Hp.
  apply wp_bind.
  eapply (wp_call_setter Affordance_setRelation); [apply lookup_insert_eq|].
  rewrite insert_insert_eq.
  apply wp_bind, wp_get_prop; [done|]. rewrite Hp.
  apply wp_bind.
  eapply (wp_call_setter Affordance_setMetadata); [apply lookup_insert_eq|].
  rewrite insert_insert_eq.
  set (ps0 := (<["_metadata" := keep_object (prop h (VRef l) "_metadata")]>
              (<["_relation" := keep_string (prop h (VRef l) "_relation")]>
              (<["_messages" := VRef lm]>
              (<["_uri" := string_or_empty (prop h (VRef l) "_uri")]>
              (<["_method" := string_or_empty (prop h (VRef l) "_method")]>
              (<["_id" := id']> ∅))))) : gmap string val)).
  match goal with |- wp _ (<[l' := Obj _ ?m]> _) _ =>
    change m with ps0 end.
  set (hs := <[l' := Obj CAffordance ps0]> hb).
  assert (h ⊆ hs) as Hhs.
  { unfold hs. by apply insert_subseteq_r. }
  apply wp_bind, wp_get_prop; [apply Hl1|].
  unfold hs at 1. rewrite Hp. fold hs.
  apply wp_bind, wp_gets.
  assert (array_elems hs (prop h (VRef l) "_controls")
          = array_elems h (prop h (VRef l) "_controls")) as ->.
  { apply array_elems_fresh; [done|].
    match goal with H : undefined_or (controls_ok h) _ = true |- _ =>
      apply undefined_or_controls in H as [[-> _]|(xs & -> & _)] end; eauto. }
  assert (∀ o, o ∈ [Obj CObject (<["*" := VRef ls]> ∅); Arr [id']] → True)
    as _ by done.
  assert (leaf_copy_base :
    ∀ hf ps', h ⊆ hf → hf !! l' = Some (Obj CAffordance ps') →
      hf !! lm = Some (Obj CObject (<["*" := VRef ls]> ∅)) →
      hf !! ls = Some (Arr [id']) →
      (∀ k, k ≠ "_controls" → ps' !! k = ps0 !! k) →
      match inputs_of h (VRef l) with
      | [] => ps' !! "_controls" = None
      | xs => ∃ la xs', ps' !! "_controls" = Some (VRef la)
                        ∧ (hf ∖ h) !! la = Some (Arr xs')
                        ∧ Forall2 (input_copy_of h (hf ∖ h)) xs xs'
      end →
      leaf_copy_of h (hf ∖ h) l l').
  { intros hf ps' Hsub Hfl' Hflm Hfls Hsame Hctl.
    exists ps', lm, ls.
    rewrite !lookup_difference_Some.
    rewrite !Hsame by done. done. }
  destruct (array_elems h (prop h (VRef l) "_controls")) as [xs|] eqn:Hxs.
  2: { (* no inputs array *)
    do 3 wp_step. apply HQ; [done..|].
    apply (leaf_copy_base hs ps0); try done.
    - apply lookup_insert_eq.
    - unfold hs, hb. rewrite lookup_insert_ne by done.
      apply lookup_insert_eq.
    - unfold hs, hb. rewrite !lookup_insert_ne by done.
      apply lookup_insert_eq.
    - unfold inputs_of. by rewrite Hxs. }
  (* the inputs array *)
  assert (forallb (input_ok h) xs = true) as Hinputs.
  { match goal with H : undefined_or (controls_ok h) _ = true |- _ =>
      apply undefined_or_controls in H as [[_ Hn]|(xs0 & Hxs0 & Hall)] end;
      congruence. }
  assert (inputs_of h (VRef l) = xs) as Hin_of
    by (unfold inputs_of; by rewrite Hxs).
  assert (hs !! l' = Some (Obj CAffordance ps0)) as Hsl'
    by apply lookup_insert_eq.
  assert (hs !! lm = Some (Obj CObject (<["*" := VRef ls]> ∅))) as Hslm.
  { unfold hs, hb. rewrite lookup_insert_ne by done. apply lookup_insert_eq. }
  assert (hs !! ls = Some (Arr [id'])) as Hsls.
  { unfold hs, hb. rewrite !lookup_insert_ne by done. apply lookup_insert_eq. }
  assert (ps0 !! "_controls" = None) as Hps0 by reflexivity.
  apply wp_bind.
  apply (wp_for_each _ xs (λ dn hi,
     ∃ ola xs',
       (∀ l2, l2 ≠ l' → is_Some (hs !! l2) → hi !! l2 = hs !! l2)
       ∧ building hi l' CAffordance ps0 ola xs'
       ∧ (∀ la, ola = Some la → hs !! la = None)
       ∧ Forall2 (λ x x', ∃ li' hx,
                    x' = VRef li' ∧ hs !! li' = None ∧ h ⊆ hx
                    ∧ hi !! li' = Some (Obj CInput (input_props_from hx x)))
           dn xs'
       ∧ (dn = [] → ola = None) ∧ (dn ≠ [] → is_Some ola))).
  - exists None, []. repeat split; done.
  - intros dn x rest hi Hxs_eq (ola & xs' & Hold & Hb & Hla & Hcopies & He1 & He2).
    assert (is_Some (hi !! l')) as Hil'.
    { destruct ola; simpl in Hb; destruct Hb as [? ?]; eauto. }
    assert (∀ l2, is_Some (hs !! l2) → is_Some (hi !! l2)) as Hdom.
    { intros l2 Hl2. destruct (decide (l2 = l')) as [->|?]; [done|].
      by rewrite Hold. }
    assert (h ⊆ hi) as Hhi.
    { apply map_subseteq_spec. intros l2 o Hl2.
      assert (l2 ≠ l') by (intros ->; congruence).
      rewrite Hold; [by eapply lookup_weaken|done|].
      exists o. by eapply lookup_weaken. }
    apply wp_bind. apply Hcall; [done| |].
    { rewrite Hin_of, Hxs_eq. apply elem_of_app. right.
      apply list_elem_of_here. }
    intros li' Hli'.
    apply not_elem_of_dom in Hli' as Hli'n.
    assert (hs !! li' = None) as Hsli'.
    { destruct (hs !! li') eqn:E; [|done].
      destruct (Hdom li') as [? ?]; [eauto|congruence]. }
    assert (li' ≠ l') as Hli'l' by (intros ->; destruct Hil'; congruence).
    set (hi1 := <[li' := Obj CInput (input_props_from hi x)]> hi).
    assert (building hi1 l' CAffordance ps0 ola xs') as Hb1.
    { unfold hi1. destruct ola as [la|]; simpl in *.
      - destruct Hb as [Hb1 Hb2]. split.
        + by rewrite lookup_insert_ne.
        + rewrite lookup_insert_ne; [done|]. intros ->. congruence.
      - destruct Hb as [Hb1 Hb2]. split; [done|].
        by rewrite lookup_insert_ne. }
    assert (Input.isPrototypeOf hi1 (VRef li') = true) as Hproto.
    { unfold Input.isPrototypeOf, instanceOf, hi1.
      rewrite lookup_insert_eq. by apply bool_decide_eq_true. }
    assert (not_in_array (VRef li') xs' = true) as Hnotin.
    { unfold not_in_array. apply forallb_forall. intros y Hy.
      apply list_elem_of_In, list_elem_of_lookup_1 in Hy as [j Hj].
      destruct (Forall2_lookup_r _ _ _ _ _ Hcopies Hj)
        as (? & ? & (lj & hx & -> & ? & ? & Hlj)).
      unfold strict_eq. apply negb_true_iff, bool_decide_eq_false.
      intros [= ->]. congruence. }
    apply wp_bind. eapply wp_addInput; [exact Hps0|exact Hb1|].
    intros h' la Hnew Hsame Hlal' Hb' Hframe.
    rewrite Hproto, Hnotin in Hb'. simpl in Hb'.
    wp_step.
    assert (hs !! la = None) as Hsla.
    { destruct ola as [la0|].
      - rewrite (Hsame la0 eq_refl). by apply Hla.
      - destruct (hs !! la) eqn:E; [|done].
        exfalso. apply (Hnew eq_refl). apply elem_of_dom.
        unfold hi1. destruct (decide (la = li')) as [->|?]; [congruence|].
        rewrite lookup_insert_ne by done. apply Hdom. eauto. }
    assert (la ≠ li') as Hlali'.
    { destruct ola as [la0|].
      - rewrite (Hsame la0 eq_refl). simpl in Hb. destruct Hb as [_ Hb].
        intros ->. congruence.
      - intros ->. apply (Hnew eq_refl), elem_of_dom. unfold hi1.
        rewrite lookup_insert_eq. eauto. }
    exists (Some la), (xs' ++ [VRef li']).
    split; [|split; [|split; [|split; [|split]]]].
    + intros l2 Hl2 Hsl2.
      rewrite Hframe; [|done|intros ->; destruct Hsl2; congruence].
      unfold hi1. rewrite lookup_insert_ne; [by apply Hold|].
      intros <-. destruct Hsl2; congruence.
    + done.
    + by intros ? [= <-].
    + apply Forall2_app.
      * eapply Forall2_impl; [exact Hcopies|].
        intros y y' (lj & hx & -> & Hslj & Hhx & Hlj).
        exists lj, hx. repeat split; try done.
        assert (lj ≠ li') by (intros ->; congruence).
        rewrite Hframe.
        -- unfold hi1. by rewrite lookup_insert_ne.
        -- intros ->. congruence.
        -- intros ->. destruct ola as [la0|].
           ++ simpl in Hb. rewrite (Hsame la0 eq_refl) in Hlj.
              destruct Hb as [_ Hb]. congruence.
           ++ apply (Hnew eq_refl), elem_of_dom. unfold hi1.
              rewrite lookup_insert_ne by done. eauto.
      * constructor; [|constructor].
        exists li', hi. repeat split; try done.
        rewrite Hframe by (done || congruence). unfold hi1.
        apply lookup_insert_eq.
    + intros Hnil. by destruct dn.
    + eauto.
  - intros hf (ola & xs' & Hold & Hb & Hla & Hcopies & He1 & He2).
    wp_step.
    assert (h ⊆ hf) as Hhf.
    { apply map_subseteq_spec. intros l2 o Hl2.
      assert (l2 ≠ l') by (intros ->; congruence).
      rewrite Hold; [by eapply lookup_weaken|done|].
      exists o. by eapply lookup_weaken. }
    assert (∀ l2, hs !! l2 = None → h !! l2 = None) as Hnone.
    { intros l2 Hl2. destruct (h !! l2) eqn:E; [|done].
      by rewrite (lookup_weaken _ _ _ _ E Hhs) in Hl2. }
    apply HQ; [done..|].
    destruct ola as [la|]; simpl in Hb.
    + destruct Hb as [Hfl' Hfla].
      apply (leaf_copy_base hf (<["_controls" := VRef la]> ps0)); try done.
      * rewrite Hold; [done| |eauto]. congruence.
      * rewrite Hold; [done| |eauto]. congruence.
      * intros k Hk. by rewrite lookup_insert_ne.
      * rewrite Hin_of. destruct xs as [|x0 xs0].
        { specialize (He1 eq_refl). done. }
        exists la, xs'. rewrite lookup_insert_eq.
        rewrite lookup_difference_Some. repeat split; try done.
        { apply Hnone. by apply Hla. }
        eapply Forall2_impl; [exact Hcopies|].
        intros y y' (lj & hx & -> & Hslj & Hhx & Hlj).
        exists lj, hx. repeat split; try done.
        rewrite lookup_difference_Some. split; [done|]. by apply Hnone.
    + destruct Hb as [-> Hfl'].
      apply (leaf_copy_base hf ps0); try done.
      * rewrite Hold; [done| |eauto]. congruence.
      * rewrite Hold; [done| |eauto]. congruence.
      * rewrite Hin_of. destruct xs as [|x0 xs0]; [done|].
        destruct He2 as [? ?]; done.
Qed.

(** ** Copying a tree *)

Lemma is_copy_node h g l kids l' kids' :
  is_copy h g (Node l kids) (Node l' kids') ↔
  node_copy_of h g l l' kids' ∧ Forall2 (is_copy h g) kids kids'.
Proof.
  simpl. apply and_iff_compat_l.
  revert kids'. induction kids as [|k kids IH]; intros [|k' kids'].
  - split; [constructor|done].
  - split; [done|inversion 1].
  - split; [done|inversion 1].
  - rewrite IH. split.
    + intros [? ?]. by constructor.
    + inversion 1; subst. done.
Qed.

Lemma input_copy_of_mono h g g' x x' :
  g ⊆ g' → input_copy_of h g x x' → input_copy_of h g' x x'.
Proof.
  intros Hg (li' & hi & -> & Hhi & Hli'). exists li', hi.
  repeat split; try done. by eapply lookup_weaken.
Qed.

Lemma leaf_copy_of_mono h g g' l l' :
  g ⊆ g' → leaf_copy_of h g l l' → leaf_copy_of h g' l l'.
Proof.
  intros Hg (ps' & lm & ls & Hl' & Hid & Hme & Huri & Hrel & Hmd & Hmsg
             & Hlm & Hls & Hctl).
  exists ps', lm, ls. repeat split; try done; try by eapply lookup_weaken.
  destruct (inputs_of h (VRef l)) as [|x xs]; [done|].
  destruct Hctl as (la & xs' & Hc & Hla & Hall).
  exists la, xs'. repeat split; try done; [by eapply lookup_weaken|].
  eapply Forall2_impl; [exact Hall|]. intros ??. by apply input_copy_of_mono.
Qed.

Lemma node_copy_of_mono h g g' l l' kids' :
  g ⊆ g' → node_copy_of h g l l' kids' → node_copy_of h g' l l' kids'.
Proof.
  intros Hg (ps' & la & Hl' & Hid & Hmd & Harr & Hla).
  exists ps', la. repeat split; try done; by eapply lookup_weaken.
Qed.

Lemma is_copy_mono h g g' t t' :
  g ⊆ g' → is_copy h g t t' → is_copy h g' t t'.
Proof.
  intros Hg. revert t'.
  induction t as [l|l kids IH] using tree_ind_kids; intros [l'|l' kids'];
    try done.
  - by apply leaf_copy_of_mono.
  - rewrite !is_copy_node. intros [Hnode Hkids].
    split; [by eapply node_copy_of_mono|].
    clear Hnode. revert kids' Hkids.
    induction IH as [|k kids Hk _ IHkids]; intros kids' Hkids.
    + inversion Hkids. constructor.
    + inversion Hkids; subst. constructor; [by apply Hk|by apply IHkids].
Qed.

Lemma inputs_of_mono h h1 l :
  h ⊆ h1 → affordance_ok h (VRef l) = true →
  inputs_of h1 (VRef l) = inputs_of h (VRef l).
Proof.
  intros Hsub Hok. unfold affordance_ok in Hok.
  repeat (apply andb_prop in Hok as [Hok ?]).
  destruct (instanceOf_live _ _ _ Hok) as (? & ps & [= <-] & Hl).
  unfold inputs_of. rewrite (prop_mono h h1) by eauto.
  rewrite (array_elems_fresh h h1); [done..|].
  match goal with H : undefined_or (controls_ok h) _ = true |- _ =>
    apply undefined_or_controls in H as [[-> _]|(xs & -> & _)] end; eauto.
Qed.

(** Reading the original in a heap that has grown since gives the same
    relation. *)
Lemma leaf_copy_of_orig h h1 g l l' :
  h ⊆ h1 → affordance_ok h (VRef l) = true →
  leaf_copy_of h1 g l l' → leaf_copy_of h g l l'.
Proof.
  intros Hsub Hok (ps' & lm & ls & Hl' & Hid & Hme & Huri & Hrel & Hmd & Hmsg
                   & Hlm & Hls & Hctl).
  assert (is_Some (h !! l)) as Hlive.
  { apply (wf_tree_root_live h (Leaf l)). done. }
  rewrite (inputs_of_mono h h1) in Hctl by done.
  rewrite !(prop_mono h h1) in * by done.
  exists ps', lm, ls. repeat split; try done.
  destruct (inputs_of h (VRef l)) as [|x xs]; [done|].
  destruct Hctl as (la & xs' & Hc & Hla & Hall).
  exists la, xs'. repeat split; try done.
  eapply Forall2_impl; [exact Hall|].
  intros y y' (li' & hi & -> & Hhi & Hli'). exists li', hi.
  repeat split; try done. by etrans.
Qed.

Lemma is_copy_orig h h1 g t t' :
  h ⊆ h1 → wf_tree h t = true → is_copy h1 g t t' → is_copy h g t t'.
Proof.
  intros Hsub. revert t'.
  induction t as [l|l kids IH] using tree_ind_kids; intros [l'|l' kids'];
    try done.
  - intros Hwf. by apply leaf_copy_of_orig.
  - intros (Hok & Harr & Hkids)%wf_tree_node. rewrite !is_copy_node.
    intros [(ps' & la & Hl' & Hid & Hmd & Ha & Hla) Hall].
    assert (is_Some (h !! l)) as Hlive.
    { apply (wf_tree_root_live h (Node l kids)). by apply wf_tree_node. }
    rewrite !(prop_mono h h1) in * by done.
    split; [by exists ps', la|].
    clear Harr Hla. revert kids' Hall.
    induction IH as [|k kids Hk _ IHkids]; intros kids' Hall.
    + inversion Hall. constructor.
    + inversion Hall; subst. apply Forall_cons_1 in Hkids as [Hwk Hkids].
      constructor; [by apply Hk|by apply IHkids].
Qed.

Lemma is_copy_root h g t t' :
  is_copy h g t t' →
  ∃ c ps, g !! root t' = Some (Obj c ps)
          ∧ (c = CAffordance ∨ c = CAffordances).
Proof.
  destruct t as [l|l kids], t' as [l'|l' kids']; try done.
  - intros (ps' & ? & ? & Hl' & _). eauto.
  - intros [(ps' & ? & Hl' & _) _]%is_copy_node. eauto.
Qed.

Lemma wp_Affordances_new id h Q :
  (∀ l la, l ∉ dom h → la ∉ dom h → l ≠ la →
     Q (VRef l)
       (<[l := Obj CAffordances
                 (<["_affordances" := VRef la]>
                    (if typeof id =? "string"
                     then <["_id" := id]> ∅ else ∅))]>
          (<[la := Arr []]> h))) →
  wp (Affordances.new id) h Q.
Proof.
  intros HQ. unfold Affordances.new.
  wp_step. wp_step. rename H into Hl. wp_step.
  assert (∀ (ps : gmap string val) (h1 : heap),
    h1 = <[l := Obj CAffordances ps]> h →
    (∀ la, la ∉ dom h → l ≠ la →
       Q (VRef l) (<[l := Obj CAffordances (<["_affordances" := VRef la]> ps)]>
                     (<[la := Arr []]> h))) →
    wp (arr ← alloc (Arr []);
        set_prop (VRef l) "_affordances" arr;; mret (VRef l)) h1 Q) as Hrest.
  { intros ps h1 -> HQ'. wp_step. wp_step. rename l0 into la, H into Hla.
    assert (la ≠ l) as Hne.
    { intros ->. apply Hla, elem_of_dom. eexists. apply lookup_insert_eq. }
    wp_step. wp_step. wp_step.
    rewrite (insert_insert_ne _ la l) by done.
    rewrite insert_insert_eq. apply HQ'; [|done].
    intros Hin. apply Hla. rewrite dom_insert_L. set_solver. }
  destruct (typeof id =? "string").
  - wp_step. eapply Hrest; [done|]. intros la Hla Hne. by apply HQ.
  - wp_step. eapply Hrest; [done|]. intros la Hla Hne. by apply HQ.
Qed.

Lemma wp_addAffordance l c ps la xs action h Q :
  h !! l = Some (Obj c ps) →
  ps !! "_affordances" = Some (VRef la) →
  h !! la = Some (Arr xs) →
  Q (VRef l)
    (if (Affordance.isPrototypeOf h action
         || Affordances.isPrototypeOf h action)
        && not_in_array action xs
     then <[la := Arr (xs ++ [action])]> h else h) →
  wp (Affordances.addAffordance (VRef l) action) h Q.
Proof.
  intros Hl Hps Hla HQ. unfold Affordances.addAffordance.
  wp_step. wp_step. wp_step.
  unfold Affordances.isPrototypeOf in HQ.
  destruct (Affordance.isPrototypeOf h action
            || instanceOf CAffordances h action); simpl in *.
  - wp_step.
    eapply (wp_get_prop_obj _ _ _ _ (VRef la)); [done|by rewrite Hps|].
    wp_step. wp_step. simpl. rewrite Hla.
    destruct (not_in_array action xs).
    + wp_step. by wp_step.
    + wp_step. by wp_step.
  - wp_step. by wp_step.
Qed.

Lemma height_kid k kids l :
  k ∈ kids → (height k < height (Node l kids))%nat.
Proof.
  intros Hk. simpl. apply Nat.lt_succ_r.
  induction Hk as [k kids|k k0 kids Hk IH];
    rewrite fmap_cons; change (max_list (?x :: ?xs)) with (x `max` max_list xs);
    lia.
Qed.

Lemma call_copy_input n h x Q :
  input_ok h x = true →
  (∀ li', li' ∉ dom h →
     Q (VRef li') (<[li' := Obj CInput (input_props_from h x)]> h)) →
  wp (call_copy (S n) x) h Q.
Proof.
  intros [Hin _]%andb_prop HQ.
  destruct (instanceOf_live _ _ _ Hin) as (li & ps & -> & Hli).
  simpl. apply wp_bind, wp_gets. simpl. rewrite Hli.
  unfold Input.copy. apply wp_set_all_from; [by eauto|done].
Qed.

(** [copy] on the root of a tree returns, with fuel for its depth, the
    root of a copy made of objects that are all new. *)
Lemma wp_call_copy t :
  ∀ fuel h Q,
    wf_tree h t = true →
    (height t + 2 ≤ fuel)%nat →
    (∀ h' t', h ⊆ h' → is_copy h (h' ∖ h) t t' → Q (VRef (root t')) h') →
    wp (call_copy fuel (VRef (root t))) h Q.
Proof.
  induction t as [l|l kids IH] using tree_ind_kids; intros fuel h Q Hwf Hfuel HQ.
  - (* an Affordance *)
    destruct fuel as [|[|n]]; [simpl in Hfuel; lia..|].
    simpl in Hwf. pose proof Hwf as Hok. unfold affordance_ok in Hwf.
    repeat (apply andb_prop in Hwf as [Hwf ?]).
    destruct (instanceOf_live _ _ _ Hwf) as (? & ps & [= <-] & Hl).
    change (call_copy (S (S n)) (VRef (root (Leaf l))))
      with (c ← gets (λ h, class_of h (VRef l));
            match c with
            | Some CInput => Input.copy (VRef l)
            | Some CAffordance => Affordance.copy (call_copy (S n)) (VRef l)
            | Some CAffordances => Affordances.copy (call_copy (S n)) (VRef l)
            | _ => throw "TypeError"
            end).
    apply wp_bind, wp_gets. simpl class_of. rewrite Hl.
    apply wp_Affordance_copy; [done| |].
    + intros x h1 Q' Hsub Hx HQ'. apply call_copy_input; [|done].
      apply (input_ok_mono h h1 x Hsub).
      unfold inputs_of in Hx.
      match goal with H : undefined_or (controls_ok h) _ = true |- _ =>
        apply undefined_or_controls in H as [[_ Hn]|(xs & Hxs & Hall)] end.
      * rewrite Hn in Hx. simpl in Hx. by apply elem_of_nil in Hx.
      * rewrite Hxs in Hx. simpl in Hx. rewrite forallb_forall in Hall.
        by apply Hall, list_elem_of_In.
    + intros h' l' Hsub Hl' Hcopy. by apply (HQ h' (Leaf l')).
  - (* an Affordances *)
    destruct fuel as [|n]; [simpl in Hfuel; lia|].
    apply wf_tree_node in Hwf as (Hok & Harr & Hkids).
    pose proof Hok as Hok'. unfold affordances_ok in Hok'.
    repeat (apply andb_prop in Hok' as [Hok' ?]).
    destruct (instanceOf_live _ _ _ Hok') as (? & ps & [= <-] & Hl).
    assert (is_Some (h !! l)) as Hlive by eauto.
    change (call_copy (S n) (VRef (root (Node l kids))))
      with (c ← gets (λ h, class_of h (VRef l));
            match c with
            | Some CInput => Input.copy (VRef l)
            | Some CAffordance => Affordance.copy (call_copy n) (VRef l)
            | Some CAffordances => Affordances.copy (call_copy n) (VRef l)
            | _ => throw "TypeError"
            end).
    apply wp_bind, wp_gets. simpl class_of. rewrite Hl.
    unfold Affordances.copy.
    apply wp_bind, wp_Affordances_new. intros l' la Hl' Hla Hl'la.
    change (typeof VUndef =? "string") with false. cbv iota.
    assert (l ≠ l') as Hll' by (intros ->; by apply Hl', elem_of_dom).
    assert (l ≠ la) as Hlla by (intros ->; by apply Hla, elem_of_dom).
    apply not_elem_of_dom in Hl' as Hl'n, Hla as Hlan.
    set (hb := <[la := Arr []]> h).
    assert (h ⊆ hb) as Hhb by (by apply insert_subseteq).
    assert (hb !! l' = None) as Hbl' by (unfold hb; by rewrite lookup_insert_ne).
    assert (∀ o, is_Some (<[l' := o]> hb !! l)) as Hl1.
    { intros o. exists (Obj CAffordances ps).
      rewrite lookup_insert_ne by done. by eapply lookup_weaken. }
    assert (∀ o k, prop (<[l' := o]> hb) (VRef l) k = prop h (VRef l) k) as Hp.
    { intros o k. rewrite prop_insert_ne by done. by apply prop_mono. }
    apply wp_bind, wp_get_prop; [done|]. rewrite Hp.
    apply wp_bind.
    eapply (wp_call_setter Affordances_setId); [apply lookup_insert_eq|].
    rewrite insert_insert_eq.
    apply wp_bind, wp_get_prop; [done|]. rewrite Hp.
    apply wp_bind.
    eapply (wp_call_setter Affordances_setMetadata); [apply lookup_insert_eq|].
    rewrite insert_insert_eq.
    set (ps0 := (<["_metadata" := keep_object (prop h (VRef l) "_metadata")]>
                (<["_id" := keep_string (prop h (VRef l) "_id")]>
                (<["_affordances" := VRef la]> ∅)) : gmap string val)).
    match goal with |- wp _ (<[l' := Obj _ ?m]> _) _ =>
      change m with ps0 end.
    set (hs := <[l' := Obj CAffordances ps0]> hb).
    assert (h ⊆ hs) as Hhs by (unfold hs; by apply insert_subseteq_r).
    assert (hs !! l' = Some (Obj CAffordances ps0)) as Hsl'
      by apply lookup_insert_eq.
    assert (hs !! la = Some (Arr [])) as Hsla.
    { unfold hs, hb. rewrite lookup_insert_ne by done. apply lookup_insert_eq. }
    apply wp_bind, wp_get_prop; [apply Hl1|].
    unfold hs at 1. rewrite Hp. fold hs.
    apply wp_bind, wp_gets.
    rewrite (array_elems_mono _ _ _ _ Hhs Harr).
    apply wp_bind.
    set (f := λ k : tree, VRef (root k)).
    apply (wp_for_each _ (f <$> kids) (λ dn hi,
      ∃ kd kr cs,
        kids = kd ++ kr ∧ dn = f <$> kd
        ∧ (∀ l2, l2 ≠ la → is_Some (hs !! l2) → hi !! l2 = hs !! l2)
        ∧ hi !! la = Some (Arr (f <$> cs))
        ∧ Forall2 (is_copy h (hi ∖ hs)) kd cs)).
    + exists [], kids, []. repeat split; done.
    + intros dn x rest hi Heq (kd & kr & cs & Hkd & -> & Hold & Hila & Hcs).
      assert (∀ l2, is_Some (hs !! l2) → is_Some (hi !! l2)) as Hdom.
      { intros l2 Hl2. destruct (decide (l2 = la)) as [->|?]; [by eauto|].
        by rewrite Hold. }
      assert (h ⊆ hi) as Hhi.
      { apply map_subseteq_spec. intros l2 o Hl2.
        assert (l2 ≠ la) by (intros ->; congruence).
        rewrite Hold; [by eapply lookup_weaken|done|].
        exists o. by eapply lookup_weaken. }
      rewrite Hkd, fmap_app in Heq.
      apply app_inv_head in Heq.
      destruct kr as [|k kr]; [done|]. injection Heq as <- _.
      assert (k ∈ kids) as Hk.
      { rewrite Hkd. apply elem_of_app. right. apply list_elem_of_here. }
      rewrite Forall_forall in IH, Hkids.
      apply wp_bind. apply (IH k Hk).
      * apply (wf_tree_mono h hi); [done|]. by apply Hkids.
      * pose proof (height_kid k kids l Hk). lia.
      * intros ha k' Hha Hk'.
        assert (is_copy h (ha ∖ hi) k k') as Hk'h.
        { eapply is_copy_orig; [exact Hhi|by apply Hkids|done]. }
        destruct (is_copy_root _ _ _ _ Hk') as (c & psk & Hroot & Hc).
        apply lookup_difference_Some in Hroot as [Hroot Hrootn].
        assert (ha !! la = Some (Arr (f <$> cs))) as Hala
          by (by eapply lookup_weaken).
        assert (ha !! l' = Some (Obj CAffordances ps0)) as Hal'.
        { eapply lookup_weaken; [|exact Hha]. by rewrite Hold. }
        apply wp_bind.
        eapply wp_addAffordance; [exact Hal'|reflexivity|exact Hala|].
        assert ((Affordance.isPrototypeOf ha (VRef (root k'))
                 || Affordances.isPrototypeOf ha (VRef (root k'))) = true)
          as ->.
        { unfold Affordance.isPrototypeOf, Affordances.isPrototypeOf,
            instanceOf. rewrite Hroot.
          destruct Hc as [-> | ->]; by rewrite ?orb_true_r. }
        assert (not_in_array (VRef (root k')) (f <$> cs) = true) as ->.
        { unfold not_in_array. apply forallb_forall. intros y Hy.
          apply list_elem_of_In, list_elem_of_fmap in Hy as (c0 & -> & Hc0).
          apply list_elem_of_lookup_1 in Hc0 as [j Hj].
          destruct (Forall2_lookup_r _ _ _ _ _ Hcs Hj) as (k0 & _ & Hk0).
          destruct (is_copy_root _ _ _ _ Hk0) as (? & ? & Hr0 & _).
          apply lookup_difference_Some in Hr0 as [Hr0 _].
          unfold strict_eq, f. apply negb_true_iff, bool_decide_eq_false.
          intros [= Heq']. rewrite Heq' in Hr0. congruence. }
        simpl. wp_step.
        exists (kd ++ [k]), kr, (cs ++ [k']).
        split; [by rewrite <- app_assoc|].
        split; [by rewrite fmap_app|].
        split; [|split].
        -- intros l2 Hl2 Hsl2. rewrite lookup_insert_ne by done.
           rewrite <- (Hold l2) by done.
           destruct (Hdom l2 Hsl2) as [o Ho].
           rewrite Ho. by eapply lookup_weaken.
        -- rewrite lookup_insert_eq. by rewrite fmap_app.
        -- apply Forall2_app.
           ++ eapply Forall2_impl; [exact Hcs|]. intros k0 c0.
              apply is_copy_mono.
              apply map_subseteq_spec. intros l2 o.
              rewrite !lookup_difference_Some. intros [Hl2 Hl2n].
              split; [|done]. rewrite lookup_insert_ne by congruence.
              by eapply lookup_weaken.
           ++ constructor; [|constructor].
              eapply is_copy_mono; [|exact Hk'h].
              apply map_subseteq_spec. intros l2 o.
              rewrite !lookup_difference_Some. intros [Hl2 Hl2n].
              assert (l2 ≠ la) by (intros ->; congruence).
              split; [by rewrite lookup_insert_ne|].
              destruct (hs !! l2) eqn:E; [|done].
              destruct (Hdom l2) as [? ?]; [eauto|congruence].
    + intros hf (kd & kr & cs & Hkd & Hdn & Hold & Hfla & Hcs).
      wp_step.
      assert (kd = kids) as ->.
      { assert (length kd = length kids) as Hlen.
        { rewrite <- (length_fmap f kd), <- Hdn. by rewrite length_fmap. }
        rewrite Hkd in Hlen. rewrite length_app in Hlen.
        destruct kr; [by rewrite app_nil_r in Hkd|simpl in Hlen; lia]. }
      assert (h ⊆ hf) as Hhf.
      { apply map_subseteq_spec. intros l2 o Hl2.
        assert (l2 ≠ la) by (intros ->; congruence).
        rewrite Hold; [by eapply lookup_weaken|done|].
        exists o. by eapply lookup_weaken. }
      apply (HQ hf (Node l' cs)); [done|].
      apply is_copy_node. split.
      * exists ps0, la. rewrite !lookup_difference_Some.
        repeat split; try done.
        rewrite Hold; [done|done|eauto].
      * eapply Forall2_impl; [exact Hcs|]. intros k0 c0.
        apply is_copy_mono. apply map_subseteq_spec. intros l2 o.
        rewrite !lookup_difference_Some. intros [Hl2 Hl2n].
        split; [done|]. destruct (h !! l2) eqn:E; [|done].
        by rewrite (lookup_weaken _ _ _ _ E Hhs) in Hl2n.
Qed.

(** C10.  Whatever the message table of an Affordance holds, [copy()]
    returns a new Affordance whose message table is the one its constructor
    makes: ['*'] bound to the one-element list of the id, and no other
    response code. *)
Theorem copy_resets_messages (h : heap) (l : loc) (n : nat) :
  affordance_ok h (VRef l) = true →
  wp (Affordance.copy (call_copy (S n)) (VRef l)) h (λ r h',
    Affordance.isPrototypeOf h' r = true
    ∧ r ≠ VRef l
    ∧ (∃ star, messages_of h' r = Some (<["*" := star]> ∅))
    ∧ message_for h' r "*" = Some [prop h (VRef l) "_id"]
    ∧ ∀ code, code ≠ "*" → message_for h' r code = None).
Proof.
  intros Hok. apply wp_Affordance_copy; [done| |].
  - intros x h1 Q' Hsub Hx HQ'. apply call_copy_input; [|done].
    apply (input_ok_mono h h1 x Hsub).
    unfold affordance_ok in Hok.
    repeat (apply andb_prop in Hok as [Hok ?]).
    unfold inputs_of in Hx.
    match goal with H : undefined_or (controls_ok h) _ = true |- _ =>
      apply undefined_or_controls in H as [[_ Hn]|(xs & Hxs & Hall)] end.
    + rewrite Hn in Hx. simpl in Hx. by apply elem_of_nil in Hx.
    + rewrite Hxs in Hx. simpl in Hx. rewrite forallb_forall in Hall.
      by apply Hall, list_elem_of_In.
  - intros h' l' Hsub Hl'
      (ps' & lm & ls & Hpl' & Hid & _ & _ & _ & _ & Hmsg & Hlm & Hls & _).
    apply lookup_difference_Some in Hpl' as [Hpl' _].
    apply lookup_difference_Some in Hlm as [Hlm _].
    apply lookup_difference_Some in Hls as [Hls _].
    assert (string_or_empty (prop h (VRef l) "_id") = prop h (VRef l) "_id")
      as Hsid.
    { unfold affordance_ok in Hok.
      repeat (apply andb_prop in Hok as [Hok ?]).
      unfold string_or_empty.
      by destruct (typeof (prop h (VRef l) "_id") =? "string"). }
    rewrite Hsid in *.
    assert (messages_of h' (VRef l') = Some (<["*" := VRef ls]> ∅)) as Hm.
    { unfold messages_of. rewrite (prop_lookup _ _ _ _ _ Hpl'), Hmsg.
      simpl. by rewrite Hlm. }
    split; [|split; [|split; [|split]]].
    + unfold Affordance.isPrototypeOf, instanceOf. rewrite Hpl'.
      by apply bool_decide_eq_true.
    + intros [= Heq]. apply Hl', elem_of_dom. rewrite Heq.
      apply (wf_tree_root_live h (Leaf l)). done.
    + by eexists.
    + unfold message_for. rewrite Hm. cbn [mbind option_bind].
      rewrite lookup_insert_eq. cbn [mbind option_bind].
      unfold array_elems. by rewrite Hls.
    + intros code Hcode. unfold message_for. rewrite Hm.
      cbn [mbind option_bind]. by rewrite lookup_insert_ne.
Qed.

Lemma copy_resets_messages_witness :
  message_for heap_with_message (VRef 1%positive) "200" = Some [VStr "a"]
  ∧ wp (Affordance.copy (call_copy 1) (VRef 1%positive)) heap_with_message
      (λ r h',
         Affordance.isPrototypeOf h' r = true
         ∧ r ≠ VRef 1%positive
         ∧ (∃ star, messages_of h' r = Some (<["*" := star]> ∅))
         ∧ message_for h' r "*"
           = Some [prop heap_with_message (VRef 1%positive) "_id"]
         ∧ ∀ code, code ≠ "*" → message_for h' r code = None).
Proof.
  split; [vm_compute; reflexivity|].
  apply (copy_resets_messages heap_with_message 1%positive 0).
  vm_compute. reflexivity.
Defined.

(** ** A copy, field by field *)

Lemma copied_node h h' l kids l' kids' :
  copied h h' (Node l kids) (Node l' kids') ↔
  l ≠ l'
  ∧ Affordances.isPrototypeOf h' (VRef l') = true
  ∧ same_fields affordances_fields h' (VRef l') h (VRef l)
  ∧ array_elems h' (prop h' (VRef l') "_affordances")
    = Some ((λ k, VRef (root k)) <$> kids')
  ∧ Forall2 (copied h h') kids kids'.
Proof.
  simpl. do 4 apply and_iff_compat_l.
  revert kids'. induction kids as [|k kids IH]; intros [|k' kids'].
  - split; [constructor|done].
  - split; [done|inversion 1].
  - split; [done|inversion 1].
  - rewrite IH. split.
    + intros [? ?]. by constructor.
    + inversion 1; subst. done.
Qed.

Lemma keep_string_optional v :
  undefined_or (λ x, typeof x =? "string") v = true → keep_string v = v.
Proof. intros [->|Hv]%undefined_or_true; [done|]. unfold keep_string. by rewrite Hv. Qed.

Lemma keep_object_optional h v :
  undefined_or (live_object h) v = true → keep_object v = v.
Proof.
  intros [->|Hv]%undefined_or_true; [done|]. by destruct v.
Qed.

Lemma string_or_empty_string v :
  (typeof v =? "string") = true → string_or_empty v = v.
Proof. intros Hv. unfold string_or_empty. by rewrite Hv. Qed.

Lemma input_copy_of_copied h h' x x' :
  h ⊆ h' → input_ok h x = true →
  input_copy_of h (h' ∖ h) x x' → copied_input h h' x x'.
Proof.
  intros Hsub Hok (li' & hi & -> & Hhi & Hli').
  apply lookup_difference_Some in Hli' as [Hli' Hnew].
  destruct (input_ok_mono h hi x Hhi Hok) as (_ & Hprops & _).
  pose proof Hok as [Hin Hshape]%andb_prop.
  destruct (instanceOf_live _ _ _ Hin) as (li & ps & -> & Hli).
  split; [|split].
  - intros [= ->]. congruence.
  - unfold Input.isPrototypeOf, instanceOf. rewrite Hli'.
    by apply bool_decide_eq_true.
  - unfold same_input_fields.
    pose proof (input_props_from_inv h (VRef li) Hshape) as Hfrom.
    rewrite Forall_forall in Hfrom. apply Forall_forall. intros k Hk.
    rewrite (prop_lookup _ _ _ _ _ Hli'), Hprops. by apply Hfrom.
Qed.

Lemma leaf_copy_of_copied h h' l l' :
  h ⊆ h' → affordance_ok h (VRef l) = true →
  leaf_copy_of h (h' ∖ h) l l' → copied h h' (Leaf l) (Leaf l').
Proof.
  intros Hsub Hok (ps' & lm & ls & Hl' & Hid & Hme & Huri & Hrel & Hmd & Hmsg
                   & Hlm & Hls & Hctl).
  apply lookup_difference_Some in Hl' as [Hl' Hl'n].
  apply lookup_difference_Some in Hlm as [Hlm _].
  apply lookup_difference_Some in Hls as [Hls _].
  pose proof Hok as Hok'. unfold affordance_ok in Hok'.
  repeat (apply andb_prop in Hok' as [Hok' ?]).
  destruct (instanceOf_live _ _ _ Hok') as (? & ps & [= <-] & Hl).
  rewrite !string_or_empty_string in * by done.
  rewrite keep_string_optional in Hrel by done.
  rewrite (keep_object_optional h) in Hmd by done.
  assert (∀ k, prop h' (VRef l') k = default VUndef (ps' !! k)) as Hp
    by (intros; by apply prop_lookup with CAffordance).
  assert (messages_of h' (VRef l') = Some (<["*" := VRef ls]> ∅)) as Hm.
  { unfold messages_of. rewrite Hp, Hmsg. simpl. by rewrite Hlm. }
  simpl. split; [by intros ->; congruence|]. split; [|split; [|split; [|split]]].
  - unfold Affordance.isPrototypeOf, instanceOf. rewrite Hl'.
    by apply bool_decide_eq_true.
  - unfold same_fields, affordance_fields.
    repeat apply Forall_cons_2; [..|apply Forall_nil_2]; rewrite Hp.
    + by rewrite Hid.
    + by rewrite Hme.
    + by rewrite Huri.
    + by rewrite Hrel.
    + by rewrite Hmd.
  - unfold inputs_of at 2. rewrite Hp.
    destruct (inputs_of h (VRef l)) as [|x xs] eqn:Hin.
    + rewrite Hctl. constructor.
    + destruct Hctl as (la & xs' & -> & Hla & Hall).
      apply lookup_difference_Some in Hla as [Hla _].
      simpl. rewrite Hla. simpl.
      assert (Forall (λ y, input_ok h y = true) (x :: xs)) as Hoks.
      { rewrite <- Hin. unfold inputs_of.
        match goal with H : undefined_or (controls_ok h) _ = true |- _ =>
          apply undefined_or_controls in H as [[_ ->]|(ys & -> & Hys)] end;
          [constructor|].
        simpl. apply Forall_forall. intros y Hy.
        rewrite forallb_forall in Hys. by apply Hys, list_elem_of_In. }
      revert Hoks Hall. generalize (x :: xs). clear - Hsub.
      intros ys Hoks Hall. induction Hall as [|y y' ys ys' Hy _ IH].
      * constructor.
      * apply Forall_cons_1 in Hoks as [Hoky Hoks].
        constructor; [by apply input_copy_of_copied|by apply IH].
  - unfold message_for. rewrite Hm. cbn [mbind option_bind].
    rewrite lookup_insert_eq. cbn [mbind option_bind].
    unfold array_elems. by rewrite Hls.
  - intros code Hcode. unfold message_for. rewrite Hm.
    cbn [mbind option_bind]. by rewrite lookup_insert_ne.
Qed.

Lemma is_copy_copied h h' t t' :
  h ⊆ h' → wf_tree h t = true →
  is_copy h (h' ∖ h) t t' → copied h h' t t'.
Proof.
  intros Hsub. revert t'.
  induction t as [l|l kids IH] using tree_ind_kids; intros [l'|l' kids'];
    try done.
  - intros Hwf. by apply leaf_copy_of_copied.
  - intros (Hok & Harr & Hkids)%wf_tree_node.
    rewrite is_copy_node, copied_node.
    intros [(ps' & la & Hl' & Hid & Hmd & Ha & Hla) Hall].
    apply lookup_difference_Some in Hl' as [Hl' Hl'n].
    apply lookup_difference_Some in Hla as [Hla _].
    pose proof Hok as Hok'. unfold affordances_ok in Hok'.
    repeat (apply andb_prop in Hok' as [Hok' ?]).
    destruct (instanceOf_live _ _ _ Hok') as (? & ps & [= <-] & Hl).
    rewrite keep_string_optional in Hid by done.
    rewrite (keep_object_optional h) in Hmd by done.
    assert (∀ k, prop h' (VRef l') k = default VUndef (ps' !! k)) as Hp
      by (intros; by apply prop_lookup with CAffordances).
    split; [by intros ->; congruence|]. split; [|split; [|split]].
    + unfold Affordances.isPrototypeOf, instanceOf. rewrite Hl'.
      by apply bool_decide_eq_true.
    + unfold same_fields, affordances_fields.
      repeat apply Forall_cons_2; [..|apply Forall_nil_2]; rewrite Hp.
      * by rewrite Hid.
      * by rewrite Hmd.
    + rewrite Hp, Ha. simpl. by rewrite Hla.
    + clear Harr Hla. revert kids' Hall.
      induction IH as [|k kids Hk _ IHkids]; intros kids' Hall.
      * inversion Hall. constructor.
      * inversion Hall; subst. apply Forall_cons_1 in Hkids as [Hwk Hkids].
        constructor; [by apply Hk|by apply IHkids].
Qed.

Lemma is_copy_nodes_new h g t t' :
  is_copy h g t t' → Forall (λ n, is_Some (g !! root n)) (nodes t').
Proof.
  revert t'.
  induction t as [l|l kids IH] using tree_ind_kids; intros [l'|l' kids'];
    try done.
  - intros (ps' & ? & ? & Hl' & _). unfold nodes. simpl.
    constructor; [by eauto|constructor].
  - rewrite is_copy_node. intros [(ps' & la & Hl' & _) Hall].
    unfold nodes. constructor; [simpl; by eauto|].
    simpl. revert kids' Hall.
    induction IH as [|k kids Hk _ IHkids]; intros kids' Hall.
    + inversion Hall. constructor.
    + inversion Hall; subst. simpl.
      change (y :: descendants y ++ ?r) with (nodes y ++ r).
      apply Forall_app. split.
      * by apply (Hk y).
      * by apply IHkids.
Qed.

Lemma wf_tree_nodes_live h t :
  wf_tree h t = true → Forall (λ n, is_Some (h !! root n)) (nodes t).
Proof.
  induction t as [l|l kids IH] using tree_ind_kids; intros Hwf.
  - constructor; [by apply wf_tree_root_live|constructor].
  - constructor; [by apply wf_tree_root_live|].
    apply wf_tree_node in Hwf as (_ & _ & Hkids). simpl.
    induction IH as [|k kids Hk _ IHkids]; simpl; [constructor|].
    apply Forall_cons_1 in Hkids as [Hwk Hkids].
    change (k :: descendants k ++ ?r) with (nodes k ++ r).
    apply Forall_app. split; [by apply Hk|by apply IHkids].
Qed.

(** C4, as the code has it.  [copy()] on a tree returns, with fuel for its
    depth, the root of a tree of the same shape made of new objects: no
    node of the copy is a node of the original, every node of the copy has
    the class, id, method, uri, relation and metadata of the node it stands
    for, and the inputs of an Affordance are copied one by one.  The
    message table is not carried over: a copied Affordance has the table
    its constructor makes. *)
Theorem copy_is_fresh_structure (h : heap) (t : tree) (fuel : nat) :
  wf_tree h t = true →
  (height t + 2 ≤ fuel)%nat →
  wp (call_copy fuel (VRef (root t))) h (λ r h',
    ∃ t', r = VRef (root t')
          ∧ h ⊆ h'
          ∧ copied h h' t t'
          ∧ Forall (λ n', (root n' ∉ dom h)
                          ∧ Forall (λ n, root n ≠ root n') (nodes t))
              (nodes t')).
Proof.
  intros Hwf Hfuel. apply wp_call_copy; [done..|].
  intros h' t' Hsub Hcopy. exists t'. split; [done|]. split; [done|].
  split; [by apply is_copy_copied|].
  pose proof (is_copy_nodes_new _ _ _ _ Hcopy) as Hnew.
  pose proof (wf_tree_nodes_live _ _ Hwf) as Hlive.
  eapply Forall_impl; [exact Hnew|]. intros n' [o Ho]. simpl in *.
  apply lookup_difference_Some in Ho as [_ Ho].
  split; [by apply not_elem_of_dom|].
  eapply Forall_impl; [exact Hlive|]. intros n [o' Ho'] Heq. simpl in *.
  congruence.
Qed.

Lemma copy_is_fresh_structure_witness :
  wp (call_copy 3 (VRef (root tree_with_message))) heap_tree_with_message
    (λ r h',
       ∃ t', r = VRef (root t')
             ∧ heap_tree_with_message ⊆ h'
             ∧ copied heap_tree_with_message h' tree_with_message t'
             ∧ Forall (λ n', (root n' ∉ dom heap_tree_with_message)
                             ∧ Forall (λ n, root n ≠ root n')
                                 (nodes tree_with_message))
                 (nodes t')).
Proof.
  apply (copy_is_fresh_structure heap_tree_with_message tree_with_message 3).
  - vm_compute. reflexivity.
  - vm_compute. lia.
Defined.

(** The claim as the specification states it fails: the copy of a tree
    whose Affordance has a message for ['200'] has no such message. *)
Lemma copy_drops_messages :
  wf_tree heap_tree_with_message tree_with_message = true
  ∧ ∃ h', call_copy 3 (VRef 5%positive) heap_tree_with_message
          = (h', Val (VRef 7%positive))
      ∧ array_elems h' (prop h' (VRef 7%positive) "_affordances")
        = Some [VRef 9%positive]
      ∧ message_for heap_tree_with_message (VRef 1%positive) "200"
        = Some [VStr "a"]
      ∧ message_for h' (VRef 9%positive) "200" = None
      ∧ ¬ same_messages heap_tree_with_message (VRef 1%positive)
            h' (VRef 9%positive).
Proof.
  split; [vm_compute; reflexivity|].
  eexists. split; [vm_compute; reflexivity|].
  split; [vm_compute; reflexivity|].
  split; [vm_compute; reflexivity|].
  split; [vm_compute; reflexivity|].
  intros Hsame. specialize (Hsame "200"). vm_compute in Hsame. discriminate.
Qed.

(** ** The cascade of metadata *)

Lemma plain_props_insert k x ps :
  k ≠ "hasOwnProperty" → k ≠ "__proto__" →
  plain_props ps = true → plain_props (<[k := x]> ps) = true.
Proof.
  unfold plain_props. intros Hk1 Hk2 [H1 H2]%andb_prop.
  apply bool_decide_eq_true in H1, H2.
  apply andb_true_intro.
  split; apply bool_decide_eq_true; by rewrite lookup_insert_ne.
Qed.

Lemma plain_props_union ps qs :
  plain_props ps = true → plain_props qs = true →
  plain_props (ps ∪ qs) = true.
Proof.
  unfold plain_props. intros [H1 H2]%andb_prop [H3 H4]%andb_prop.
  apply bool_decide_eq_true in H1, H2, H3, H4.
  apply andb_true_intro.
  split; apply bool_decide_eq_true; rewrite lookup_union_None; done.
Qed.

(** The loop that copies the fields of [ls] onto [ld] writes to [ld] only,
    and to no field named [hasOwnProperty] or [__proto__].  It copies
    every field when [ls] has neither of the two; when it has one, the
    loop may stop, with a TypeError or at a step outside the model. *)
Lemma wpo_copy_own_props ls ld c pd h (Q : () → heap → Prop) E :
  h !! ld = Some (Obj c pd) →
  ls ≠ ld →
  plain_props pd = true →
  (∀ pi, plain_props pi = true →
     (plain_meta h (VRef ls) = true → pi = props_of h (VRef ls) ∪ pd) →
     Q () (<[ld := Obj c pi]> h)) →
  (∀ x pi, x = AError "TypeError" ∨ (∃ step, x = ABeyond step) →
     plain_meta h (VRef ls) = false →
     E x (<[ld := Obj c pi]> h)) →
  wpo (copy_own_props (VRef ls) (VRef ld)) h Q E.
Proof.
  intros Hld Hne Hpd HQ HE. unfold copy_own_props.
  apply wpo_bind, wpo_wp, wp_gets.
  set (src := props_of h (VRef ls)).
  assert (plain_meta h (VRef ls) = plain_props src) as Hplain by done.
  rewrite Hplain in HQ, HE.
  assert (match h !! ls with
          | Some o => (map_to_list (own_props o)).*1
          | None => []
          end = (map_to_list src).*1) as ->.
  { unfold src, props_of. destruct (h !! ls); [done|].
    by rewrite map_to_list_empty. }
  apply (wpo_for_each _ _ (λ dn hi,
    ∃ pi, hi = <[ld := Obj c pi]> h
          ∧ plain_props pi = true
          ∧ (plain_props src = true →
             ∀ k, pi !! k = if decide (k ∈ dn) then src !! k else pd !! k))).
  - exists pd. split; [by rewrite insert_id|]. split; [done|].
    intros _ k. rewrite decide_False; [done|]. apply not_elem_of_nil.
  - intros dn k rest hi Heq (pi & -> & Hpi & Hdone).
    assert (is_Some (src !! k)) as [x Hx].
    { assert (k ∈ (map_to_list src).*1) as Hk.
      { rewrite Heq. apply elem_of_app. right. apply list_elem_of_here. }
      apply list_elem_of_fmap in Hk as ([k' x] & -> & Hk).
      apply elem_of_map_to_list in Hk. eauto. }
    assert (∃ ob, h !! ls = Some ob ∧ own_props ob = src) as (ob & Hls & Hob).
    { unfold src, props_of in *. destruct (h !! ls) as [ob|]; [by eauto|].
      by rewrite lookup_empty in Hx. }
    unfold wpo, mbind, M_bind, call_hasOwnProperty.
    rewrite lookup_insert_ne by done. rewrite Hls, Hob.
    destruct (src !! "hasOwnProperty") as [hop|] eqn:Hhop.
    { assert (plain_props src = false) as Hbad.
      { unfold plain_props. rewrite Hhop.
        by rewrite bool_decide_eq_false_2. }
      destruct hop; simpl; apply HE; try done; eauto. }
    rewrite bool_decide_eq_true_2 by (rewrite Hx; eauto).
    unfold get_prop. rewrite lookup_insert_ne by done. rewrite Hls, Hob, Hx.
    cbn [default from_option Datatypes.id]. unfold assign.
    rewrite lookup_insert_eq.
    destruct ((k =? "__proto__") && bool_decide (pi !! k = None)) eqn:Hproto.
    + apply andb_prop in Hproto as [->%String.eqb_eq _].
      assert (plain_props src = false) as Hbad.
      { unfold plain_props. rewrite Hx.
        rewrite (bool_decide_eq_false_2 (Some x = None)) by done.
        apply andb_false_r. }
      destruct x; simpl; try (apply HE; by eauto);
        (exists pi; split; [done|]; split; [done|];
         intros Hp; congruence).
    + assert (k ≠ "hasOwnProperty") as Hk1 by (intros ->; congruence).
      assert (k ≠ "__proto__") as Hk2.
      { intros ->. apply andb_false_iff in Hproto as [Hp|Hp]; [done|].
        apply bool_decide_eq_false in Hp.
        unfold plain_props in Hpi. apply andb_prop in Hpi as [_ Hpi].
        by apply bool_decide_eq_true in Hpi. }
      unfold set_prop. rewrite lookup_insert_eq. simpl.
      rewrite insert_insert_eq.
      exists (<[k := x]> pi). split; [done|].
      split; [by apply plain_props_insert|].
      intros Hp k'. specialize (Hdone Hp).
      rewrite lookup_insert. destruct (decide (k = k')) as [<-|Hkk'].
      * rewrite decide_True; [done|]. apply elem_of_app. right.
        apply list_elem_of_here.
      * rewrite Hdone. destruct (decide (k' ∈ dn)) as [Hin|Hnin].
        -- rewrite decide_True; [done|]. apply elem_of_app. by left.
        -- rewrite decide_False; [done|].
           intros [?|Hin%list_elem_of_singleton]%elem_of_app;
             [done|congruence].
  - intros hf (pi & -> & Hpi & Hdone). apply HQ; [done|].
    intros Hp. specialize (Hdone Hp). fold src.
    apply map_eq. intros k. rewrite Hdone, lookup_union.
    destruct (src !! k) as [x|] eqn:Hx.
    + rewrite decide_True; [by destruct (pd !! k)|].
      apply list_elem_of_fmap. exists (k, x). split; [done|].
      by apply elem_of_map_to_list.
    + rewrite decide_False; [by destruct (pd !! k)|].
      intros ([k' x] & -> & Hk)%list_elem_of_fmap.
      apply elem_of_map_to_list in Hk. simpl in *. congruence.
Qed.

Lemma props_of_not_object h v : is_object v = false → props_of h v = ∅.
Proof. by destruct v. Qed.

Lemma wpo_copy_if_object v ld c pd h (Q : () → heap → Prop) E :
  h !! ld = Some (Obj c pd) →
  v ≠ VRef ld →
  plain_props pd = true →
  (∀ pi, plain_props pi = true →
     (plain_meta h v = true → pi = props_of h v ∪ pd) →
     Q () (<[ld := Obj c pi]> h)) →
  (∀ x pi, x = AError "TypeError" ∨ (∃ step, x = ABeyond step) →
     plain_meta h v = false →
     E x (<[ld := Obj c pi]> h)) →
  wpo (if is_object v then copy_own_props v (VRef ld) else mret ()) h Q E.
Proof.
  intros Hld Hne Hpd HQ HE. destruct (is_object v) eqn:Hv.
  - apply is_object_ref in Hv as [ls ->].
    eapply wpo_copy_own_props; [done|congruence|done..].
  - apply wpo_ret. rewrite <- (insert_id h ld (Obj c pd)) by done.
    apply HQ; [done|]. intros _.
    rewrite props_of_not_object by done. by rewrite (left_id_L ∅ (∪)).
Qed.

Lemma props_of_insert_ne h l o v :
  v ≠ VRef l → props_of (<[l := o]> h) v = props_of h v.
Proof.
  intros Hne. destruct v; try done. simpl.
  rewrite lookup_insert_ne; [done|congruence].
Qed.

Lemma plain_meta_insert_ne h l o v :
  v ≠ VRef l → plain_meta (<[l := o]> h) v = plain_meta h v.
Proof. intros Hne. unfold plain_meta. by rewrite props_of_insert_ne. Qed.

(** [cascadeMetadata] leaves every other object as it is, and gives the
    receiver a metadata object made for it, without a field named
    [hasOwnProperty] or [__proto__]: the merge of the parent's metadata and
    its own, when neither has such a field.  When one has, the call may
    stop, with a TypeError or at a step outside the model, having written
    to the new object only. *)
Lemma wpo_cascade r c psr pm h (Q : val → heap → Prop) E :
  h !! r = Some (Obj c psr) →
  val_live h pm →
  val_live h (default VUndef (psr !! "_metadata")) →
  (∀ h' psr',
     (∀ l, l ≠ r → is_Some (h !! l) → h' !! l = h !! l) →
     h' !! r = Some (Obj c psr') →
     (∀ k, k ≠ "_metadata" → psr' !! k = psr !! k) →
     val_live h' (default VUndef (psr' !! "_metadata")) →
     plain_meta h' (default VUndef (psr' !! "_metadata")) = true →
     (plain_meta h pm = true →
      plain_meta h (default VUndef (psr !! "_metadata")) = true →
      meta_props h' (default VUndef (psr' !! "_metadata"))
      = merge_meta (meta_props h pm)
          (meta_props h (default VUndef (psr !! "_metadata")))) →
     (default VUndef (psr' !! "_metadata") = VUndef
      ∨ ∃ lm, default VUndef (psr' !! "_metadata") = VRef lm
              ∧ h !! lm = None) →
     Q (VRef r) h') →
  (∀ x h', x = AError "TypeError" ∨ (∃ step, x = ABeyond step) →
     plain_meta h pm && plain_meta h (default VUndef (psr !! "_metadata"))
     = false →
     h ⊆ h' →
     E x h') →
  wpo (Affordance.cascadeMetadata (VRef r) pm) h Q E.
Proof.
  intros Hr Hpm Hcm HQ HE. unfold Affordance.cascadeMetadata.
  apply wpo_bind, wpo_wp.
  eapply (wp_get_prop_obj _ _ _ _ (default VUndef (psr !! "_metadata")));
    [done..|].
  set (cm := default VUndef (psr !! "_metadata")) in *.
  apply wpo_bind.
  destruct (is_object pm || is_object cm) eqn:Hany.
  - apply wpo_wp, wp_alloc. intros lm Hlm.
    apply not_elem_of_dom in Hlm as Hlmn.
    assert (lm ≠ r) as Hlmr by (intros ->; congruence).
    assert (pm ≠ VRef lm) as Hpmlm.
    { intros ->. simpl in Hpm. destruct Hpm. congruence. }
    assert (cm ≠ VRef lm) as Hcmlm.
    { intros Heq. rewrite Heq in Hcm. simpl in Hcm. destruct Hcm. congruence. }
    assert (∀ pi, h ⊆ <[lm := Obj CObject pi]> h) as Hsub
      by (intros; by apply insert_subseteq).
    apply wpo_bind.
    apply wpo_copy_if_object with CObject ∅;
      [apply lookup_insert_eq|done|done| |].
    2: { intros x pi Hx Hbad. rewrite insert_insert_eq.
         rewrite plain_meta_insert_ne in Hbad by done.
         apply HE; [done| |done]. by rewrite Hbad. }
    intros p1 Hp1 Hcopy1. rewrite insert_insert_eq.
    rewrite plain_meta_insert_ne, props_of_insert_ne in Hcopy1 by done.
    apply wpo_bind.
    eapply wpo_copy_if_object; [apply lookup_insert_eq|done|done| |].
    2: { intros x pi Hx Hbad. rewrite insert_insert_eq.
         rewrite plain_meta_insert_ne in Hbad by done.
         apply HE; [done| |done]. rewrite Hbad. apply andb_false_r. }
    intros p2 Hp2 Hcopy2. rewrite insert_insert_eq.
    rewrite plain_meta_insert_ne, props_of_insert_ne in Hcopy2 by done.
    apply wpo_bind, wpo_wp.
    eapply wp_set_prop; [by rewrite lookup_insert_ne|].
    apply wpo_ret.
    apply (HQ _ (<["_metadata" := VRef lm]> psr)).
    + intros l Hl [o Ho]. rewrite lookup_insert_ne by done.
      rewrite lookup_insert_ne; [done|]. intros ->. congruence.
    + apply lookup_insert_eq.
    + intros k Hk. by rewrite lookup_insert_ne.
    + rewrite lookup_insert_eq. simpl.
      rewrite lookup_insert_ne by done. rewrite lookup_insert_eq. eauto.
    + rewrite lookup_insert_eq. cbn [default from_option Datatypes.id].
      unfold plain_meta, props_of.
      rewrite lookup_insert_ne by done. by rewrite lookup_insert_eq.
    + intros Hplainp Hplainc.
      rewrite lookup_insert_eq. simpl. unfold meta_props at 1. simpl.
      rewrite lookup_insert_ne by done. rewrite lookup_insert_eq. simpl.
      rewrite (Hcopy2 Hplainc), (Hcopy1 Hplainp), (right_id_L ∅ (∪)).
      unfold meta_props, merge_meta.
      destruct (is_object pm) eqn:Hp, (is_object cm) eqn:Hc; simpl;
        try done.
      * by rewrite (props_of_not_object h cm).
      * by rewrite (props_of_not_object h pm).
    + rewrite lookup_insert_eq. simpl. right. by exists lm.
  - apply orb_false_elim in Hany as [Hp Hc].
    apply wpo_ret. rewrite Hp, Hc. cbv iota.
    apply wpo_wp. repeat wp_step.
    apply (HQ _ (<["_metadata" := VUndef]> psr)).
    + intros l Hl _. by rewrite lookup_insert_ne.
    + apply lookup_insert_eq.
    + intros k Hk. by rewrite lookup_insert_ne.
    + by rewrite lookup_insert_eq.
    + by rewrite lookup_insert_eq.
    + intros _ _. rewrite lookup_insert_eq. simpl.
      unfold meta_props. by rewrite Hp, Hc.
    + rewrite lookup_insert_eq. simpl. by left.
Qed.


(** With metadata that has no field named [hasOwnProperty] or [__proto__]
    the cascade returns. *)
Lemma wp_cascade r c psr pm h Q :
  h !! r = Some (Obj c psr) →
  val_live h pm →
  val_live h (default VUndef (psr !! "_metadata")) →
  plain_meta h pm = true →
  plain_meta h (default VUndef (psr !! "_metadata")) = true →
  (∀ h' psr',
     (∀ l, l ≠ r → is_Some (h !! l) → h' !! l = h !! l) →
     h' !! r = Some (Obj c psr') →
     (∀ k, k ≠ "_metadata" → psr' !! k = psr !! k) →
     val_live h' (default VUndef (psr' !! "_metadata")) →
     meta_props h' (default VUndef (psr' !! "_metadata"))
     = merge_meta (meta_props h pm)
         (meta_props h (default VUndef (psr !! "_metadata"))) →
     (default VUndef (psr' !! "_metadata") = VUndef
      ∨ ∃ lm, default VUndef (psr' !! "_metadata") = VRef lm
              ∧ h !! lm = None) →
     Q (VRef r) h') →
  wp (Affordance.cascadeMetadata (VRef r) pm) h Q.
Proof.
  intros Hr Hpm Hcm Hpp Hpc HQ. apply wp_wpo.
  eapply wpo_cascade; [done..| |].
  - intros h' psr' ? ? ? ? _ Hmeta ?. apply (HQ h' psr'); try done.
    by apply Hmeta.
  - intros x h' _ Hbad _. by rewrite Hpp, Hpc in Hbad.
Qed.

(** ** [copyAffordanceById] *)

Lemma for_in_values_array h v xs :
  array_elems h v = Some xs → for_in_values h v = xs.
Proof.
  destruct v; try done. simpl. destruct (h !! l) as [[]|]; try done.
  by intros [= ->].
Qed.

Lemma optional_live h v :
  undefined_or (live_object h) v = true → val_live h v.
Proof.
  intros [->|Hv]%undefined_or_true; [done|].
  destruct v; try done. simpl in *. by apply bool_decide_eq_true in Hv.
Qed.



Lemma wf_tree_root h t :
  wf_tree h t = true →
  ∃ ps, h !! root t = Some (Obj (node_class t) ps)
        ∧ val_live h (prop h (VRef (root t)) "_metadata").
Proof.
  destruct t as [l|l kids].
  - simpl. unfold affordance_ok. intros H.
    repeat (apply andb_prop in H as [H ?]).
    destruct (instanceOf_live _ _ _ H) as (? & ps & [= <-] & Hl).
    exists ps. split; [done|]. by apply optional_live.
  - intros (H & _)%wf_tree_node. unfold affordances_ok in H.
    repeat (apply andb_prop in H as [H ?]).
    destruct (instanceOf_live _ _ _ H) as (? & ps & [= <-] & Hl).
    exists ps. split; [done|]. by apply optional_live.
Qed.


Lemma node_class_cases t :
  node_class t = CAffordance ∨ node_class t = CAffordances.
Proof. destruct t; auto. Qed.






Lemma for_until_cons {A B} (body : A → M (option B)) x xs :
  for_until body (x :: xs)
  = (r ← body x;
     match r with
     | Some b => mret (Some b)
     | None => for_until body xs
     end).
Proof. reflexivity. Qed.





(** ** The search order and the merged metadata *)

Lemma strict_eq_true a b : strict_eq a b = true ↔ a = b.
Proof. apply bool_decide_eq_true. Qed.

Lemma strict_eq_false a b : strict_eq a b = false ↔ a ≠ b.
Proof. apply bool_decide_eq_false. Qed.

Lemma elem_of_descendants d l kids :
  d ∈ descendants (Node l kids)
  ↔ ∃ k, k ∈ kids ∧ (d = k ∨ d ∈ descendants k).
Proof.
  cbn [descendants]. rewrite list_elem_of_In, in_flat_map. split.
  - intros (k & Hk & Hd). exists k. rewrite list_elem_of_In. split; [done|].
    destruct Hd as [->|Hd]; [by left|right]. by apply list_elem_of_In.
  - intros (k & Hk & Hd). exists k. rewrite <-list_elem_of_In. split; [done|].
    destruct Hd as [->|Hd]; [by left|right]. by apply list_elem_of_In.
Qed.

(** What the search finds has the id, lies below the root, and comes with
    the collections on its way up. *)
Lemma find_below_Some h id t :
  ∀ m ancs,
    find_below h id t = Some (m, ancs) →
    path_up t ancs m ∧ m ∈ descendants t
    ∧ prop h (VRef (root m)) "_id" = id.
Proof.
  induction t as [l|l kids IH] using tree_ind_kids; intros m ancs; [done|].
  cbn [find_below]. rewrite elem_of_descendants.
  assert (∀ k, k ∈ kids → k ∈ kids) as Hin by done. revert Hin.
  generalize kids at 1 3 as ks.
  intros ks Hin. induction ks as [|k ks IHks]; [done|].
  cbn [find_in].
  destruct (strict_eq (prop h (VRef (root k)) "_id") id) eqn:Heq.
  - intros [= <- <-]. apply strict_eq_true in Heq.
    assert (k ∈ kids) by (apply Hin; left).
    split; [by constructor|]. split; [|done]. exists k. auto.
  - assert (k ∈ kids) as Hk by (apply Hin; left).
    rewrite Forall_forall in IH. specialize (IH k Hk).
    destruct (find_below h id k) as [[m' ancs']|].
    + intros [= <- <-]. destruct (IH _ _ eq_refl) as (Hp & Hd & Hid).
      split; [by eapply path_deeper|]. split; [|done]. exists k. auto.
    + apply IHks. intros k' Hk'. apply Hin. by right.
Qed.

(** The search finds nothing exactly when no node below the root has the
    id. *)
Lemma find_below_None h id t :
  find_below h id t = None
  ↔ ∀ d, d ∈ descendants t → prop h (VRef (root d)) "_id" ≠ id.
Proof.
  induction t as [l|l kids IH] using tree_ind_kids.
  { split; [|done]. intros _ d Hd. by apply elem_of_nil in Hd. }
  cbn [find_below]. setoid_rewrite elem_of_descendants.
  induction IH as [|k ks IHk _ IHks]; cbn [find_in].
  { split; [|done]. intros _ d (k & Hk & _). by apply elem_of_nil in Hk. }
  destruct (strict_eq (prop h (VRef (root k)) "_id") id) eqn:Heq.
  - apply strict_eq_true in Heq. split; [done|]. intros Hno.
    destruct (Hno k); [|done]. exists k. split; [left|by left].
  - apply strict_eq_false in Heq.
    destruct (find_below h id k) as [[m ancs]|] eqn:Hfind.
    + split; [done|]. intros Hno.
      assert (Some (m, ancs) ≠ None) as Hne by done.
      destruct Hne. apply IHk. intros d Hd. apply Hno.
      exists k. split; [left|by right].
    + rewrite IHks. split.
      * intros Hno d (k' & Hk' & Hd). apply elem_of_cons in Hk' as [->|Hk'].
        -- destruct Hd as [->|Hd]; [done|]. by apply IHk.
        -- apply Hno. eauto.
      * intros Hno d (k' & Hk' & Hd). apply Hno. exists k'.
        split; [by right|done].
Qed.







(** ** The lookup cascades the metadata *)



(** C1: the lookup of the example, with the metadata of the root
    [{a: 1, hasOwnProperty: 1}], does not return the copy with the merged
    metadata: it throws a TypeError.  The tree is one of Affordances and
    Affordance nodes that holds the node ['L']; the cascade calls
    [parentMeta.hasOwnProperty(meta)], and what the metadata of the root
    has under that name is the number 1. *)
Theorem lookup_throws_on_own_hasOwnProperty :
  wf_tree heap_own_method tree_nested = true
  ∧ Leaf 7%positive ∈ descendants tree_nested
  ∧ prop heap_own_method (VRef 7%positive) "_id" = VStr "L"
  ∧ props_of heap_own_method
      (prop heap_own_method (VRef 1%positive) "_metadata")
    = <["hasOwnProperty" := VNum 1]> (<["a" := VNum 1]> ∅)
  ∧ ∃ h', copyAffordanceById 5 (VRef 1%positive) (VStr "L") heap_own_method
          = (h', Exn "TypeError").
Proof.
  split; [vm_compute; reflexivity|].
  split; [cbn; apply list_elem_of_further, list_elem_of_here|].
  split; [vm_compute; reflexivity|].
  split; [vm_compute; reflexivity|].
  eexists. vm_compute. reflexivity.
Qed.

(** ** The lookup leaves the tree as it is *)






(** ** [hasAffordanceWithId] *)

Lemma hasAffordanceWithId_unfold n this id :
  hasAffordanceWithId (S n) this id
  = if typeof id =? "string" then
      affordances ← get_prop this "_affordances";
      xs ← gets (λ h, for_in_values h affordances);
      r ← for_until
            (λ affordance,
               aid ← get_prop affordance "_id";
               if strict_eq aid id then mret (Some (VBool true))
               else
                 nested ← test (λ h, instanceOf CAffordances h affordance);
                 if nested : bool then
                   found ← hasAffordanceWithId n affordance id;
                   if truthy found then mret (Some (VBool true))
                   else mret None
                 else mret None) xs;
      mret (default (VBool false) r)
    else mret (VBool false).
Proof. reflexivity. Qed.

(** With fuel for the depth of the tree, [hasAffordanceWithId] on a
    collection leaves the heap as it is and tells whether the search finds
    a node. *)
Lemma wp_hasAffordanceWithId t :
  ∀ fuel h id (Q : val → heap → Prop),
    wf_tree h t = true →
    node_class t = CAffordances →
    (height t ≤ fuel)%nat →
    typeof id = "string" →
    Q (VBool (bool_decide (is_Some (find_below h id t)))) h →
    wp (hasAffordanceWithId fuel (VRef (root t)) id) h Q.
Proof.
  induction t as [l|l kids IH] using tree_ind_kids;
    intros fuel h id Q Hwf Hclass Hfuel Hid HQ; [done|].
  destruct fuel as [|n]; [simpl in Hfuel; lia|].
  rewrite hasAffordanceWithId_unfold. rewrite Hid. cbv iota.
  change ("string" =? "string") with true. cbv iota.
  destruct (wf_tree_root _ _ Hwf) as (ps & Hl & Hpm).
  change (root (Node l kids)) with l in *.
  change (node_class (Node l kids)) with CAffordances in *.
  apply wf_tree_node in Hwf as (Hok & Harr & Hkids).
  apply wp_bind, wp_get_prop; [by eauto|].
  apply wp_bind, wp_gets.
  rewrite (for_in_values_array _ _ _ Harr).
  apply wp_bind.
  cbn [find_below] in HQ.
  assert (Forall (λ k, (height k ≤ n)%nat) kids) as Hheights.
  { apply Forall_forall. intros k Hk.
    pose proof (height_kid k kids l Hk). lia. }
  clear Harr Hfuel Hok Hclass.
  match goal with |- wp _ h ?Q' =>
    assert (match find_in (find_below h id) h id l kids with
            | Some _ => Q' (Some (VBool true)) h
            | None => Q' None h
            end) as HQ'
  end.
  { destruct (find_in (find_below h id) h id l kids) as [[m ancs]|];
      by apply wp_ret. }
  clear HQ. revert HQ'.
  match goal with |- _ → wp _ h ?Q' => generalize Q' end.
  intros Q'.
  induction IH as [|k ks IHk _ IHks]; intros HQ'.
  - simpl. by apply wp_ret.
  - apply Forall_cons_1 in Hkids as [Hwk Hkids].
    apply Forall_cons_1 in Hheights as [Hhk Hheights].
    specialize (IHks Hkids Hheights).
    destruct (wf_tree_root _ _ Hwk) as (psk & Hk & _).
    rewrite fmap_cons, for_until_cons.
    cbn [find_in] in HQ'.
    apply wp_bind.
    apply wp_bind, wp_get_prop; [by eauto|].
    destruct (strict_eq (prop h (VRef (root k)) "_id") id) eqn:Heq.
    + apply wp_ret. cbv beta iota. by apply wp_ret.
    + apply wp_bind, wp_test.
      unfold instanceOf. rewrite Hk.
      destruct k as [lk|lk kk]; cbn [node_class];
        [rewrite bool_decide_eq_false_2 by done
        |rewrite bool_decide_eq_true_2 by done]; cbv iota.
      * apply wp_ret. cbv beta iota. cbn [find_below] in HQ'. by apply IHks.
      * apply wp_bind. apply IHk; [done..|].
        destruct (find_below h id (Node lk kk)) as [[m ancs]|].
        -- rewrite bool_decide_eq_true_2 by eauto. cbn [truthy]. cbv iota.
           apply wp_ret. cbv beta iota. by apply wp_ret.
        -- rewrite bool_decide_eq_false_2 by (by intros [? ?]).
           cbn [truthy]. cbv iota. apply wp_ret. cbv beta iota.
           by apply IHks.
Qed.

(** C3: [hasAffordanceWithId(id)] on the root of a tree of Affordances and
    Affordance nodes returns a boolean and leaves the heap as it is.  It
    returns [true] exactly when [id] is a string and a node of the tree, at
    any depth below the root, has that id; so it returns [false] for an id
    that no node has, for a collection without members, and for an [id]
    that is not a string.  (The nodes of the tree are the members of the
    collection and the nodes below them: the id of the receiver itself is
    not looked at.) *)
Theorem hasAffordanceWithId_iff l kids fuel h id :
  wf_tree h (Node l kids) = true →
  (height (Node l kids) ≤ fuel)%nat →
  ∃ b : bool,
    hasAffordanceWithId fuel (VRef l) id h = (h, Val (VBool b))
    ∧ (b = true
       ↔ ∃ s, id = VStr s
              ∧ ∃ d, d ∈ descendants (Node l kids)
                     ∧ prop h (VRef (root d)) "_id" = VStr s)
    ∧ (kids = [] → b = false)
    ∧ (typeof id ≠ "string" → b = false).
Proof.
  intros Hwf Hfuel.
  destruct (decide (typeof id = "string")) as [Hid|Hid].
  - destruct id as [| | | |s| |]; try done.
    destruct (wp_hasAffordanceWithId (Node l kids) fuel h (VStr s)
                (λ v h', h' = h ∧ v = VBool (bool_decide
                   (is_Some (find_below h (VStr s) (Node l kids))))))
      as (v & h' & Hrun & -> & ->); [done..|].
    eexists. split; [exact Hrun|]. rewrite bool_decide_eq_true.
    split; [|split; [|done]].
    + split.
      * intros [[m ancs] Hfind].
        apply find_below_Some in Hfind as (_ & Hm & Hmid). eauto.
      * intros (s' & [= <-] & d & Hd & Hdid).
        destruct (find_below h (VStr s) (Node l kids)) eqn:Hfind; [eauto|].
        rewrite find_below_None in Hfind. by destruct (Hfind d Hd).
    + intros ->. by apply bool_decide_eq_false_2; intros [? ?].
  - exists false. destruct fuel as [|n]; [simpl in Hfuel; lia|].
    rewrite hasAffordanceWithId_unfold.
    replace (typeof id =? "string") with false.
    2: { symmetry. by apply String.eqb_neq. }
    split; [done|]. split; [|done]. split; [done|].
    intros (s & -> & _). by destruct Hid.
Qed.

Lemma hasAffordanceWithId_iff_witness :
  ∃ b : bool,
    hasAffordanceWithId 2 (VRef 1%positive) (VStr "L") heap_nested
    = (heap_nested, Val (VBool b))
    ∧ (b = true
       ↔ ∃ s, VStr "L" = VStr s
              ∧ ∃ d, d ∈ descendants tree_nested
                     ∧ prop heap_nested (VRef (root d)) "_id" = VStr s)
    ∧ ([Node 4%positive [Leaf 7%positive]] = [] → b = false)
    ∧ (typeof (VStr "L") ≠ "string" → b = false).
Proof.
  apply (hasAffordanceWithId_iff 1%positive [Node 4%positive [Leaf 7%positive]]
           2 heap_nested (VStr "L")).
  - vm_compute. reflexivity.
  - cbn. lia.
Defined.

(** ** Reviving an Affordance *)

Lemma affordance_shape_ref h l :
  affordance_shape h (VRef l)
  = (typeof (prop h (VRef l) "_id") =? "string")
    && (typeof (prop h (VRef l) "_method") =? "string")
    && (typeof (prop h (VRef l) "_uri") =? "string").
Proof. reflexivity. Qed.

(** [affordance.revive] on an object with the shape returns a new
    Affordance with the id, method and uri of the object. *)
Lemma wp_Affordance_revive l h Q :
  is_Some (h !! l) →
  affordance_shape h (VRef l) = true →
  (∀ h' r ps',
     h !! r = None →
     h' !! r = Some (Obj CAffordance ps') →
     ps' !! "_id" = Some (prop h (VRef l) "_id") →
     ps' !! "_method" = Some (prop h (VRef l) "_method") →
     ps' !! "_uri" = Some (prop h (VRef l) "_uri") →
     Q (VRef r) h') →
  wp (Affordance.revive (VRef l)) h Q.
Proof.
  intros Hlive Hshape HQ.
  rewrite affordance_shape_ref in Hshape.
  unfold Affordance.revive, Affordance.canRevive.
  change (is_object (VRef l)) with true. cbv iota.
  apply wp_bind.
  do 3 (apply wp_bind, wp_get_prop; [done|]).
  apply wp_ret. rewrite Hshape. cbv iota.
  apply andb_prop in Hshape as [[Hid Hmethod]%andb_prop Huri].
  do 3 (apply wp_bind, wp_get_prop; [done|]).
  apply wp_bind, wp_Affordance_new.
  intros r ls lm Hr Hls Hlm Hrls Hrlm Hlslm.
  rewrite !string_or_empty_string by done.
  assert (l ≠ r) as Hlr by (intros ->; by apply Hr, elem_of_dom).
  assert (l ≠ lm) as Hllm by (intros ->; by apply Hlm, elem_of_dom).
  assert (l ≠ ls) as Hlls by (intros ->; by apply Hls, elem_of_dom).
  apply not_elem_of_dom in Hr as Hrn.
  set (hb := <[lm := Obj CObject (<["*" := VRef ls]> ∅)]>
               (<[ls := Arr [prop h (VRef l) "_id"]]> h)).
  assert (∀ o, is_Some (<[r := o]> hb !! l)) as Hl1.
  { intros o. destruct Hlive as [o' Ho']. exists o'.
    unfold hb. by rewrite !lookup_insert_ne. }
  apply wp_bind, wp_get_prop; [done|].
  apply wp_bind.
  eapply (wp_call_setter Affordance_setRelation); [apply lookup_insert_eq|].
  rewrite insert_insert_eq.
  apply wp_bind, wp_get_prop; [done|].
  apply wp_bind.
  eapply (wp_call_setter Affordance_setMetadata); [apply lookup_insert_eq|].
  rewrite insert_insert_eq.
  match goal with |- wp _ (<[r := Obj _ ?m]> _) _ => set (ps0 := m) end.
  assert (ps0 !! "_controls" = None) as Hps0 by reflexivity.
  apply wp_bind, wp_get_prop; [done|].
  apply wp_bind, wp_gets.
  apply wp_bind.
  assert (∀ hf,
    (∃ ola xs', building hf r CAffordance ps0 ola xs') →
    wp (mret (VRef r) : M val) hf Q) as Hend.
  { intros hf (ola & xs' & Hb). apply wp_ret.
    destruct ola as [la|]; simpl in Hb; destruct Hb as [Hb1 Hb2].
    - by apply (HQ _ _ (<["_controls" := VRef la]> ps0)).
    - by apply (HQ _ _ ps0). }
  assert (building (<[r := Obj CAffordance ps0]> hb) r CAffordance ps0 None [])
    as Hstart.
  { split; [done|]. apply lookup_insert_eq. }
  destruct (array_elems _ _) as [xs|].
  2: { apply wp_ret. apply Hend. eauto. }
  apply (wp_for_each _ xs (λ _ hi,
           ∃ ola xs', building hi r CAffordance ps0 ola xs')).
  - eauto.
  - intros dn x rest hi _ (ola & xs' & Hb).
    apply wp_bind. eapply wp_addInput; [exact Hps0|exact Hb|].
    intros h' la _ _ _ Hb' _. apply wp_ret. eauto.
  - intros hf Hb. by apply Hend.
Qed.

(** ** The order of the reviver *)

Lemma bind_run {A B} (m : M A) (f : A → M B) h :
  (m ≫= f) h
  = match m h with
    | (h', Val a) => f a h'
    | (h', Exn e) => (h', Exn e)
    | (h', Thrown v) => (h', Thrown v)
    | (h', Beyond step) => (h', Beyond step)
    | (h', Fuel) => (h', Fuel)
    end.
Proof. reflexivity. Qed.

Lemma get_prop_run h l o k :
  h !! l = Some o → get_prop (VRef l) k h = (h, Val (prop h (VRef l) k)).
Proof. intros Ho. unfold get_prop, prop. by rewrite Ho. Qed.

Lemma Affordance_canRevive_run h v :
  val_live h v →
  Affordance.canRevive v h = (h, Val (affordance_shape h v)).
Proof.
  unfold Affordance.canRevive, affordance_shape.
  destruct (is_object v) eqn:Hobj; [|done].
  apply is_object_ref in Hobj as [l ->]. intros [o Ho].
  repeat (rewrite bind_run, (get_prop_run _ _ _ _ Ho); cbv beta iota).
  reflexivity.
Qed.

Lemma Input_canRevive_run h v :
  val_live h v →
  Input.canRevive v h = (h, Val (input_min_shape h v)).
Proof.
  unfold Input.canRevive, input_min_shape.
  destruct (is_object v) eqn:Hobj; [|done].
  apply is_object_ref in Hobj as [l ->]. intros [o Ho].
  repeat (rewrite bind_run, (get_prop_run _ _ _ _ Ho); cbv beta iota).
  reflexivity.
Qed.

Lemma Affordances_canRevive_run h v :
  val_live h v →
  Affordances.canRevive v h = (h, Val (affordances_shape h v)).
Proof.
  unfold Affordances.canRevive, affordances_shape.
  destruct (is_object v) eqn:Hobj; [|done].
  apply is_object_ref in Hobj as [l ->]. intros [o Ho].
  repeat (rewrite bind_run, (get_prop_run _ _ _ _ Ho); cbv beta iota).
  reflexivity.
Qed.

(** C5: the reviver tries the shapes in the order Affordance, Input,
    Affordances, and revives a value with the [revive] of the first shape
    it has; a value with none of them is returned as it is.  So an object
    whose id, method and uri are strings is revived by [affordance.revive]
    whatever else it holds, an array of [_affordances] included: what comes
    back is a new Affordance with that id, method and uri, and not an
    Affordances. *)
Theorem reviver_prefers_affordance key value h :
  val_live h value →
  Naval.navalJsonReviver key value h
  = (if affordance_shape h value then Affordance.revive value h
     else if input_min_shape h value then Input.revive value h
     else if affordances_shape h value then Affordances.revive value h
     else (h, Val value))
  ∧ (affordance_shape h value = true →
     ∃ r h',
       Naval.navalJsonReviver key value h = (h', Val (VRef r))
       ∧ h !! r = None
       ∧ Affordance.isPrototypeOf h' (VRef r) = true
       ∧ Affordances.isPrototypeOf h' (VRef r) = false
       ∧ prop h' (VRef r) "_id" = prop h value "_id"
       ∧ prop h' (VRef r) "_method" = prop h value "_method"
       ∧ prop h' (VRef r) "_uri" = prop h value "_uri").
Proof.
  intros Hlive.
  assert (Naval.navalJsonReviver key value h
          = (if affordance_shape h value then Affordance.revive value h
             else if input_min_shape h value then Input.revive value h
             else if affordances_shape h value
                  then Affordances.revive value h
                  else (h, Val value))) as Hrun.
  { unfold Naval.navalJsonReviver.
    destruct (is_object value) eqn:Hobj.
    - rewrite bind_run, Affordance_canRevive_run by done.
      destruct (affordance_shape h value); [done|].
      rewrite bind_run, Input_canRevive_run by done.
      destruct (input_min_shape h value); [done|].
      rewrite bind_run, Affordances_canRevive_run by done.
      by destruct (affordances_shape h value).
    - unfold affordance_shape, input_min_shape, affordances_shape.
      by rewrite Hobj. }
  split; [done|]. intros Hshape. rewrite Hrun, Hshape.
  assert (∃ l, value = VRef l) as [l ->].
  { apply is_object_ref. unfold affordance_shape in Hshape.
    by destruct (is_object value). }
  destruct (wp_Affordance_revive l h
              (λ v h', ∃ r ps', v = VRef r ∧ h !! r = None
                 ∧ h' !! r = Some (Obj CAffordance ps')
                 ∧ ps' !! "_id" = Some (prop h (VRef l) "_id")
                 ∧ ps' !! "_method" = Some (prop h (VRef l) "_method")
                 ∧ ps' !! "_uri" = Some (prop h (VRef l) "_uri")))
    as (v & h' & Hrev & r & ps' & -> & Hnew & Hr & Hid & Hmethod & Huri);
    [done..| |].
  { intros h' r ps' ? ? ? ? ?. by exists r, ps'. }
  exists r, h'. split; [done|]. split; [done|].
  unfold Affordance.isPrototypeOf, Affordances.isPrototypeOf, instanceOf.
  rewrite !(prop_lookup _ _ _ _ _ Hr), Hr, Hid, Hmethod, Huri.
  repeat split; try done.
Qed.

(** The object [{_id: 'x', _method: 'GET', _uri: '/x', _affordances: []}]
    has both shapes and is revived as an Affordance. *)
Lemma reviver_prefers_affordance_witness :
  affordances_shape heap_both_shapes (VRef 1%positive) = true
  ∧ ∃ r h',
      Naval.navalJsonReviver "" (VRef 1%positive) heap_both_shapes
      = (h', Val (VRef r))
      ∧ Affordance.isPrototypeOf h' (VRef r) = true
      ∧ Affordances.isPrototypeOf h' (VRef r) = false
      ∧ prop h' (VRef r) "_id" = VStr "x".
Proof.
  split; [vm_compute; reflexivity|].
  destruct (reviver_prefers_affordance "" (VRef 1%positive) heap_both_shapes)
    as [_ Hrevived].
  - vm_compute. eexists. reflexivity.
  - destruct Hrevived as (r & h' & Hrun & _ & Hyes & Hno & Hid & _).
    + vm_compute. reflexivity.
    + exists r, h'. repeat split; try done.
Defined.

(** ** Computations that end with a result or an Error *)

Lemma settles_ret {A} (a : A) : settles (mret a).
Proof. by intros h. Qed.

Lemma settles_bind {A B} (m : M A) (f : A → M B) :
  settles m → (∀ a, settles (f a)) → settles (m ≫= f).
Proof.
  intros Hm Hf h. rewrite bind_run. specialize (Hm h).
  destruct (m h) as [h' [a|e|v|step|]]; [apply Hf|done..].
Qed.

Lemma settles_throw {A} msg : settles (throw msg : M A).
Proof. by intros h. Qed.

Lemma settles_gets {A} (f : heap → A) : settles (gets f).
Proof. by intros h. Qed.

Lemma settles_test f : settles (test f).
Proof. by intros h. Qed.

Lemma settles_alloc o : settles (alloc o).
Proof. by intros h. Qed.

Lemma settles_get_prop v k : settles (get_prop v k).
Proof. intros h. unfold get_prop. destruct v; try done. by destruct (h !! l). Qed.

Lemma settles_set_prop v k x : settles (set_prop v k x).
Proof.
  intros h. unfold set_prop. destruct v; try done.
  by destruct (h !! l) as [[]|].
Qed.

Lemma settles_push v x : settles (push v x).
Proof.
  intros h. unfold push. destruct v; try done.
  by destruct (h !! l) as [[]|].
Qed.

Lemma settles_for_each {A} (body : A → M ()) xs :
  (∀ x, settles (body x)) → settles (for_each body xs).
Proof.
  intros Hbody. induction xs as [|x xs IH]; cbn [for_each].
  - apply settles_ret.
  - by apply settles_bind.
Qed.

Ltac settles_step :=
  lazymatch goal with
  | |- settles (mbind _ _) => apply settles_bind; [|intros ?]
  | |- settles (mret _) => apply settles_ret
  | |- settles (throw _) => apply settles_throw
  | |- settles (gets _) => apply settles_gets
  | |- settles (test _) => apply settles_test
  | |- settles (alloc _) => apply settles_alloc
  | |- settles (get_prop _ _) => apply settles_get_prop
  | |- settles (set_prop _ _ _) => apply settles_set_prop
  | |- settles (push _ _) => apply settles_push
  | |- settles (for_each _ _) => apply settles_for_each; intros ?
  | |- settles (if ?b then _ else _) => destruct b
  | |- settles (match ?x with Some _ => _ | None => _ end) => destruct x
  end.

Ltac settles_go := repeat settles_step.

Lemma settles_Input_revive v : settles (Input.revive v).
Proof.
  unfold Input.revive, Input.canRevive, Input.set_all_from, Input.new,
    Input.setId, Input.setValue, Input.setAccept, Input.setRequired,
    Input.setLabel, Input.setHidden, Input.setReadonly,
    Input.setValueOptions, Input.setRegExp.
  settles_go.
Qed.

Lemma settles_Affordance_revive v : settles (Affordance.revive v).
Proof.
  unfold Affordance.revive, Affordance.canRevive, Affordance.new,
    Affordance.setRelation, Affordance.setMetadata.
  settles_go; unfold Affordance.addInput; settles_go.
Qed.

Lemma settles_Affordances_revive v : settles (Affordances.revive v).
Proof.
  unfold Affordances.revive, Affordances.canRevive, Affordances.new,
    Affordances.setId, Affordances.setMetadata.
  settles_go; unfold Affordances.addAffordance; settles_go.
Qed.

Lemma settles_navalJsonReviver key v : settles (Naval.navalJsonReviver key v).
Proof.
  unfold Naval.navalJsonReviver.
  destruct (is_object v); [|apply settles_ret].
  apply settles_bind.
  { unfold Affordance.canRevive. settles_go. }
  intros [|]; [apply settles_Affordance_revive|].
  apply settles_bind.
  { unfold Input.canRevive. settles_go. }
  intros [|]; [apply settles_Input_revive|].
  apply settles_bind.
  { unfold Affordances.canRevive. settles_go. }
  intros [|]; [apply settles_Affordances_revive|apply settles_ret].
Qed.

(** The walk of [JSON.parse] is by recursion on the parsed text. *)
Lemma settles_internalize reviver :
  (∀ key v, settles (reviver key v)) →
  ∀ j key, settles (Naval.internalize reviver key j).
Proof.
  intros Hrev. fix IH 1.
  intros [|b|n|s|items|members] key; cbn [Naval.internalize];
    try apply Hrev.
  - apply settles_bind.
    + generalize 0%nat.
      induction items as [|x rest IHrest]; intros i.
      * apply settles_ret.
      * apply settles_bind; [apply IH|]. intros v.
        apply settles_bind; [apply IHrest|]. intros vs. apply settles_ret.
    + intros vs. apply settles_bind; [apply settles_alloc|].
      intros holder. apply Hrev.
  - apply settles_bind.
    + generalize (∅ : gmap string val).
      induction members as [|[k x] rest IHrest]; intros ps.
      * apply settles_ret.
      * apply settles_bind; [apply IH|]. intros v. apply IHrest.
    + intros ps. apply settles_bind; [apply settles_alloc|].
      intros holder. apply Hrev.
Qed.
(** ** Decoding *)

Section Decode.

Variable JSON_grammar : string → option json.
Variable ToString : val → M string.

(** After the conversion of its argument, [JSON.parse] with the reviver
    returns or throws an Error. *)
Lemma JSON_parse_run text h :
  Naval.JSON_parse JSON_grammar ToString text Naval.navalJsonReviver h
  = match Naval.to_source ToString text h with
    | (h0, Val s) =>
        match JSON_grammar s with
        | Some j => Naval.internalize Naval.navalJsonReviver "" j h0
        | None => (h0, Exn "SyntaxError")
        end
    | (h0, Exn e) => (h0, Exn e)
    | (h0, Thrown v) => (h0, Thrown v)
    | (h0, Beyond step) => (h0, Beyond step)
    | (h0, Fuel) => (h0, Fuel)
    end.
Proof.
  unfold Naval.JSON_parse. rewrite bind_run.
  destruct (Naval.to_source ToString text h) as [h0 [s|e|v|step|]]; try done.
  by destruct (JSON_grammar s).
Qed.

Lemma catchable_JSON_parse text h :
  catchable (Naval.to_source ToString text h) →
  match Naval.JSON_parse JSON_grammar ToString text Naval.navalJsonReviver h
  with
  | (h1, Val _) | (h1, Exn _) => True
  | (h1, Thrown v) => v ≠ VNull ∧ v ≠ VUndef ∧ val_live h1 v
  | _ => False
  end.
Proof.
  intros Hc. rewrite JSON_parse_run. unfold catchable in Hc.
  destruct (Naval.to_source ToString text h) as [h0 [s|e|v|step|]];
    try done.
  destruct (JSON_grammar s) as [j|]; [|done].
  pose proof (settles_internalize Naval.navalJsonReviver
                settles_navalJsonReviver j "" h0) as Hs.
  by destruct (Naval.internalize Naval.navalJsonReviver "" j h0)
    as [h1 [v|e|w|step|]].
Qed.

(** X19: the decode delegate, given a string, or another value whose
    conversion to a string (which [JSON.parse] does first) returns, throws
    an Error or throws any value but [null] and [undefined], returns a
    value: no exception leaves it, whatever the parse or the reviver does.
    The value is [null] or a revived Affordance or Affordances.  It is
    [null] when the text is not in the grammar of JSON, when [JSON.parse]
    throws for any other reason, and when [JSON.parse] returns a value that
    is neither an Affordance nor an Affordances; otherwise it is the value
    [JSON.parse] returned. *)
Theorem decode_never_throws text h :
  catchable (Naval.to_source ToString text h) →
  ∃ v h',
    Naval.shouldDecodeDelegate JSON_grammar ToString text h = (h', Val v)
    ∧ (v = VNull
       ∨ (Affordance.isPrototypeOf h' v || Affordances.isPrototypeOf h' v)
         = true)
    ∧ (∀ h0 s, Naval.to_source ToString text h = (h0, Val s) →
         JSON_grammar s = None → v = VNull ∧ h' = h0)
    ∧ (∀ h1 e,
         Naval.JSON_parse JSON_grammar ToString text Naval.navalJsonReviver h
         = (h1, Exn e) → v = VNull ∧ h' = h1)
    ∧ (∀ h1 x,
         Naval.JSON_parse JSON_grammar ToString text Naval.navalJsonReviver h
         = (h1, Thrown x) → v = VNull ∧ h' = h1)
    ∧ (∀ h1 object,
         Naval.JSON_parse JSON_grammar ToString text Naval.navalJsonReviver h
         = (h1, Val object) →
         h' = h1
         ∧ v = if Affordance.isPrototypeOf h1 object
                   || Affordances.isPrototypeOf h1 object
                then object else VNull).
Proof.
  intros Hc.
  pose proof (catchable_JSON_parse text h Hc) as Hparse.
  assert (∀ h0 s, Naval.to_source ToString text h = (h0, Val s) →
            JSON_grammar s = None →
            Naval.JSON_parse JSON_grammar ToString text
              Naval.navalJsonReviver h = (h0, Exn "SyntaxError")) as Hsyntax.
  { intros h0 s Hsrc Hnone. by rewrite JSON_parse_run, Hsrc, Hnone. }
  unfold Naval.shouldDecodeDelegate, try_catch. rewrite bind_run.
  destruct (Naval.JSON_parse JSON_grammar ToString text
              Naval.navalJsonReviver h) as [h1 [object|e|x|step|]];
    [| | |done..].
  - rewrite bind_run. unfold test, gets. cbv beta iota.
    destruct (Affordance.isPrototypeOf h1 object
              || Affordances.isPrototypeOf h1 object) eqn:Hnode.
    + exists object, h1. split; [done|]. split; [by right|].
      split; [intros h0 s Hsrc Hnone; by specialize (Hsyntax h0 s Hsrc Hnone)|]. split; [done|].
      split; [done|]. intros ? ? [= <- <-]. by rewrite Hnode.
    + exists VNull, h1. split; [done|]. split; [by left|].
      split; [intros h0 s Hsrc Hnone; by specialize (Hsyntax h0 s Hsrc Hnone)|]. split; [done|].
      split; [done|]. intros ? ? [= <- <-]. by rewrite Hnode.
  - exists VNull, h1. split; [done|]. split; [by left|].
    split; [intros h0 s Hsrc Hnone; by injection (Hsyntax h0 s Hsrc Hnone) as <- _|].
    split; [by intros ? ? [= <-]|]. done.
  - destruct Hparse as (Hnull & Hundef & Hlive).
    exists VNull, h1. split.
    { unfold Naval.message_of. rewrite bind_run. unfold get_prop.
      destruct x as [| | | | | |l]; try done.
      simpl in Hlive. destruct Hlive as [o Ho]. by rewrite Ho. }
    split; [by left|].
    split; [intros h0 s Hsrc Hnone; by specialize (Hsyntax h0 s Hsrc Hnone)|]. split; [done|].
    split; [by intros ? ? [= <-]|]. done.
Qed.

End Decode.

Lemma decode_never_throws_witness :
  ∃ v h',
    Naval.shouldDecodeDelegate grammar_form engine_ToString (VStr "{") ∅
    = (h', Val v)
    ∧ (v = VNull
       ∨ (Affordance.isPrototypeOf h' v || Affordances.isPrototypeOf h' v)
         = true)
    ∧ (∀ h0 s, Naval.to_source engine_ToString (VStr "{") ∅ = (h0, Val s) →
         grammar_form s = None → v = VNull ∧ h' = h0)
    ∧ (∀ h1 e,
         Naval.JSON_parse grammar_form engine_ToString (VStr "{")
           Naval.navalJsonReviver ∅
         = (h1, Exn e) → v = VNull ∧ h' = h1)
    ∧ (∀ h1 x,
         Naval.JSON_parse grammar_form engine_ToString (VStr "{")
           Naval.navalJsonReviver ∅
         = (h1, Thrown x) → v = VNull ∧ h' = h1)
    ∧ (∀ h1 object,
         Naval.JSON_parse grammar_form engine_ToString (VStr "{")
           Naval.navalJsonReviver ∅
         = (h1, Val object) →
         h' = h1
         ∧ v = if Affordance.isPrototypeOf h1 object
                   || Affordances.isPrototypeOf h1 object
                then object else VNull).
Proof.
  apply (decode_never_throws grammar_form engine_ToString (VStr "{") ∅).
  exact I.
Defined.

(** C6: the decode delegate, given an object whose [toString] throws
    [null], does not return [null]: a TypeError leaves it.  [JSON.parse]
    converts the argument to a string, which runs that [toString]; the
    [catch] clause receives [null] and evaluates [e.message]. *)
Theorem decode_throws_when_toString_throws_null :
  Naval.shouldDecodeDelegate grammar_form throws_null (VRef 1%positive)
    heap_hostile
  = (heap_hostile, Exn "TypeError").
Proof. reflexivity. Qed.

(** * Further properties of the code

    ** The search and the lookup agree *)



(** ** The children of a collection *)

Lemma not_in_array_spec x xs : not_in_array x xs = true ↔ x ∉ xs.
Proof.
  unfold not_in_array. rewrite forallb_forall. split.
  - intros Hall Hin. apply list_elem_of_In in Hin.
    specialize (Hall x Hin). apply negb_true_iff in Hall.
    by apply strict_eq_false in Hall.
  - intros Hnot y Hy. apply negb_true_iff, strict_eq_false.
    intros ->. by apply Hnot, list_elem_of_In.
Qed.

Lemma addAffordance_run l c ps la xs action h :
  h !! l = Some (Obj c ps) →
  ps !! "_affordances" = Some (VRef la) →
  h !! la = Some (Arr xs) →
  Affordances.addAffordance (VRef l) action h
  = (if (Affordance.isPrototypeOf h action
         || Affordances.isPrototypeOf h action)
        && not_in_array action xs
     then <[la := Arr (xs ++ [action])]> h else h, Val (VRef l)).
Proof.
  intros Hl Hps Hla.
  destruct (wp_addAffordance l c ps la xs action h
              (λ v h', v = VRef l
                 ∧ h' = if (Affordance.isPrototypeOf h action
                            || Affordances.isPrototypeOf h action)
                           && not_in_array action xs
                        then <[la := Arr (xs ++ [action])]> h else h))
    as (v & h' & -> & -> & ->); done.
Qed.

(** X2: [addAffordance(action)] appends [action] to the children when it is
    an Affordance or an Affordances that the collection does not hold yet,
    and does nothing otherwise; so a list of children without duplicates
    stays without duplicates, and adding the same value a second time
    changes nothing.  Only the array of children is written. *)
Theorem addAffordance_no_duplicates l c ps la xs action h :
  h !! l = Some (Obj c ps) →
  ps !! "_affordances" = Some (VRef la) →
  h !! la = Some (Arr xs) →
  ∃ h' xs',
    Affordances.addAffordance (VRef l) action h = (h', Val (VRef l))
    ∧ h' !! la = Some (Arr xs')
    ∧ (∀ l', l' ≠ la → h' !! l' = h !! l')
    ∧ xs' = (if (Affordance.isPrototypeOf h action
                 || Affordances.isPrototypeOf h action)
                && bool_decide (action ∉ xs)
             then xs ++ [action] else xs)
    ∧ (NoDup xs → NoDup xs')
    ∧ Affordances.addAffordance (VRef l) action h' = (h', Val (VRef l)).
Proof.
  intros Hl Hps Hla.
  assert (l ≠ la) as Hne by (intros ->; congruence).
  rewrite (addAffordance_run _ _ _ _ _ _ _ Hl Hps Hla).
  assert (not_in_array action xs = bool_decide (action ∉ xs)) as Hnot.
  { destruct (not_in_array action xs) eqn:E.
    - apply not_in_array_spec in E. by rewrite bool_decide_eq_true_2.
    - rewrite bool_decide_eq_false_2; [done|]. intros Hn.
      apply not_in_array_spec in Hn. congruence. }
  rewrite <- Hnot.
  destruct ((Affordance.isPrototypeOf h action
             || Affordances.isPrototypeOf h action)
            && not_in_array action xs) eqn:Hadd.
  - exists (<[la := Arr (xs ++ [action])]> h), (xs ++ [action]).
    split; [done|]. split; [apply lookup_insert_eq|].
    split; [by intros; rewrite lookup_insert_ne|]. split; [done|].
    apply andb_prop in Hadd as [Hnode Hnew]. split.
    + intros Hnd. apply NoDup_app. split; [done|]. split.
      * intros x Hx [->|[]%elem_of_nil]%elem_of_cons.
        by apply not_in_array_spec in Hnew.
      * apply NoDup_singleton.
    + rewrite (addAffordance_run l c ps la (xs ++ [action]));
        [|by rewrite lookup_insert_ne|done|apply lookup_insert_eq].
      replace (not_in_array action (xs ++ [action])) with false.
      { by rewrite andb_false_r. }
      symmetry. apply not_true_iff_false. rewrite not_in_array_spec.
      intros Hn. apply Hn, elem_of_app. right. apply list_elem_of_here.
  - exists h, xs. split; [done|]. split; [done|]. split; [done|].
    split; [done|]. split; [done|].
    rewrite (addAffordance_run _ _ _ _ _ _ _ Hl Hps Hla). by rewrite Hadd.
Qed.

Lemma addAffordance_no_duplicates_witness :
  ∃ h' xs',
    Affordances.addAffordance (VRef 1%positive) (VRef 7%positive) heap_nested
    = (h', Val (VRef 1%positive))
    ∧ h' !! 2%positive = Some (Arr xs')
    ∧ (∀ l', l' ≠ 2%positive → h' !! l' = heap_nested !! l')
    ∧ xs' = (if (Affordance.isPrototypeOf heap_nested (VRef 7%positive)
                 || Affordances.isPrototypeOf heap_nested (VRef 7%positive))
                && bool_decide (VRef 7%positive ∉ [VRef 4%positive])
             then [VRef 4%positive] ++ [VRef 7%positive]
             else [VRef 4%positive])
    ∧ (NoDup [VRef 4%positive] → NoDup xs')
    ∧ Affordances.addAffordance (VRef 1%positive) (VRef 7%positive) h'
      = (h', Val (VRef 1%positive)).
Proof.
  eapply (addAffordance_no_duplicates 1%positive _ _ 2%positive
            [VRef 4%positive] (VRef 7%positive) heap_nested);
    reflexivity.
Defined.

(** ** Children by index *)

Lemma getAffordanceAtIndex_run l c ps la xs i h :
  h !! l = Some (Obj c ps) →
  ps !! "_affordances" = Some (VRef la) →
  h !! la = Some (Arr xs) →
  getAffordanceAtIndex (VRef l) i h
  = (h, Val (if (i >=? Z.of_nat (length xs))%Z || (i <? 0)%Z then VNull
             else default VUndef (xs !! Z.to_nat i))).
Proof.
  intros Hl Hps Hla. unfold getAffordanceAtIndex.
  rewrite bind_run, (get_prop_run _ _ _ _ Hl). cbv beta iota.
  rewrite (prop_lookup _ _ _ _ _ Hl), Hps. cbn [default from_option id].
  rewrite bind_run. unfold array_length. cbn [array_elems]. rewrite Hla.
  cbv beta iota.
  destruct ((i >=? Z.of_nat (length xs))%Z || (i <? 0)%Z) eqn:Hout; [done|].
  apply orb_false_elim in Hout as [_ Hneg].
  unfold array_at, gets. cbn [array_elems]. by rewrite Hla, Hneg.
Qed.

(** X3: [getAffordanceAtIndex(i)] returns the child at position [i] when
    [0 <= i < length], and [null] for every other integer; it changes
    nothing. *)
Theorem getAffordanceAtIndex_bounds l c ps la xs i h :
  h !! l = Some (Obj c ps) →
  ps !! "_affordances" = Some (VRef la) →
  h !! la = Some (Arr xs) →
  ∃ v, getAffordanceAtIndex (VRef l) i h = (h, Val v)
       ∧ ((0 ≤ i < Z.of_nat (length xs))%Z → xs !! Z.to_nat i = Some v)
       ∧ (¬ (0 ≤ i < Z.of_nat (length xs))%Z → v = VNull).
Proof.
  intros Hl Hps Hla. rewrite (getAffordanceAtIndex_run _ _ _ _ _ _ _ Hl Hps Hla).
  eexists. split; [done|].
  destruct (Z.geb_spec i (Z.of_nat (length xs)));
    destruct (Z.ltb_spec i 0); cbn [orb]; try (split; [lia|done]).
  split; [|lia]. intros _.
  destruct (xs !! Z.to_nat i) as [v|] eqn:Hv; [done|].
  apply lookup_ge_None in Hv. lia.
Qed.

Lemma getAffordanceAtIndex_bounds_witness :
  ∃ v, getAffordanceAtIndex (VRef 1%positive) 0 heap_nested
       = (heap_nested, Val v)
       ∧ ((0 ≤ 0 < Z.of_nat (length [VRef 4%positive]))%Z →
          [VRef 4%positive] !! Z.to_nat 0 = Some v)
       ∧ (¬ (0 ≤ 0 < Z.of_nat (length [VRef 4%positive]))%Z → v = VNull).
Proof.
  eapply (getAffordanceAtIndex_bounds 1%positive _ _ 2%positive
            [VRef 4%positive] 0 heap_nested); reflexivity.
Defined.

Lemma getLastAffordance_run l c ps la xs h :
  h !! l = Some (Obj c ps) →
  ps !! "_affordances" = Some (VRef la) →
  h !! la = Some (Arr xs) →
  getLastAffordance (VRef l) h = (h, Val (default VNull (last xs))).
Proof.
  intros Hl Hps Hla. unfold getLastAffordance, Affordances.getCount.
  rewrite !bind_run, (get_prop_run _ _ _ _ Hl). cbv beta iota.
  rewrite (prop_lookup _ _ _ _ _ Hl), Hps. cbn [default from_option id].
  cbn [array_elems]. rewrite Hla. cbv beta iota.
  rewrite (getAffordanceAtIndex_run _ _ _ _ _ _ _ Hl Hps Hla).
  destruct xs as [|x xs _] using rev_ind; [done|].
  rewrite last_snoc, length_app. cbn [length default from_option].
  replace ((Z.of_nat (length xs + 1) - 1 >=? Z.of_nat (length xs + 1))%Z
           || (Z.of_nat (length xs + 1) - 1 <? 0)%Z) with false.
  2: { symmetry. apply orb_false_intro;
         [rewrite Z.geb_leb; apply Z.leb_gt|apply Z.ltb_ge]; lia. }
  replace (Z.to_nat (Z.of_nat (length xs + 1) - 1)) with (length xs) by lia.
  by rewrite lookup_app_r, Nat.sub_diag by lia.
Qed.

(** X4: [getLastAffordance()] returns [null] on a collection without
    children and the last child otherwise; right after [addAffordance(x)]
    has added [x], it returns [x]. *)
Theorem getLastAffordance_after_add l c ps la xs action h :
  h !! l = Some (Obj c ps) →
  ps !! "_affordances" = Some (VRef la) →
  h !! la = Some (Arr xs) →
  getLastAffordance (VRef l) h = (h, Val (default VNull (last xs)))
  ∧ (xs = [] → getLastAffordance (VRef l) h = (h, Val VNull))
  ∧ ((Affordance.isPrototypeOf h action
      || Affordances.isPrototypeOf h action) = true →
     action ∉ xs →
     ∃ h', Affordances.addAffordance (VRef l) action h = (h', Val (VRef l))
           ∧ getLastAffordance (VRef l) h' = (h', Val action)).
Proof.
  intros Hl Hps Hla.
  pose proof (getLastAffordance_run _ _ _ _ _ _ Hl Hps Hla) as Hlast.
  split; [done|]. split; [by intros ->|].
  intros Hnode Hnew.
  assert (l ≠ la) as Hne by (intros ->; congruence).
  rewrite (addAffordance_run _ _ _ _ _ _ _ Hl Hps Hla), Hnode.
  apply not_in_array_spec in Hnew. rewrite Hnew. cbn [andb].
  eexists. split; [done|].
  rewrite (getLastAffordance_run l c ps la (xs ++ [action]));
    [|by rewrite lookup_insert_ne|done|apply lookup_insert_eq].
  by rewrite last_snoc.
Qed.

Lemma getLastAffordance_after_add_witness :
  getLastAffordance (VRef 1%positive) heap_nested
  = (heap_nested, Val (VRef 4%positive))
  ∧ ∃ h', Affordances.addAffordance (VRef 1%positive) (VRef 7%positive)
            heap_nested = (h', Val (VRef 1%positive))
          ∧ getLastAffordance (VRef 1%positive) h'
            = (h', Val (VRef 7%positive)).
Proof.
  destruct (getLastAffordance_after_add 1%positive CAffordances
              (<["_metadata" := VRef 3%positive]>
                 (<["_affordances" := VRef 2%positive]>
                    (<["_id" := VStr "R"]> ∅)))
              2%positive [VRef 4%positive] (VRef 7%positive) heap_nested)
    as (Hlast & _ & Hadd); [reflexivity..|].
  split; [exact Hlast|]. apply Hadd.
  - reflexivity.
  - intros [[=]|[]%elem_of_nil]%elem_of_cons.
Defined.

(** ** Cascading twice *)

Lemma merge_meta_idemp parent child :
  merge_meta parent (merge_meta parent child) = merge_meta parent child.
Proof.
  destruct parent as [p|], child as [c|]; cbn; try done; f_equal.
  - by rewrite <- (assoc_L (∪)), (idemp_L (∪)).
  - by rewrite <- (assoc_L (∪)), (idemp_L (∪)).
  - by rewrite !(right_id_L ∅ (∪)).
Qed.

Lemma cascadeMetadata_run r c psr pm h :
  h !! r = Some (Obj c psr) →
  val_live h pm →
  val_live h (default VUndef (psr !! "_metadata")) →
  plain_meta h pm = true →
  plain_meta h (default VUndef (psr !! "_metadata")) = true →
  ∃ h' psr',
    Affordance.cascadeMetadata (VRef r) pm h = (h', Val (VRef r))
    ∧ (∀ l, l ≠ r → is_Some (h !! l) → h' !! l = h !! l)
    ∧ h' !! r = Some (Obj c psr')
    ∧ (∀ k, k ≠ "_metadata" → psr' !! k = psr !! k)
    ∧ val_live h' (default VUndef (psr' !! "_metadata"))
    ∧ plain_meta h' (default VUndef (psr' !! "_metadata")) = true
    ∧ meta_props h' (default VUndef (psr' !! "_metadata"))
      = merge_meta (meta_props h pm)
          (meta_props h (default VUndef (psr !! "_metadata")))
    ∧ (default VUndef (psr' !! "_metadata") = VUndef
       ∨ ∃ lm, default VUndef (psr' !! "_metadata") = VRef lm
               ∧ h !! lm = None).
Proof.
  intros Hr Hpm Hcm Hpp Hpc.
  destruct (wp_wpo (Affordance.cascadeMetadata (VRef r) pm) h
    (λ v h', ∃ psr', v = VRef r
       ∧ (∀ l, l ≠ r → is_Some (h !! l) → h' !! l = h !! l)
       ∧ h' !! r = Some (Obj c psr')
       ∧ (∀ k, k ≠ "_metadata" → psr' !! k = psr !! k)
       ∧ val_live h' (default VUndef (psr' !! "_metadata"))
       ∧ plain_meta h' (default VUndef (psr' !! "_metadata")) = true
       ∧ meta_props h' (default VUndef (psr' !! "_metadata"))
         = merge_meta (meta_props h pm)
             (meta_props h (default VUndef (psr !! "_metadata")))
       ∧ (default VUndef (psr' !! "_metadata") = VUndef
          ∨ ∃ lm, default VUndef (psr' !! "_metadata") = VRef lm
                  ∧ h !! lm = None)))
    as (v & h' & Hrun & psr' & -> & Hrest).
  { eapply wpo_cascade; [done..| |].
    - intros h' psr' ? ? ? ? ? Hmeta ?. exists psr'.
      repeat split; try done. by apply Hmeta.
    - intros x h' _ Hbad _. by rewrite Hpp, Hpc in Hbad. }
  by exists h', psr'.
Qed.

Lemma meta_props_frame h h' v :
  val_live h v →
  (∀ l, v = VRef l → h' !! l = h !! l) →
  meta_props h' v = meta_props h v.
Proof.
  intros Hlive Hsame. unfold meta_props. destruct (is_object v); [|done].
  destruct v; try done. simpl. by rewrite Hsame.
Qed.

Lemma plain_meta_frame h h' v :
  val_live h v →
  (∀ l, v = VRef l → h' !! l = h !! l) →
  plain_meta h' v = plain_meta h v.
Proof.
  intros Hlive Hsame. unfold plain_meta, props_of.
  destruct v; try done. by rewrite Hsame.
Qed.

(** X5: [cascadeMetadata(parentMeta)], when neither the parent's metadata
    nor the receiver's has a field named [hasOwnProperty] or [__proto__],
    leaves the receiver with a metadata object of its own that holds the
    parent's fields under the receiver's; it writes neither to the parent's
    metadata object nor to the object the receiver held before (the
    receiver itself apart, were it its own metadata).  Cascading the same
    parent a second time changes no field of the metadata. *)
Theorem cascadeMetadata_twice r c psr pm h :
  h !! r = Some (Obj c psr) →
  val_live h pm →
  pm ≠ VRef r →
  val_live h (default VUndef (psr !! "_metadata")) →
  plain_meta h pm = true →
  plain_meta h (default VUndef (psr !! "_metadata")) = true →
  ∃ h1 h2,
    Affordance.cascadeMetadata (VRef r) pm h = (h1, Val (VRef r))
    ∧ Affordance.cascadeMetadata (VRef r) pm h1 = (h2, Val (VRef r))
    ∧ meta_props h1 (prop h1 (VRef r) "_metadata")
      = merge_meta (meta_props h pm)
          (meta_props h (prop h (VRef r) "_metadata"))
    ∧ meta_props h2 (prop h2 (VRef r) "_metadata")
      = meta_props h1 (prop h1 (VRef r) "_metadata")
    ∧ meta_props h2 pm = meta_props h pm
    ∧ (prop h (VRef r) "_metadata" ≠ VRef r →
       meta_props h2 (prop h (VRef r) "_metadata")
       = meta_props h (prop h (VRef r) "_metadata")).
Proof.
  intros Hr Hpm Hne Hcm Hpp Hpc.
  destruct (cascadeMetadata_run r c psr pm h Hr Hpm Hcm Hpp Hpc)
    as (h1 & psr1 & Hrun1 & Hframe1 & Hr1 & Hsame1 & Hlive1 & Hplain1
        & Hmeta1 & Hnew1).
  assert (val_live h1 pm) as Hpm1.
  { destruct pm as [| | | | | |lp]; try done. simpl in *.
    rewrite Hframe1; [done| |done]. intros ->. by apply Hne. }
  assert (meta_props h1 pm = meta_props h pm) as Hpm_same.
  { apply meta_props_frame; [done|]. intros lp ->. simpl in Hpm.
    apply Hframe1; [|done]. intros ->. by apply Hne. }
  assert (plain_meta h1 pm = true) as Hpp1.
  { rewrite <- Hpp. apply plain_meta_frame; [done|]. intros lp ->.
    simpl in Hpm. apply Hframe1; [|done]. intros ->. by apply Hne. }
  destruct (cascadeMetadata_run r c psr1 pm h1 Hr1 Hpm1 Hlive1 Hpp1 Hplain1)
    as (h2 & psr2 & Hrun2 & Hframe2 & Hr2 & Hsame2 & Hlive2 & _
        & Hmeta2 & Hnew2).
  exists h1, h2. split; [done|]. split; [done|].
  rewrite (prop_lookup _ _ _ _ _ Hr), (prop_lookup _ _ _ _ _ Hr1),
    (prop_lookup _ _ _ _ _ Hr2).
  split; [done|]. split.
  { by rewrite Hmeta2, Hmeta1, Hpm_same, merge_meta_idemp. }
  split.
  - rewrite <- Hpm_same. apply meta_props_frame; [done|]. intros lp ->.
    simpl in Hpm1. apply Hframe2; [|done]. intros ->. by apply Hne.
  - set (cm := default VUndef (psr !! "_metadata")) in *.
    intros Hother. transitivity (meta_props h1 cm).
    + apply meta_props_frame.
      * destruct cm as [| | | | | |lc]; try done. simpl in *.
        rewrite Hframe1; [done| |done]. by intros ->.
      * intros lc Hlc. rewrite Hlc in *. simpl in Hcm.
        apply Hframe2; [by intros ->|].
        rewrite Hframe1; [done|by intros ->|done].
    + apply meta_props_frame; [done|]. intros lc Hlc.
      rewrite Hlc in *. simpl in Hcm. apply Hframe1; [by intros ->|done].
Qed.

Lemma cascadeMetadata_twice_witness :
  ∃ h1 h2,
    Affordance.cascadeMetadata (VRef 7%positive) (VRef 6%positive) heap_nested
    = (h1, Val (VRef 7%positive))
    ∧ Affordance.cascadeMetadata (VRef 7%positive) (VRef 6%positive) h1
      = (h2, Val (VRef 7%positive))
    ∧ meta_props h1 (prop h1 (VRef 7%positive) "_metadata")
      = Some (<["a" := VNum 2]> (<["b" := VNum 3]> ∅))
    ∧ meta_props h2 (prop h2 (VRef 7%positive) "_metadata")
      = meta_props h1 (prop h1 (VRef 7%positive) "_metadata").
Proof.
  destruct (cascadeMetadata_twice 7%positive CAffordance
              (<["_metadata" := VRef 10%positive]>
                 (<["_messages" := VRef 9%positive]>
                    (<["_uri" := VStr "/l"]>
                       (<["_method" := VStr "GET"]>
                          (<["_id" := VStr "L"]> ∅)))))
              (VRef 6%positive) heap_nested)
    as (h1 & h2 & Hrun1 & Hrun2 & Hmeta1 & Hmeta2 & _).
  - vm_compute. reflexivity.
  - vm_compute. eexists. reflexivity.
  - discriminate.
  - vm_compute. eexists. reflexivity.
  - vm_compute. reflexivity.
  - vm_compute. reflexivity.
  - exists h1, h2. split; [exact Hrun1|]. split; [exact Hrun2|].
    split; [|exact Hmeta2]. rewrite Hmeta1. vm_compute. reflexivity.
Defined.

(** ** The inputs of an Affordance *)

(** X6: [addInput(control)] makes the array of inputs when the Affordance
    has none, whatever [control] is; it appends [control] when it is an
    Input that the array does not hold yet, and leaves the inputs as they
    are otherwise.  So the inputs stay without duplicates.  Only the
    Affordance (when the array is made) and the array are written. *)
Theorem addInput_controls l c ps xs control h :
  h !! l = Some (Obj c ps) →
  match ps !! "_controls" with
  | None => xs = []
  | Some v => array_elems h v = Some xs
  end →
  ∃ h' la xs',
    Affordance.addInput (VRef l) control h = (h', Val (VRef l))
    ∧ h' !! l = Some (Obj c (<["_controls" := VRef la]> ps))
    ∧ h' !! la = Some (Arr xs')
    ∧ (ps !! "_controls" = None → h !! la = None)
    ∧ (∀ l', l' ≠ l → l' ≠ la → h' !! l' = h !! l')
    ∧ xs' = (if Input.isPrototypeOf h control && bool_decide (control ∉ xs)
             then xs ++ [control] else xs)
    ∧ (NoDup xs → NoDup xs').
Proof.
  intros Hl Hctl.
  set (ps0 := delete "_controls" ps).
  assert (ps0 !! "_controls" = None) as Hps0 by apply lookup_delete_eq.
  assert (∃ ola, building h l c ps0 ola xs
                 ∧ match ola with
                   | Some la => ps !! "_controls" = Some (VRef la)
                   | None => ps !! "_controls" = None
                   end) as (ola & Hb & Hola).
  { destruct (ps !! "_controls") as [v|] eqn:Hv.
    - destruct v as [| | | | | |la]; try done. simpl in Hctl.
      destruct (h !! la) as [[|ys]|] eqn:Hla; try done.
      injection Hctl as ->. exists (Some la). split; [|done].
      split; [|done]. unfold ps0. by rewrite insert_delete_id.
    - exists None. split; [|done]. subst xs. split; [done|].
      unfold ps0. by rewrite delete_id. }
  destruct (wp_addInput l c ps0 ola xs control h
    (λ v h', ∃ la, v = VRef l
       ∧ (ola = None → la ∉ dom h)
       ∧ (∀ la0, ola = Some la0 → la = la0)
       ∧ building h' l c ps0 (Some la)
           (if Input.isPrototypeOf h control && not_in_array control xs
            then xs ++ [control] else xs)
       ∧ (∀ l', l' ≠ l → l' ≠ la → h' !! l' = h !! l')))
    as (v & h' & Hrun & la & -> & Hnew & Hsame & [Hl' Hla'] & Hframe);
    [done..| |].
  { intros h' la ? ? ? ? ?. by exists la. }
  assert (not_in_array control xs = bool_decide (control ∉ xs)) as Hnot.
  { destruct (not_in_array control xs) eqn:E.
    - apply not_in_array_spec in E. by rewrite bool_decide_eq_true_2.
    - rewrite bool_decide_eq_false_2; [done|]. intros Hn.
      apply not_in_array_spec in Hn. congruence. }
  rewrite Hnot in Hla'.
  eexists h', la, _. split; [done|]. split.
  { rewrite Hl'. unfold ps0. by rewrite insert_delete_eq. }
  split; [done|]. split.
  { intros Hnone. destruct ola; [congruence|].
    by apply not_elem_of_dom, Hnew. }
  split; [done|]. split; [done|].
  intros Hnd.
  destruct (Input.isPrototypeOf h control && bool_decide (control ∉ xs))
    eqn:Hadd; [|done].
  apply andb_prop in Hadd as [_ Hout%bool_decide_eq_true].
  apply NoDup_app. split; [done|]. split; [|apply NoDup_singleton].
  by intros x Hx [->|[]%elem_of_nil]%elem_of_cons.
Qed.

Lemma addInput_controls_witness :
  ∃ h' la xs',
    Affordance.addInput (VRef 1%positive) (VNum 5) heap_one_affordance
    = (h', Val (VRef 1%positive))
    ∧ prop h' (VRef 1%positive) "_controls" = VRef la
    ∧ h' !! la = Some (Arr xs')
    ∧ heap_one_affordance !! la = None
    ∧ xs' = [].
Proof.
  destruct (addInput_controls 1%positive CAffordance
              (<["_messages" := VRef 3%positive]>
                 (<["_uri" := VStr "/a"]>
                    (<["_method" := VStr "GET"]>
                       (<["_id" := VStr "a"]> ∅))))
              [] (VNum 5) heap_one_affordance)
    as (h' & la & xs' & Hrun & Hl' & Hla' & Hnew & _ & Hxs & _).
  - vm_compute. reflexivity.
  - reflexivity.
  - exists h', la, xs'. split; [exact Hrun|].
    split; [by rewrite (prop_lookup _ _ _ _ _ Hl'), lookup_insert_eq|].
    split; [exact Hla'|]. split; [by apply Hnew|]. exact Hxs.
Defined.

(** ** Setters that accept *)

(** X7: a setter given an argument of the shape it asks for stores it in
    its field and returns the receiver: the field then reads as the
    argument (through the getter, where the class has one), every other
    property of the receiver reads as before, and no other object
    changes. *)
Theorem setters_install (s : setter) (l : loc) (c : cls)
    (ps : gmap string val) (h : heap) (arg : val) :
  h !! l = Some (Obj c ps) →
  setter_accepts s h arg = true →
  ∃ h', call_setter s (VRef l) arg h = (h', Val (VRef l))
        ∧ prop h' (VRef l) (setter_field s) = arg
        ∧ (∀ k, k ≠ setter_field s → prop h' (VRef l) k = prop h (VRef l) k)
        ∧ class_of h' (VRef l) = class_of h (VRef l)
        ∧ (∀ l', l' ≠ l → h' !! l' = h !! l')
        ∧ (∀ getter, setter_getter s = Some getter →
             getter (VRef l) h' = (h', Val arg)).
Proof.
  intros Hl Hacc. eexists. split; [by apply call_setter_run|].
  rewrite Hacc.
  assert (prop (<[l := Obj c (<[setter_field s := arg]> ps)]> h) (VRef l)
            (setter_field s) = arg) as Hfield.
  { by rewrite prop_insert_eq, lookup_insert_eq. }
  split; [done|]. split.
  { intros k Hk. rewrite prop_insert_eq, (prop_lookup _ _ _ _ _ Hl).
    by rewrite lookup_insert_ne. }
  split. { simpl. by rewrite lookup_insert_eq, Hl. }
  split. { intros l' Hl'. by rewrite lookup_insert_ne. }
  intros getter Hg.
  assert (getter = λ v, get_prop v (setter_field s)) as ->.
  { destruct s; simpl in Hg; try done; by injection Hg as <-. }
  erewrite get_prop_run; [|apply lookup_insert_eq]. by rewrite Hfield.
Qed.

Lemma setters_install_witness :
  ∃ h', call_setter Affordance_setRelation (VRef 1%positive) (VStr "next")
          heap_one_affordance = (h', Val (VRef 1%positive))
        ∧ Affordance.getRelation (VRef 1%positive) h' = (h', Val (VStr "next")).
Proof.
  destruct (setters_install Affordance_setRelation 1%positive CAffordance
              (<["_messages" := VRef 3%positive]>
                 (<["_uri" := VStr "/a"]>
                    (<["_method" := VStr "GET"]>
                       (<["_id" := VStr "a"]> ∅))))
              heap_one_affordance (VStr "next"))
    as (h' & Hrun & _ & _ & _ & _ & Hget).
  - vm_compute. reflexivity.
  - reflexivity.
  - exists h'. split; [exact Hrun|]. by apply Hget.
Defined.

(** ** Copying an Input *)

(** X8: [copy()] on an Input in the state its constructor and setters keep
    returns another Input, a new object, with the same nine fields; every
    object of the heap before the call, the original included, is as it
    was. *)
Theorem Input_copy_same_fields l h :
  input_ok h (VRef l) = true →
  ∃ r h',
    Input.copy (VRef l) h = (h', Val (VRef r))
    ∧ h !! r = None
    ∧ h ⊆ h'
    ∧ copied_input h h' (VRef l) (VRef r).
Proof.
  intros Hok.
  pose proof Hok as [Hin _]%andb_prop.
  destruct (instanceOf_live _ _ _ Hin) as (? & ps & [= <-] & Hl).
  destruct (wp_set_all_from l h
              (λ v h', ∃ r, v = VRef r ∧ h !! r = None
                 ∧ h' = <[r := Obj CInput (input_props_from h (VRef l))]> h))
    as (v & h' & Hrun & r & -> & Hnew & ->); [by eauto| |].
  { intros r Hr. exists r. split; [done|]. split; [|done].
    by apply not_elem_of_dom. }
  exists r, (<[r := Obj CInput (input_props_from h (VRef l))]> h).
  split; [exact Hrun|]. split; [done|].
  assert (h ⊆ <[r := Obj CInput (input_props_from h (VRef l))]> h) as Hsub
    by (by apply insert_subseteq).
  split; [done|].
  apply input_copy_of_copied; [done..|].
  exists r, h. split; [done|]. split; [done|].
  apply lookup_difference_Some. split; [apply lookup_insert_eq|done].
Qed.

Lemma Input_copy_same_fields_witness :
  ∃ r h',
    Input.copy (VRef 1%positive) heap_one_input = (h', Val (VRef r))
    ∧ heap_one_input !! r = None
    ∧ heap_one_input ⊆ h'
    ∧ copied_input heap_one_input h' (VRef 1%positive) (VRef r).
Proof.
  apply (Input_copy_same_fields 1%positive heap_one_input).
  vm_compute. reflexivity.
Defined.

(** ** Reading the message table *)

Section Messages.

Variable inherited : option cls → string → val.

Lemma get_inherited_run lm pm k h :
  h !! lm = Some (Obj CObject pm) →
  get_inherited inherited (VRef lm) k h
  = (h, Val (default (inherited (Some CObject) k) (pm !! k))).
Proof. intros Hlm. unfold get_inherited. by rewrite Hlm. Qed.

(** X9: [getMessage(code)], for a code that names no property of
    [Object.prototype], returns the list the message table binds to
    [code], and the list bound to ['*'] when the table has no entry for
    [code]; it changes nothing.  After [addMessage(code, message)] with a
    non-empty array of strings, [getMessage(code)] returns that array
    ([__proto__], which an object inherits from [Object.prototype], is not
    such a code). *)
Theorem getMessage_after_addMessage l lm ps pm code message h :
  h !! l = Some (Obj CAffordance ps) →
  ps !! "_messages" = Some (VRef lm) →
  h !! lm = Some (Obj CObject pm) →
  inherited (Some CObject) code = VUndef →
  getMessage inherited (VRef l) code h
  = (h, Val (if truthy (default VUndef (pm !! code))
             then default VUndef (pm !! code)
             else default (inherited (Some CObject) "*") (pm !! "*")))
  ∧ (valid_id_list h message = true →
     code ≠ "__proto__" →
     ∃ h', Affordance.addMessage (VRef l) (VStr code) message h
           = (h', Val (VRef l))
           ∧ getMessage inherited (VRef l) code h' = (h', Val message)).
Proof.
  intros Hl Hps Hlm Hcode.
  assert (∀ h1 pm1,
    h1 !! l = Some (Obj CAffordance ps) →
    h1 !! lm = Some (Obj CObject pm1) →
    getMessage inherited (VRef l) code h1
    = (h1, Val (if truthy (default VUndef (pm1 !! code))
                then default VUndef (pm1 !! code)
                else default (inherited (Some CObject) "*") (pm1 !! "*"))))
    as Hget.
  { intros h1 pm1 Hl1 Hlm1. unfold getMessage.
    rewrite bind_run, (get_prop_run _ _ _ _ Hl1). cbv beta iota.
    rewrite (prop_lookup _ _ _ _ _ Hl1), Hps. cbn [default from_option id].
    rewrite bind_run, (get_inherited_run _ _ _ _ Hlm1). cbv beta iota.
    rewrite Hcode.
    destruct (truthy (default VUndef (pm1 !! code))); [done|].
    by rewrite (get_inherited_run _ _ _ _ Hlm1). }
  split; [by apply Hget|].
  intros Hvalid Hproto.
  assert (l ≠ lm) as Hne by (intros ->; congruence).
  rewrite (addMessage_run _ _ _ _ _ _ _ Hl Hps Hlm), Hvalid.
  replace (code =? "__proto__") with false
    by (symmetry; by apply String.eqb_neq).
  cbn [andb]. eexists. split; [done|].
  rewrite (Hget _ (<[code := message]> pm));
    [|by rewrite lookup_insert_ne|apply lookup_insert_eq].
  rewrite lookup_insert_eq. cbn [default from_option id].
  replace (truthy message) with true; [done|].
  unfold valid_id_list in Hvalid. by destruct message.
Qed.

End Messages.

Lemma getMessage_after_addMessage_witness :
  getMessage (λ _ _, VUndef) (VRef 1%positive) "404" heap_one_affordance
  = (heap_one_affordance, Val (VRef 2%positive))
  ∧ ∃ h', Affordance.addMessage (VRef 1%positive) (VStr "404")
            (VRef 2%positive) heap_one_affordance
          = (h', Val (VRef 1%positive))
          ∧ getMessage (λ _ _, VUndef) (VRef 1%positive) "404" h'
            = (h', Val (VRef 2%positive)).
Proof.
  destruct (getMessage_after_addMessage (λ _ _, VUndef) 1%positive 3%positive
              (<["_messages" := VRef 3%positive]>
                 (<["_uri" := VStr "/a"]>
                    (<["_method" := VStr "GET"]>
                       (<["_id" := VStr "a"]> ∅))))
              (<["*" := VRef 2%positive]> ∅) "404" (VRef 2%positive)
              heap_one_affordance) as [Hget Hadd].
  - vm_compute. reflexivity.
  - reflexivity.
  - vm_compute. reflexivity.
  - reflexivity.
  - split; [exact Hget|]. apply Hadd; [vm_compute; reflexivity|done].
Defined.

(** ** Reviving a collection *)

(** [affordances.revive] on an object whose [_affordances] is an array of
    distinct nodes returns a new collection with those children, in a new
    array, and the id and metadata that the setters accept; nothing else
    is written. *)
Lemma wp_Affordances_revive lp la xs h Q :
  is_Some (h !! lp) →
  prop h (VRef lp) "_affordances" = VRef la →
  h !! la = Some (Arr xs) →
  Forall (λ x, (Affordance.isPrototypeOf h x
                || Affordances.isPrototypeOf h x) = true) xs →
  NoDup xs →
  (∀ h' r la' ps',
     h ⊆ h' → h !! r = None → h !! la' = None → r ≠ la' →
     h' !! r = Some (Obj CAffordances ps') →
     default VUndef (ps' !! "_id") = keep_string (prop h (VRef lp) "_id") →
     default VUndef (ps' !! "_metadata")
     = keep_object (prop h (VRef lp) "_metadata") →
     ps' !! "_affordances" = Some (VRef la') →
     h' !! la' = Some (Arr xs) →
     (∀ l', l' ≠ r → l' ≠ la' → h' !! l' = h !! l') →
     Q (VRef r) h') →
  wp (Affordances.revive (VRef lp)) h Q.
Proof.
  intros Hlp Harr Hla Hnodes Hnd HQ.
  unfold Affordances.revive, Affordances.canRevive.
  change (is_object (VRef lp)) with true. cbv iota.
  apply wp_bind. apply wp_bind, wp_get_prop; [done|].
  apply wp_test. rewrite Harr. unfold isArray. cbn [array_elems].
  rewrite Hla. cbv iota.
  apply wp_bind, wp_Affordances_new. intros r la' Hr Hla' Hne.
  cbn [typeof]. change ("undefined" =? "string") with false. cbv iota.
  apply not_elem_of_dom in Hr as Hrn, Hla' as Hla'n.
  assert (lp ≠ r) as Hlpr by (intros ->; destruct Hlp; congruence).
  assert (lp ≠ la') as Hlpla by (intros ->; destruct Hlp; congruence).
  assert (la ≠ r) as Hlar by (intros ->; congruence).
  assert (la ≠ la') as Hlala by (intros ->; congruence).
  set (hb := <[la' := Arr []]> h).
  assert (∀ o k, prop (<[r := o]> hb) (VRef lp) k = prop h (VRef lp) k) as Hp.
  { intros o k. unfold hb. by rewrite !prop_insert_ne. }
  assert (∀ o, is_Some (<[r := o]> hb !! lp)) as Hl1.
  { intros o. unfold hb. by rewrite !lookup_insert_ne. }
  apply wp_bind, wp_get_prop; [done|]. rewrite Hp.
  apply wp_bind.
  eapply (wp_call_setter Affordances_setId); [apply lookup_insert_eq|].
  rewrite insert_insert_eq.
  apply wp_bind, wp_get_prop; [done|]. rewrite Hp.
  apply wp_bind.
  eapply (wp_call_setter Affordances_setMetadata); [apply lookup_insert_eq|].
  rewrite insert_insert_eq.
  match goal with |- wp _ (<[r := Obj _ ?m]> _) _ => set (ps0 := m) end.
  assert (ps0 !! "_affordances" = Some (VRef la')) as Hps0 by reflexivity.
  assert (default VUndef (ps0 !! "_id")
          = keep_string (prop h (VRef lp) "_id")) as Hid.
  { unfold ps0, keep_string. cbn [setter_field setter_accepts].
    rewrite lookup_insert_ne by done. rewrite lookup_insert_eq.
    cbn [default from_option id].
    by destruct (typeof (prop h (VRef lp) "_id") =? "string"). }
  assert (default VUndef (ps0 !! "_metadata")
          = keep_object (prop h (VRef lp) "_metadata")) as Hmd.
  { unfold ps0, keep_object. cbn [setter_field setter_accepts].
    rewrite lookup_insert_eq. cbn [default from_option id].
    by destruct (is_object (prop h (VRef lp) "_metadata")). }
  clearbody ps0.
  apply wp_bind, wp_get_prop; [done|]. rewrite Hp, Harr.
  apply wp_bind, wp_gets.
  replace (for_in_values (<[r := Obj CAffordances ps0]> hb) (VRef la))
    with xs.
  2: { unfold for_in_values, hb. by rewrite !lookup_insert_ne, Hla. }
  apply wp_bind.
  set (hs := <[r := Obj CAffordances ps0]> h).
  apply (wp_for_each _ xs (λ dn hi, hi = <[la' := Arr dn]> hs)).
  - unfold hs, hb. by rewrite (insert_insert_ne _ la' r).
  - intros dn x rest hi Hxs ->.
    apply wp_bind.
    eapply (wp_addAffordance r CAffordances ps0 la' dn);
      [by unfold hs; rewrite lookup_insert_ne, lookup_insert_eq
      |done|apply lookup_insert_eq|].
    apply wp_ret.
    assert (x ∈ xs) as Hx.
    { rewrite Hxs. apply elem_of_app. right. apply list_elem_of_here. }
    rewrite Forall_forall in Hnodes. specialize (Hnodes x Hx).
    replace (Affordance.isPrototypeOf (<[la' := Arr dn]> hs) x
             || Affordances.isPrototypeOf (<[la' := Arr dn]> hs) x)
      with true.
    2: { symmetry.
         unfold Affordance.isPrototypeOf, Affordances.isPrototypeOf in *.
         destruct x as [| | | | | |lx]; try done. unfold instanceOf in *.
         assert (lx ≠ la') by (intros ->; by rewrite Hla'n in Hnodes).
         assert (lx ≠ r) by (intros ->; by rewrite Hrn in Hnodes).
         unfold hs. by rewrite !lookup_insert_ne. }
    replace (not_in_array x dn) with true.
    2: { symmetry. apply not_in_array_spec. rewrite Hxs in Hnd.
         apply NoDup_app in Hnd as (_ & Hdis & _). intros Hin.
         apply (Hdis x Hin). apply list_elem_of_here. }
    cbn [andb]. by rewrite insert_insert_eq.
  - intros hf ->. apply wp_ret.
    apply (HQ _ r la' ps0); try done.
    + unfold hs. apply insert_subseteq_r; [done|]. by apply insert_subseteq.
    + by unfold hs; rewrite lookup_insert_ne, lookup_insert_eq.
    + apply lookup_insert_eq.
    + intros l' ? ?. unfold hs. by rewrite !lookup_insert_ne.
Qed.

Lemma wf_tree_kid_is_node h k :
  wf_tree h k = true →
  (Affordance.isPrototypeOf h (VRef (root k))
   || Affordances.isPrototypeOf h (VRef (root k))) = true.
Proof.
  intros (ps & Hk & _)%wf_tree_root.
  unfold Affordance.isPrototypeOf, Affordances.isPrototypeOf, instanceOf.
  rewrite Hk. destruct k; cbn [node_class]; by rewrite ?orb_true_r.
Qed.

(** X10: the plain form of a collection, revived, is a new collection with
    the id and the metadata of the original and the same children, in the
    same order, in an array of its own.  Every object of the heap before,
    the original included, is as it was. *)
Theorem Affordances_roundtrip l kids h :
  wf_tree h (Node l kids) = true →
  NoDup ((λ k, VRef (root k)) <$> kids) →
  ∃ plain h1 r h2,
    Affordances.toJSON (VRef l) h = (h1, Val plain)
    ∧ Affordances.revive plain h1 = (h2, Val (VRef r))
    ∧ h !! r = None
    ∧ h ⊆ h2
    ∧ wf_tree h2 (Node r kids) = true
    ∧ same_fields affordances_fields h2 (VRef r) h (VRef l)
    ∧ prop h2 (VRef r) "_affordances" ≠ prop h (VRef l) "_affordances".
Proof.
  intros Hwf Hnd.
  pose proof Hwf as (Hok & Harr & Hkids)%wf_tree_node.
  destruct (wf_tree_root _ _ Hwf) as (ps & Hl & _).
  change (root (Node l kids)) with l in Hl.
  assert (∃ la, prop h (VRef l) "_affordances" = VRef la
                ∧ h !! la = Some (Arr ((λ k, VRef (root k)) <$> kids)))
    as (la & Hpla & Hla).
  { destruct (prop h (VRef l) "_affordances") as [| | | | | |la]; try done.
    exists la. split; [done|]. simpl in Harr.
    by destruct (h !! la) as [[]|]; simplify_eq. }
  unfold affordances_ok in Hok.
  apply andb_prop in Hok as [[Hinst Hid]%andb_prop Hmd].
  (* the plain form *)
  set (fresh_plain := fresh (dom h)).
  set (pp := (<["_id" := prop h (VRef l) "_id"]>
             (<["_metadata" := prop h (VRef l) "_metadata"]>
             (<["_affordances" := prop h (VRef l) "_affordances"]> ∅)))
             : gmap string val).
  set (h1 := <[fresh_plain := Obj CObject pp]> h).
  assert (h !! fresh_plain = None) as Hfresh
    by apply not_elem_of_dom, is_fresh.
  assert (Affordances.toJSON (VRef l) h = (h1, Val (VRef fresh_plain)))
    as Hjson.
  { unfold Affordances.toJSON.
    repeat (rewrite bind_run, (get_prop_run _ _ _ _ Hl); cbv beta iota).
    reflexivity. }
  assert (h ⊆ h1) as Hsub1 by (by apply insert_subseteq).
  assert (∀ k, prop h1 (VRef fresh_plain) k = default VUndef (pp !! k))
    as Hpp by (intros; apply prop_insert_eq).
  destruct (wp_Affordances_revive fresh_plain la
              ((λ k, VRef (root k)) <$> kids) h1
    (λ v h2, ∃ r la' ps', v = VRef r
       ∧ h1 ⊆ h2 ∧ h1 !! r = None ∧ h1 !! la' = None
       ∧ h2 !! r = Some (Obj CAffordances ps')
       ∧ default VUndef (ps' !! "_id") = prop h (VRef l) "_id"
       ∧ default VUndef (ps' !! "_metadata") = prop h (VRef l) "_metadata"
       ∧ ps' !! "_affordances" = Some (VRef la')
       ∧ h2 !! la' = Some (Arr ((λ k, VRef (root k)) <$> kids))))
    as (v & h2 & Hrev & r & la' & ps' & -> & Hsub2 & Hr1 & Hla'1 & Hr2
        & Hid' & Hmd' & Haff' & Hla'2).
  - unfold h1. rewrite lookup_insert_eq. eauto.
  - rewrite Hpp, <- Hpla. reflexivity.
  - eapply lookup_weaken; [exact Hla|done].
  - apply Forall_forall. intros x Hx.
    apply list_elem_of_fmap in Hx as (k & -> & Hk).
    rewrite Forall_forall in Hkids.
    apply wf_tree_kid_is_node. apply (wf_tree_mono h); [done|].
    by apply Hkids.
  - done.
  - intros h2 r la' ps' Hsub2 Hr1 Hla'1 Hne Hr2 Hid' Hmd' Haff' Hla'2 _.
    exists r, la', ps'. rewrite !Hpp in Hid', Hmd'.
    change (default VUndef (pp !! "_id")) with (prop h (VRef l) "_id")
      in Hid'.
    change (default VUndef (pp !! "_metadata"))
      with (prop h (VRef l) "_metadata") in Hmd'.
    repeat split; try done.
    + rewrite Hid'. by apply keep_string_optional.
    + rewrite Hmd'. by eapply keep_object_optional.
  - assert (h ⊆ h2) as Hsub by (by etrans).
    assert (h !! r = None) as Hrn.
    { destruct (h !! r) eqn:E; [|done].
      by rewrite (lookup_weaken _ _ _ _ E Hsub1) in Hr1. }
    assert (h !! la' = None) as Hla'n.
    { destruct (h !! la') eqn:E; [|done].
      by rewrite (lookup_weaken _ _ _ _ E Hsub1) in Hla'1. }
    assert (∀ k, prop h2 (VRef r) k = default VUndef (ps' !! k)) as Hp2
      by (intros; by eapply prop_lookup).
    exists (VRef fresh_plain), h1, r, h2.
    split; [done|]. split; [done|]. split; [done|]. split; [done|].
    split; [|split].
    + apply wf_tree_node. split; [|split].
      * unfold affordances_ok, instanceOf. rewrite !Hp2, Hr2, Hid', Hmd'.
        rewrite bool_decide_eq_true_2 by done. rewrite Hid. cbn [andb].
        eapply undefined_or_mono; [|exact Hmd].
        by apply live_object_mono.
      * rewrite Hp2, Haff'. cbn [default from_option id array_elems].
        by rewrite Hla'2.
      * eapply Forall_impl; [exact Hkids|]. intros k.
        by apply wf_tree_mono.
    + repeat constructor; by rewrite Hp2.
    + rewrite Hp2, Haff', Hpla. cbn. intros [= ->]. congruence.
Qed.

Lemma Affordances_roundtrip_witness :
  ∃ plain h1 r h2,
    Affordances.toJSON (VRef 1%positive) heap_nested = (h1, Val plain)
    ∧ Affordances.revive plain h1 = (h2, Val (VRef r))
    ∧ heap_nested !! r = None
    ∧ heap_nested ⊆ h2
    ∧ wf_tree h2 (Node r [Node 4%positive [Leaf 7%positive]]) = true
    ∧ same_fields affordances_fields h2 (VRef r) heap_nested (VRef 1%positive)
    ∧ prop h2 (VRef r) "_affordances"
      ≠ prop heap_nested (VRef 1%positive) "_affordances".
Proof.
  apply (Affordances_roundtrip 1%positive [Node 4%positive [Leaf 7%positive]]
           heap_nested).
  - vm_compute. reflexivity.
  - apply NoDup_singleton.
Defined.

(** ** Reviving an Affordance *)

(** [affordance.revive] on an object with the shape, whose [_controls], if
    an array, holds distinct Inputs: the new Affordance has the id, method
    and uri of the object, the relation and metadata its setters accept, a
    message table of its own, and the Inputs of the object in an array of
    its own (no array when there is no Input); nothing else is written. *)
Lemma wp_Affordance_revive_inputs lp h Q :
  is_Some (h !! lp) →
  affordance_shape h (VRef lp) = true →
  val_live h (prop h (VRef lp) "_controls") →
  Forall (λ x, Input.isPrototypeOf h x = true) (inputs_of h (VRef lp)) →
  NoDup (inputs_of h (VRef lp)) →
  (∀ h' r ps' lm ls,
     h ⊆ h' → h !! r = None →
     h' !! r = Some (Obj CAffordance ps') →
     ps' !! "_id" = Some (prop h (VRef lp) "_id") →
     ps' !! "_method" = Some (prop h (VRef lp) "_method") →
     ps' !! "_uri" = Some (prop h (VRef lp) "_uri") →
     ps' !! "_relation" = Some (keep_string (prop h (VRef lp) "_relation")) →
     ps' !! "_metadata" = Some (keep_object (prop h (VRef lp) "_metadata")) →
     ps' !! "_messages" = Some (VRef lm) →
     h' !! lm = Some (Obj CObject (<["*" := VRef ls]> ∅)) →
     h' !! ls = Some (Arr [prop h (VRef lp) "_id"]) →
     match inputs_of h (VRef lp) with
     | [] => ps' !! "_controls" = None
     | xs => ∃ la, ps' !! "_controls" = Some (VRef la)
                   ∧ h !! la = None ∧ h' !! la = Some (Arr xs)
     end →
     Q (VRef r) h') →
  wp (Affordance.revive (VRef lp)) h Q.
Proof.
  intros Hlive Hshape Hclive Hinputs Hnd HQ.
  rewrite affordance_shape_ref in Hshape.
  unfold Affordance.revive, Affordance.canRevive.
  change (is_object (VRef lp)) with true. cbv iota.
  apply wp_bind.
  do 3 (apply wp_bind, wp_get_prop; [done|]).
  apply wp_ret. rewrite Hshape. cbv iota.
  apply andb_prop in Hshape as [[Hid Hmethod]%andb_prop Huri].
  do 3 (apply wp_bind, wp_get_prop; [done|]).
  apply wp_bind, wp_Affordance_new.
  intros r ls lm Hr Hls Hlm Hrls Hrlm Hlslm.
  rewrite !string_or_empty_string by done.
  assert (lp ≠ r) as Hlr by (intros ->; by apply Hr, elem_of_dom).
  assert (lp ≠ lm) as Hllm by (intros ->; by apply Hlm, elem_of_dom).
  assert (lp ≠ ls) as Hlls by (intros ->; by apply Hls, elem_of_dom).
  apply not_elem_of_dom in Hr as Hrn, Hls as Hlsn, Hlm as Hlmn.
  set (hb := <[lm := Obj CObject (<["*" := VRef ls]> ∅)]>
               (<[ls := Arr [prop h (VRef lp) "_id"]]> h)).
  assert (h ⊆ hb) as Hhb.
  { unfold hb. apply insert_subseteq_r; [done|]. by apply insert_subseteq. }
  assert (hb !! r = None) as Hbr by (unfold hb; by rewrite !lookup_insert_ne).
  assert (∀ o k, prop (<[r := o]> hb) (VRef lp) k = prop h (VRef lp) k) as Hp.
  { intros o k. rewrite prop_insert_ne by done. by apply prop_mono. }
  assert (∀ o, is_Some (<[r := o]> hb !! lp)) as Hl1.
  { intros o. destruct Hlive as [o' Ho']. exists o'.
    unfold hb. by rewrite !lookup_insert_ne. }
  apply wp_bind, wp_get_prop; [done|]. rewrite Hp.
  apply wp_bind.
  eapply (wp_call_setter Affordance_setRelation); [apply lookup_insert_eq|].
  rewrite insert_insert_eq.
  apply wp_bind, wp_get_prop; [done|]. rewrite Hp.
  apply wp_bind.
  eapply (wp_call_setter Affordance_setMetadata); [apply lookup_insert_eq|].
  rewrite insert_insert_eq.
  set (ps0 := (<["_metadata" := keep_object (prop h (VRef lp) "_metadata")]>
              (<["_relation" := keep_string (prop h (VRef lp) "_relation")]>
              (<["_messages" := VRef lm]>
              (<["_uri" := prop h (VRef lp) "_uri"]>
              (<["_method" := prop h (VRef lp) "_method"]>
              (<["_id" := prop h (VRef lp) "_id"]> ∅))))) : gmap string val)).
  match goal with |- wp _ (<[r := Obj _ ?m]> _) _ => change m with ps0 end.
  set (hs := <[r := Obj CAffordance ps0]> hb).
  assert (h ⊆ hs) as Hhs by (unfold hs; by apply insert_subseteq_r).
  assert (ps0 !! "_controls" = None) as Hps0 by reflexivity.
  assert (hs !! r = Some (Obj CAffordance ps0)) as Hsr
    by apply lookup_insert_eq.
  assert (hs !! lm = Some (Obj CObject (<["*" := VRef ls]> ∅))) as Hslm.
  { unfold hs, hb. rewrite lookup_insert_ne by done. apply lookup_insert_eq. }
  assert (hs !! ls = Some (Arr [prop h (VRef lp) "_id"])) as Hsls.
  { unfold hs, hb. rewrite !lookup_insert_ne by done. apply lookup_insert_eq. }
  apply wp_bind, wp_get_prop; [apply Hl1|].
  unfold hs at 1. rewrite Hp. fold hs.
  apply wp_bind, wp_gets.
  unfold inputs_of in *.
  destruct (array_elems h (prop h (VRef lp) "_controls")) as [xs|] eqn:Hxs.
  2: { (* [_controls] is no array *)
    replace (array_elems hs (prop h (VRef lp) "_controls"))
      with (@None (list val)).
    2: { symmetry. destruct (prop h (VRef lp) "_controls") as [| | | | | |lc];
           try done. simpl in *. destruct Hclive as [o Hlc].
         rewrite Hlc in Hxs. rewrite (lookup_weaken _ _ _ _ Hlc Hhs).
         by destruct o. }
    do 3 wp_step. by apply (HQ _ r ps0 lm ls). }
  (* the array of inputs *)
  rewrite (array_elems_mono _ _ _ _ Hhs Hxs).
  cbn [default from_option id] in Hinputs, Hnd, HQ.
  apply wp_bind.
  apply (wp_for_each _ xs (λ dn hi,
     ∃ ola,
       (∀ l2, l2 ≠ r → is_Some (hs !! l2) → hi !! l2 = hs !! l2)
       ∧ building hi r CAffordance ps0 ola dn
       ∧ (∀ la, ola = Some la → hs !! la = None)
       ∧ (dn = [] → ola = None) ∧ (dn ≠ [] → is_Some ola))).
  - exists None. repeat split; done.
  - intros dn x rest hi Hxs_eq (ola & Hold & Hb & Hla & He1 & He2).
    assert (x ∈ xs) as Hx.
    { rewrite Hxs_eq. apply elem_of_app. right. apply list_elem_of_here. }
    rewrite Forall_forall in Hinputs. specialize (Hinputs x Hx).
    unfold Input.isPrototypeOf in Hinputs.
    destruct (instanceOf_live _ _ _ Hinputs) as (lx & psx & -> & Hlx).
    assert (lx ≠ r) as Hlxr by (intros ->; congruence).
    assert (hi !! lx = Some (Obj CInput psx)) as Hilx.
    { rewrite Hold; [by eapply lookup_weaken|done|].
      exists (Obj CInput psx). by eapply lookup_weaken. }
    apply wp_bind. eapply wp_addInput; [exact Hps0|exact Hb|].
    intros h' la Hnew Hsame Hlar Hb' Hframe. apply wp_ret.
    replace (Input.isPrototypeOf hi (VRef lx)) with true in Hb'.
    2: { unfold Input.isPrototypeOf, instanceOf. rewrite Hilx.
         by rewrite bool_decide_eq_true_2. }
    replace (not_in_array (VRef lx) dn) with true in Hb'.
    2: { symmetry. apply not_in_array_spec. rewrite Hxs_eq in Hnd.
         apply NoDup_app in Hnd as (_ & Hdis & _). intros Hin.
         apply (Hdis _ Hin). apply list_elem_of_here. }
    cbn [andb] in Hb'.
    assert (hs !! la = None) as Hsla.
    { destruct ola as [la0|].
      - rewrite (Hsame la0 eq_refl). by apply Hla.
      - destruct (hs !! la) eqn:E; [|done].
        exfalso. apply (Hnew eq_refl). apply elem_of_dom.
        destruct (decide (la = r)) as [->|?]; [done|].
        rewrite Hold; eauto. }
    exists (Some la). split; [|split; [|split; [|split]]].
    + intros l2 Hl2 Hsl2.
      rewrite Hframe; [by apply Hold|done|].
      intros ->. destruct Hsl2; congruence.
    + done.
    + by intros ? [= <-].
    + intros Hnil. by destruct dn.
    + eauto.
  - intros hf (ola & Hold & Hb & Hla & He1 & He2).
    apply wp_ret.
    assert (h ⊆ hf) as Hhf.
    { apply map_subseteq_spec. intros l2 o Hl2.
      assert (l2 ≠ r) by (intros ->; congruence).
      rewrite Hold; [by eapply lookup_weaken|done|].
      exists o. by eapply lookup_weaken. }
    assert (∀ l2, hs !! l2 = None → h !! l2 = None) as Hnone.
    { intros l2 Hl2. destruct (h !! l2) eqn:E; [|done].
      by rewrite (lookup_weaken _ _ _ _ E Hhs) in Hl2. }
    destruct ola as [la|]; simpl in Hb.
    + destruct Hb as [Hfr Hfla].
      apply (HQ _ r (<["_controls" := VRef la]> ps0) lm ls); try done.
      * rewrite Hold; [done| |eauto]. congruence.
      * rewrite Hold; [done| |eauto]. congruence.
      * destruct xs as [|x0 xs0]; [by specialize (He1 eq_refl)|].
        exists la. rewrite lookup_insert_eq. split; [done|].
        split; [|done]. by apply Hnone, Hla.
    + destruct Hb as [-> Hfr].
      apply (HQ _ r ps0 lm ls); try done.
      * rewrite Hold; [done| |eauto]. congruence.
      * rewrite Hold; [done| |eauto]. congruence.
Qed.

(** X11: the plain form of an Affordance, revived, is a new Affordance with
    the id, method, uri, relation and metadata of the original and the same
    Inputs in the same order; its message table is the one the constructor
    makes, whatever the table of the original held.  Every object of the
    heap before, the original included, is as it was. *)
Theorem Affordance_roundtrip l h :
  affordance_ok h (VRef l) = true →
  NoDup (inputs_of h (VRef l)) →
  ∃ plain h1 r h2,
    Affordance.toJSON (VRef l) h = (h1, Val plain)
    ∧ Affordance.revive plain h1 = (h2, Val (VRef r))
    ∧ h !! r = None
    ∧ h ⊆ h2
    ∧ affordance_ok h2 (VRef r) = true
    ∧ same_fields affordance_fields h2 (VRef r) h (VRef l)
    ∧ inputs_of h2 (VRef r) = inputs_of h (VRef l)
    ∧ message_for h2 (VRef r) "*" = Some [prop h (VRef l) "_id"]
    ∧ (∀ code, code ≠ "*" → message_for h2 (VRef r) code = None).
Proof.
  intros Hok Hnd.
  pose proof Hok as Hok'. unfold affordance_ok in Hok'.
  repeat (apply andb_prop in Hok' as [Hok' ?]).
  destruct (instanceOf_live _ _ _ Hok') as (? & ps & [= <-] & Hl).
  match goal with H : undefined_or (controls_ok h) _ = true |- _ =>
    rename H into Hctl end.
  set (fresh_plain := fresh (dom h)).
  set (pp := (<["_id" := prop h (VRef l) "_id"]>
             (<["_method" := prop h (VRef l) "_method"]>
             (<["_uri" := prop h (VRef l) "_uri"]>
             (<["_relation" := prop h (VRef l) "_relation"]>
             (<["_metadata" := prop h (VRef l) "_metadata"]>
             (<["_controls" := prop h (VRef l) "_controls"]> ∅))))))
             : gmap string val).
  set (h1 := <[fresh_plain := Obj CObject pp]> h).
  assert (h !! fresh_plain = None) as Hfresh
    by apply not_elem_of_dom, is_fresh.
  assert (Affordance.toJSON (VRef l) h = (h1, Val (VRef fresh_plain)))
    as Hjson.
  { unfold Affordance.toJSON.
    repeat (rewrite bind_run, (get_prop_run _ _ _ _ Hl); cbv beta iota).
    reflexivity. }
  assert (h ⊆ h1) as Hsub1 by (by apply insert_subseteq).
  assert (∀ k, prop h1 (VRef fresh_plain) k = default VUndef (pp !! k))
    as Hp by (intros; apply prop_insert_eq).
  assert (∀ k, k ∈ affordance_fields ++ ["_controls"] →
               prop h1 (VRef fresh_plain) k = prop h (VRef l) k) as Hpp.
  { intros k Hk. rewrite Hp.
    repeat (apply elem_of_cons in Hk as [->|Hk]; [reflexivity|]).
    by apply elem_of_nil in Hk. }
  assert (prop h1 (VRef fresh_plain) "_id" = prop h (VRef l) "_id"
          ∧ prop h1 (VRef fresh_plain) "_method" = prop h (VRef l) "_method"
          ∧ prop h1 (VRef fresh_plain) "_uri" = prop h (VRef l) "_uri"
          ∧ prop h1 (VRef fresh_plain) "_relation"
            = prop h (VRef l) "_relation"
          ∧ prop h1 (VRef fresh_plain) "_metadata"
            = prop h (VRef l) "_metadata"
          ∧ prop h1 (VRef fresh_plain) "_controls"
            = prop h (VRef l) "_controls")
    as (Hpid & Hpmethod & Hpuri & Hprel & Hpmd & Hpctl).
  { rewrite !Hp. repeat split; reflexivity. }
  assert (v_or_array : prop h (VRef l) "_controls" = VUndef
                       ∨ is_Some (array_elems h (prop h (VRef l) "_controls"))).
  { apply undefined_or_controls in Hctl as [[-> _]|(xs & -> & _)]; eauto. }
  assert (inputs_of h1 (VRef fresh_plain) = inputs_of h (VRef l)) as Hin1.
  { unfold inputs_of. rewrite Hpctl. by rewrite (array_elems_fresh h h1). }
  assert (Forall (λ x, input_ok h x = true) (inputs_of h (VRef l))) as Hinputs.
  { unfold inputs_of.
    apply undefined_or_controls in Hctl as [[_ ->]|(xs & -> & Hall)];
      [constructor|].
    apply Forall_forall. intros x Hx. rewrite forallb_forall in Hall.
    by apply Hall, list_elem_of_In. }
  destruct (wp_Affordance_revive_inputs fresh_plain h1
    (λ v h2, ∃ r ps' lm ls, v = VRef r
       ∧ h1 ⊆ h2 ∧ h1 !! r = None
       ∧ h2 !! r = Some (Obj CAffordance ps')
       ∧ ps' !! "_id" = Some (prop h (VRef l) "_id")
       ∧ ps' !! "_method" = Some (prop h (VRef l) "_method")
       ∧ ps' !! "_uri" = Some (prop h (VRef l) "_uri")
       ∧ ps' !! "_relation" = Some (prop h (VRef l) "_relation")
       ∧ ps' !! "_metadata" = Some (prop h (VRef l) "_metadata")
       ∧ ps' !! "_messages" = Some (VRef lm)
       ∧ h2 !! lm = Some (Obj CObject (<["*" := VRef ls]> ∅))
       ∧ h2 !! ls = Some (Arr [prop h (VRef l) "_id"])
       ∧ match inputs_of h (VRef l) with
         | [] => ps' !! "_controls" = None
         | xs => ∃ la, ps' !! "_controls" = Some (VRef la)
                       ∧ h2 !! la = Some (Arr xs)
         end))
    as (v & h2 & Hrev & r & ps' & lm & ls & -> & Hsub2 & Hr1 & Hr2 & Hid
        & Hmethod & Huri & Hrel & Hmd & Hmsg & Hlm & Hls & Hctl').
  - unfold h1. rewrite lookup_insert_eq. eauto.
  - rewrite affordance_shape_ref, Hpid, Hpmethod, Hpuri.
    repeat (apply andb_true_intro; split); done.
  - rewrite Hpctl. destruct v_or_array as [->|[xs Hxs]]; [done|].
    destruct (prop h (VRef l) "_controls") as [| | | | | |lc]; try done.
    simpl in *. destruct (h !! lc) as [o|] eqn:Hlc; [|done].
    exists o. by eapply lookup_weaken.
  - rewrite Hin1. eapply Forall_impl; [exact Hinputs|]. intros x Hx.
    apply andb_prop in Hx as [Hx _]. by eapply instanceOf_mono.
  - by rewrite Hin1.
  - intros h2 r ps' lm ls Hsub2 Hr1 Hr2 Hid Hmethod Huri Hrel Hmd Hmsg Hlm Hls
      Hctl'.
    exists r, ps', lm, ls. rewrite Hpid, Hpmethod, Hpuri in *.
    rewrite Hprel in Hrel. rewrite Hpmd in Hmd. rewrite Hin1 in Hctl'.
    rewrite keep_string_optional in Hrel by done.
    erewrite keep_object_optional in Hmd by done.
    repeat split; try done.
    destruct (inputs_of h (VRef l)); [done|].
    destruct Hctl' as (la & ? & ? & ?). eauto.
  - assert (h ⊆ h2) as Hsub by (by etrans).
    assert (h !! r = None) as Hrn.
    { destruct (h !! r) eqn:E; [|done].
      by rewrite (lookup_weaken _ _ _ _ E Hsub1) in Hr1. }
    assert (∀ k, prop h2 (VRef r) k = default VUndef (ps' !! k)) as Hp2
      by (intros; by eapply prop_lookup).
    assert (inputs_of h2 (VRef r) = inputs_of h (VRef l)) as Hin2.
    { unfold inputs_of at 1. rewrite Hp2.
      destruct (inputs_of h (VRef l)) as [|x xs].
      - by rewrite Hctl'.
      - destruct Hctl' as (la & -> & Hla). simpl. by rewrite Hla. }
    exists (VRef fresh_plain), h1, r, h2.
    split; [done|]. split; [done|]. split; [done|]. split; [done|].
    split; [|split; [|split; [|split]]].
    + unfold affordance_ok, instanceOf.
      rewrite !Hp2, Hr2, Hid, Hmethod, Huri, Hrel, Hmd.
      rewrite bool_decide_eq_true_2 by done.
      cbn [default from_option id andb].
      repeat (apply andb_true_intro; split); try done.
      * eapply undefined_or_mono; [|done]. by apply live_object_mono.
      * rewrite Forall_forall in Hinputs.
        destruct (inputs_of h (VRef l)) as [|x xs] eqn:Hxs.
        -- by rewrite Hctl'.
        -- destruct Hctl' as (la & -> & Hla). cbn [default from_option id].
           unfold undefined_or, controls_ok. cbn [typeof array_elems].
           rewrite Hla.
           change ("object" =? "undefined") with false. cbv iota.
           apply forallb_forall. intros y Hy%list_elem_of_In.
           by apply (input_ok_mono h h2 y Hsub), Hinputs.
    + repeat constructor; rewrite Hp2;
        by rewrite ?Hid, ?Hmethod, ?Huri, ?Hrel, ?Hmd.
    + done.
    + unfold message_for, messages_of. rewrite Hp2, Hmsg.
      cbn [default from_option id]. rewrite Hlm. cbn.
      rewrite lookup_insert_eq. cbn. by rewrite Hls.
    + intros code Hcode. unfold message_for, messages_of. rewrite Hp2, Hmsg.
      cbn [default from_option id]. rewrite Hlm. cbn.
      by rewrite lookup_insert_ne, lookup_empty.
Qed.

Lemma Affordance_roundtrip_witness :
  ∃ plain h1 r h2,
    Affordance.toJSON (VRef 1%positive) heap_with_message = (h1, Val plain)
    ∧ Affordance.revive plain h1 = (h2, Val (VRef r))
    ∧ same_fields affordance_fields h2 (VRef r)
        heap_with_message (VRef 1%positive)
    ∧ message_for heap_with_message (VRef 1%positive) "200" = Some [VStr "a"]
    ∧ message_for h2 (VRef r) "200" = None.
Proof.
  destruct (Affordance_roundtrip 1%positive heap_with_message)
    as (plain & h1 & r & h2 & Hjson & Hrev & _ & _ & _ & Hsame & _ & _ & Hno).
  - vm_compute. reflexivity.
  - vm_compute. constructor.
  - exists plain, h1, r, h2. split; [exact Hjson|]. split; [exact Hrev|].
    split; [exact Hsame|]. split; [vm_compute; reflexivity|].
    by apply Hno.
Defined.

(** ** HypermediaApi: requests *)

Lemma wf_tree_descendants h t :
  wf_tree h t = true → Forall (λ d, wf_tree h d = true) (descendants t).
Proof.
  induction t as [l|l kids IH] using tree_ind_kids; intros Hwf;
    [constructor|].
  apply wf_tree_node in Hwf as (_ & _ & Hkids). cbn [descendants].
  induction IH as [|k ks IHk _ IHks]; [constructor|].
  apply Forall_cons_1 in Hkids as [Hk Hks]. cbn [flat_map].
  constructor; [done|]. apply Forall_app. split; [by apply IHk|by apply IHks].
Qed.

Lemma descendants_snoc l kids k :
  descendants (Node l (kids ++ [k]))
  = descendants (Node l kids) ++ k :: descendants k.
Proof. cbn [descendants]. rewrite flat_map_app. cbn. by rewrite app_nil_r. Qed.

Lemma string_ids_elem h t s :
  s ∈ string_ids h t
  ↔ ∃ d, d ∈ descendants t ∧ prop h (VRef (root d)) "_id" = VStr s.
Proof.
  unfold string_ids. rewrite list_elem_of_omap. split.
  - intros (d & Hd & Hs). exists d. split; [done|].
    destruct (prop h (VRef (root d)) "_id"); by simplify_eq.
  - intros (d & Hd & Hs). exists d. split; [done|]. by rewrite Hs.
Qed.

Lemma omap_ext_elem {A B} (f g : A → option B) (xs : list A) :
  (∀ x, x ∈ xs → f x = g x) → omap f xs = omap g xs.
Proof.
  induction xs as [|x xs IH]; intros Hfg; [done|]. cbn.
  rewrite (Hfg x) by apply list_elem_of_here.
  rewrite IH; [done|]. intros y Hy. apply Hfg. by right.
Qed.

Lemma omap_one {A B} (f : A → option B) x y :
  f x = Some y → omap f [x] = [y].
Proof. intros Hx. cbn. by rewrite Hx. Qed.

Lemma on_Affordances_run {A} l ps (m : M A) h :
  h !! l = Some (Obj CAffordances ps) →
  HypermediaApi.on_Affordances (VRef l) m h = m h.
Proof.
  intros Hl. unfold HypermediaApi.on_Affordances.
  rewrite bind_run. unfold test, gets, instanceOf. rewrite Hl.
  by rewrite bool_decide_eq_true_2.
Qed.

(** X12: [addRequest(id, method, uri)] adds a new Affordance with that id,
    method and uri at the end of the requests when the three are strings
    and no node of the requests, at any depth, has the id; otherwise it
    changes nothing.  So the string ids of the nodes of the requests, once
    distinct, stay distinct. *)
Theorem addRequest_keeps_ids_unique lh c ph l kids fuel id method uri h :
  h !! lh = Some (Obj c ph) →
  ph !! "_requests" = Some (VRef l) →
  wf_tree h (Node l kids) = true →
  (height (Node l kids) ≤ fuel)%nat →
  ∃ h',
    HypermediaApi.addRequest fuel (VRef lh) id method uri h
    = (h', Val (VRef lh))
    ∧ ((∀ s, id = VStr s →
          typeof method = "string" → typeof uri = "string" →
          s ∉ string_ids h (Node l kids) →
          ∃ r, h !! r = None
               ∧ array_elems h' (prop h' (VRef l) "_affordances")
                 = Some (((λ k, VRef (root k)) <$> kids) ++ [VRef r])
               ∧ Affordance.isPrototypeOf h' (VRef r) = true
               ∧ prop h' (VRef r) "_id" = id
               ∧ prop h' (VRef r) "_method" = method
               ∧ prop h' (VRef r) "_uri" = uri
               ∧ string_ids h' (Node l (kids ++ [Leaf r]))
                 = string_ids h (Node l kids) ++ [s]
               ∧ (NoDup (string_ids h (Node l kids)) →
                  NoDup (string_ids h' (Node l (kids ++ [Leaf r])))))
       ∧ ((typeof id ≠ "string" ∨ typeof method ≠ "string"
           ∨ typeof uri ≠ "string"
           ∨ ∃ s, id = VStr s ∧ s ∈ string_ids h (Node l kids)) →
          h' = h)).
Proof.
  intros Hlh Hreq Hwf Hfuel.
  destruct (wf_tree_root _ _ Hwf) as (ps & Hl & _).
  change (root (Node l kids)) with l in Hl.
  change (node_class (Node l kids)) with CAffordances in Hl.
  pose proof Hwf as (Hok & Harr & Hkids)%wf_tree_node.
  assert (∃ la, ps !! "_affordances" = Some (VRef la)
                ∧ h !! la = Some (Arr ((λ k, VRef (root k)) <$> kids)))
    as (la & Hpla & Hla).
  { rewrite (prop_lookup _ _ _ _ _ Hl) in Harr.
    destruct (ps !! "_affordances") as [[| | | | | |la]|]; try done.
    exists la. split; [done|]. simpl in Harr.
    by destruct (h !! la) as [[]|]; simplify_eq. }
  unfold HypermediaApi.addRequest.
  rewrite bind_run, (get_prop_run _ _ _ _ Hlh). cbv beta iota.
  rewrite (prop_lookup _ _ _ _ _ Hlh), Hreq. cbn [default from_option Datatypes.id].
  rewrite bind_run.
  destruct ((typeof id =? "string") && (typeof method =? "string")
            && (typeof uri =? "string")) eqn:Hstrings.
  2: { exists h. split; [done|]. split.
       - intros s -> Hm Hu _. rewrite Hm, Hu in Hstrings. done.
       - done. }
  apply andb_prop in Hstrings as [[Hid Hmethod]%andb_prop Huri].
  apply String.eqb_eq in Hid as Hid', Hmethod as Hmethod', Huri as Huri'.
  destruct id as [| | | |s| |]; try done.
  rewrite bind_run, (on_Affordances_run _ _ _ _ Hl).
  destruct (wp_hasAffordanceWithId (Node l kids) fuel h (VStr s)
              (λ v h', h' = h ∧ v = VBool (bool_decide
                 (is_Some (find_below h (VStr s) (Node l kids))))))
    as (v & h0 & Hhas & -> & ->); [done..|].
  change (root (Node l kids)) with l in Hhas. rewrite Hhas. cbv beta iota.
  cbn [truthy].
  destruct (find_below h (VStr s) (Node l kids)) as [[m ancs]|] eqn:Hfind.
  - (* the id is taken *)
    rewrite bool_decide_eq_true_2 by eauto. cbn [negb].
    exists h. split; [done|].
    apply find_below_Some in Hfind as (_ & Hm & Hmid).
    split; [|done]. intros s' [= <-] _ _ Hnot. destruct Hnot.
    apply string_ids_elem. eauto.
  - rewrite bool_decide_eq_false_2 by (by intros [? ?]). cbn [negb].
    rewrite find_below_None in Hfind.
    destruct (wp_Affordance_new (VStr s) method uri h
      (λ v hn, ∃ r lm ls psr, v = VRef r ∧ h !! r = None ∧ h !! lm = None
         ∧ h !! ls = None ∧ r ≠ lm ∧ r ≠ ls ∧ lm ≠ ls
         ∧ hn = <[r := Obj CAffordance psr]>
                  (<[lm := Obj CObject (<["*" := VRef ls]> ∅)]>
                  (<[ls := Arr [VStr s]]> h))
         ∧ psr !! "_id" = Some (VStr s)
         ∧ psr !! "_method" = Some method
         ∧ psr !! "_uri" = Some uri))
      as (v & hn & Hnew & r & lm & ls & psr & -> & Hr & Hlm & Hls & Hrlm & Hrls
          & Hlmls & -> & Hpid & Hpm & Hpu).
    { intros r ls lm Hr Hls Hlm ? ? ?.
      exists r, lm, ls. eexists. rewrite !string_or_empty_string by done.
      repeat split; try done; by apply not_elem_of_dom. }
    unfold Affordance.affordance. rewrite bind_run, Hnew. cbv beta iota.
    set (hn := <[r := Obj CAffordance psr]> _).
    assert (l ≠ r ∧ l ≠ lm ∧ l ≠ ls ∧ la ≠ r ∧ la ≠ lm ∧ la ≠ ls)
      as (? & ? & ? & ? & ? & ?) by (repeat split; intros ->; congruence).
    rewrite bind_run.
    rewrite (addAffordance_run l CAffordances ps la
               ((λ k, VRef (root k)) <$> kids));
      [|by unfold hn; rewrite !lookup_insert_ne|done
       |by unfold hn; rewrite !lookup_insert_ne].
    replace (Affordance.isPrototypeOf hn (VRef r)) with true.
    2: { unfold Affordance.isPrototypeOf, instanceOf, hn.
         by rewrite lookup_insert_eq, bool_decide_eq_true_2. }
    assert (VRef r ∉ (λ k, VRef (root k)) <$> kids) as Hrnew.
    { intros (k & [= ->] & Hk)%list_elem_of_fmap.
      rewrite Forall_forall in Hkids.
      destruct (wf_tree_root _ _ (Hkids k Hk)) as (? & ? & _). congruence. }
    apply not_in_array_spec in Hrnew as Hrnew'. rewrite Hrnew'.
    cbn [orb andb]. cbv beta iota.
    eexists. split; [done|]. split; [|intros Hno].
    2: { exfalso. destruct Hno as [?|[?|[?|(s' & [= <-] & Hin)]]];
           try done.
         apply string_ids_elem in Hin as (d & Hd & Hdid).
         by apply (Hfind d Hd). }
    intros s' [= <-] _ _ Hnot. exists r. split; [done|].
    set (h' := <[la := _]> hn).
    assert (∀ l0 o k, h !! l0 = Some (Obj o k) →
                      h' !! l0 = Some (Obj o k)) as Hobj.
    { intros l0 o k Hl0. unfold h', hn.
      rewrite !lookup_insert_ne; [done|intros ->; congruence..]. }
    assert (h' !! r = Some (Obj CAffordance psr)) as Hr'.
    { unfold h', hn. by rewrite lookup_insert_ne, lookup_insert_eq. }
    split.
    { rewrite (prop_lookup _ _ _ _ _ (Hobj _ _ _ Hl)), Hpla.
      cbn [default from_option Datatypes.id array_elems]. unfold h'.
      by rewrite lookup_insert_eq. }
    split.
    { unfold Affordance.isPrototypeOf, instanceOf.
      by rewrite Hr', bool_decide_eq_true_2. }
    rewrite !(prop_lookup _ _ _ _ _ Hr'), Hpid, Hpm, Hpu.
    split; [done|]. split; [done|]. split; [done|].
    assert (string_ids h' (Node l (kids ++ [Leaf r]))
            = string_ids h (Node l kids) ++ [s]) as Hids.
    { unfold string_ids. rewrite descendants_snoc, omap_app. f_equal.
      - apply omap_ext_elem. intros d Hd.
        pose proof (wf_tree_descendants _ _ Hwf) as Hdesc.
        rewrite Forall_forall in Hdesc.
        destruct (wf_tree_root _ _ (Hdesc d Hd)) as (psd & Hpd & _).
        by rewrite (prop_lookup _ _ _ _ _ (Hobj _ _ _ Hpd)),
          (prop_lookup _ _ _ _ _ Hpd).
      - apply omap_one. change (root (Leaf r)) with r.
        by rewrite (prop_lookup _ _ _ _ _ Hr'), Hpid. }
    split; [done|]. intros Hnd. rewrite Hids.
    apply NoDup_app. split; [done|]. split; [|apply NoDup_singleton].
    by intros x Hx [->|[]%elem_of_nil]%elem_of_cons.
Qed.

Lemma addRequest_keeps_ids_unique_witness :
  ∃ h' r,
    HypermediaApi.addRequest 3 (VRef 11%positive) (VStr "new") (VStr "GET")
      (VStr "/new") heap_api = (h', Val (VRef 11%positive))
    ∧ array_elems h' (prop h' (VRef 1%positive) "_affordances")
      = Some [VRef 4%positive; VRef r]
    ∧ string_ids h' (Node 1%positive [Node 4%positive [Leaf 7%positive]; Leaf r])
      = ["C"; "L"; "new"].
Proof.
  destruct (addRequest_keeps_ids_unique 11%positive CObject
              (<["_requests" := VRef 1%positive]> ∅) 1%positive
              [Node 4%positive [Leaf 7%positive]] 3
              (VStr "new") (VStr "GET") (VStr "/new") heap_api)
    as (h' & Hrun & Hadd & _).
  - vm_compute. reflexivity.
  - reflexivity.
  - vm_compute. reflexivity.
  - cbn. lia.
  - destruct (Hadd "new") as (r & _ & Hkids & _ & _ & _ & _ & Hids & _);
      [reflexivity..| |].
    + vm_compute.
      intros Hin. repeat (apply elem_of_cons in Hin as [?|Hin]; [discriminate|]).
      by apply elem_of_nil in Hin.
    + exists h', r. split; [exact Hrun|]. split; [exact Hkids|].
      etrans; [exact Hids|]. vm_compute. reflexivity.
Defined.

(** ** HypermediaApi: metadata and inputs of the last request *)

Lemma call_setMetadata_run l c ps meta h :
  h !! l = Some (Obj c ps) →
  c = CAffordance ∨ c = CAffordances →
  HypermediaApi.call_setMetadata (VRef l) meta h
  = (<[l := Obj c (<["_metadata" := if is_object meta then meta
                                    else default VUndef (ps !! "_metadata")]>
                     ps)]> h, Val (VRef l)).
Proof.
  intros Hl Hc. unfold HypermediaApi.call_setMetadata.
  rewrite bind_run. unfold gets. cbn [class_of]. rewrite Hl. cbv beta iota.
  destruct Hc as [-> | ->]; cbv iota.
  - by rewrite (call_setter_run Affordance_setMetadata _ _ _ _ _ Hl).
  - by rewrite (call_setter_run Affordances_setMetadata _ _ _ _ _ Hl).
Qed.

(** X13: [addMetadata(meta)] gives [meta] to the last of the requests, and
    to the collection of requests itself when it has no member; the
    metadata of that one node then is [meta], and nothing else changes.
    A [meta] that is not an object is not stored. *)
Theorem addMetadata_target lh c ph l kids meta h :
  h !! lh = Some (Obj c ph) →
  ph !! "_requests" = Some (VRef l) →
  wf_tree h (Node l kids) = true →
  ∃ h',
    HypermediaApi.addMetadata (VRef lh) meta h = (h', Val (VRef lh))
    ∧ (∀ l', l' ≠ default l (root <$> last kids) → h' !! l' = h !! l')
    ∧ (∀ k, k ≠ "_metadata" →
         prop h' (VRef (default l (root <$> last kids))) k
         = prop h (VRef (default l (root <$> last kids))) k)
    ∧ prop h' (VRef (default l (root <$> last kids))) "_metadata"
      = (if is_object meta then meta
         else prop h (VRef (default l (root <$> last kids))) "_metadata").
Proof.
  intros Hlh Hreq Hwf.
  destruct (wf_tree_root _ _ Hwf) as (ps & Hl & _).
  change (root (Node l kids)) with l in Hl.
  change (node_class (Node l kids)) with CAffordances in Hl.
  pose proof Hwf as (Hok & Harr & Hkids)%wf_tree_node.
  assert (∃ la, ps !! "_affordances" = Some (VRef la)
                ∧ h !! la = Some (Arr ((λ k, VRef (root k)) <$> kids)))
    as (la & Hpla & Hla).
  { rewrite (prop_lookup _ _ _ _ _ Hl) in Harr.
    destruct (ps !! "_affordances") as [[| | | | | |la]|]; try done.
    exists la. split; [done|]. simpl in Harr.
    by destruct (h !! la) as [[]|]; simplify_eq. }
  unfold HypermediaApi.addMetadata.
  rewrite bind_run, (get_prop_run _ _ _ _ Hlh). cbv beta iota.
  rewrite (prop_lookup _ _ _ _ _ Hlh), Hreq. cbn [default from_option id].
  rewrite bind_run, (on_Affordances_run _ _ _ _ Hl).
  rewrite (getLastAffordance_run _ _ _ _ _ _ Hl Hpla Hla). cbv beta iota.
  rewrite fmap_last.
  assert (∃ lt ct pt, default l (root <$> last kids) = lt
            ∧ h !! lt = Some (Obj ct pt)
            ∧ (ct = CAffordance ∨ ct = CAffordances)
            ∧ (if truthy (default VNull ((λ k, VRef (root k)) <$> last kids))
               then HypermediaApi.call_setMetadata
                      (default VNull ((λ k, VRef (root k)) <$> last kids)) meta
               else HypermediaApi.call_setMetadata (VRef l) meta)
              = HypermediaApi.call_setMetadata (VRef lt) meta)
    as (lt & ct & pt & -> & Hlt & Hct & ->).
  { destruct (last kids) as [k|] eqn:Hlast.
    - apply last_Some_elem_of in Hlast. rewrite Forall_forall in Hkids.
      destruct (wf_tree_root _ _ (Hkids k Hlast)) as (pk & Hk & _).
      exists (root k), (node_class k), pk. repeat split; try done.
      apply node_class_cases.
    - exists l, CAffordances, ps. repeat split; try done. by right. }
  rewrite bind_run, (call_setMetadata_run _ _ _ _ _ Hlt Hct). cbv beta iota.
  eexists. split; [done|]. split; [|split].
  - intros l' Hl'. by rewrite lookup_insert_ne.
  - intros k Hk. rewrite prop_insert_eq, (prop_lookup _ _ _ _ _ Hlt).
    by rewrite lookup_insert_ne.
  - rewrite prop_insert_eq, lookup_insert_eq, (prop_lookup _ _ _ _ _ Hlt).
    done.
Qed.

Lemma addMetadata_target_witness :
  ∃ h',
    HypermediaApi.addMetadata (VRef 11%positive) (VRef 3%positive) heap_api
    = (h', Val (VRef 11%positive))
    ∧ prop h' (VRef 4%positive) "_metadata" = VRef 3%positive
    ∧ prop h' (VRef 1%positive) "_metadata" = VRef 3%positive.
Proof.
  destruct (addMetadata_target 11%positive CObject
              (<["_requests" := VRef 1%positive]> ∅) 1%positive
              [Node 4%positive [Leaf 7%positive]] (VRef 3%positive) heap_api)
    as (h' & Hrun & Hframe & _ & Hmeta).
  - vm_compute. reflexivity.
  - reflexivity.
  - vm_compute. reflexivity.
  - exists h'. split; [exact Hrun|]. split; [exact Hmeta|].
    unfold prop. rewrite Hframe by discriminate. vm_compute. reflexivity.
Defined.

Lemma wp_addInput_absent l c ps control h Q :
  h !! l = Some (Obj c ps) →
  default VUndef (ps !! "_controls") = VUndef →
  (∀ la, h !! la = None → la ≠ l →
     Q (VRef l)
       (<[la := Arr (if Input.isPrototypeOf h control
                     then [control] else [])]>
          (<[l := Obj c (<["_controls" := VRef la]> ps)]> h))) →
  wp (Affordance.addInput (VRef l) control) h Q.
Proof.
  intros Hl Hctl HQ. unfold Affordance.addInput.
  apply wp_bind.
  eapply (wp_get_prop_obj _ _ _ _ VUndef); [done|done|].
  simpl. wp_step. wp_step. wp_step. rename l0 into la, H into Hla.
  assert (la ≠ l) as Hne.
  { intros ->. by apply Hla, elem_of_dom. }
  apply not_elem_of_dom in Hla as Hnone.
  wp_step. wp_step. wp_step. wp_step. wp_step.
  unfold Input.isPrototypeOf in *.
  rewrite (instanceOf_set_prop _ _ _ c ps)
    by (by rewrite lookup_insert_ne).
  rewrite instanceOf_insert_other by done.
  specialize (HQ la Hnone Hne).
  apply wp_bind.
  destruct (instanceOf CInput h control) eqn:Hin; simpl.
  - wp_step. wp_step. simpl.
    rewrite lookup_insert_ne by done. rewrite lookup_insert_eq.
    simpl. wp_step. wp_step.
    rewrite (insert_insert_ne _ l la) by done. by rewrite insert_insert_eq.
  - wp_step. wp_step. by rewrite (insert_insert_ne _ l la) by done.
Qed.

(** X14: [addInput(control)] of a HypermediaApi revives [control] into a
    new Input and appends it to the inputs of the last of the requests,
    when that is an Affordance and [control] has a string id and a defined
    value; otherwise (no request yet, a collection as the last request, a
    [control] without the shape) it changes nothing. *)
Theorem api_addInput_last_request lh c ph l kids control h :
  h !! lh = Some (Obj c ph) →
  ph !! "_requests" = Some (VRef l) →
  wf_tree h (Node l kids) = true →
  val_live h control →
  ∃ h',
    HypermediaApi.addInput (VRef lh) control h = (h', Val (VRef lh))
    ∧ (∀ lr, last kids = Some (Leaf lr) →
         input_min_shape h control = true →
         ∃ r, h !! r = None
              ∧ h' !! r = Some (Obj CInput (input_props_from h control))
              ∧ inputs_of h' (VRef lr) = inputs_of h (VRef lr) ++ [VRef r]
              ∧ (∀ l' o, h !! l' = Some o → l' ≠ lr →
                   VRef l' ≠ prop h (VRef lr) "_controls" →
                   h' !! l' = Some o))
    ∧ ((∀ lr, last kids ≠ Some (Leaf lr))
       ∨ input_min_shape h control = false → h' = h).
Proof.
  intros Hlh Hreq Hwf Hlive.
  destruct (wf_tree_root _ _ Hwf) as (ps & Hl & _).
  change (root (Node l kids)) with l in Hl.
  change (node_class (Node l kids)) with CAffordances in Hl.
  pose proof Hwf as (Hok & Harr & Hkids)%wf_tree_node.
  assert (∃ la, ps !! "_affordances" = Some (VRef la)
                ∧ h !! la = Some (Arr ((λ k, VRef (root k)) <$> kids)))
    as (la & Hpla & Hla).
  { rewrite (prop_lookup _ _ _ _ _ Hl) in Harr.
    destruct (ps !! "_affordances") as [[| | | | | |la]|]; try done.
    exists la. split; [done|]. simpl in Harr.
    by destruct (h !! la) as [[]|]; simplify_eq. }
  unfold HypermediaApi.addInput.
  rewrite bind_run, (get_prop_run _ _ _ _ Hlh). cbv beta iota.
  rewrite (prop_lookup _ _ _ _ _ Hlh), Hreq. cbn [default from_option id].
  rewrite bind_run, (on_Affordances_run _ _ _ _ Hl).
  rewrite (getLastAffordance_run _ _ _ _ _ _ Hl Hpla Hla). cbv beta iota.
  rewrite fmap_last, bind_run. unfold test at 1, gets at 1. cbv beta iota.
  assert (∀ P : Prop, P → P) as _ by done.
  destruct (last kids) as [[lr|ln kn]|] eqn:Hlast; cbn [fmap option_fmap option_map default from_option id root].
  3: { (* no request *)
    exists h. split; [done|]. split; [done|]. done. }
  2: { (* the last request is a collection *)
    apply last_Some_elem_of in Hlast. rewrite Forall_forall in Hkids.
    destruct (wf_tree_root _ _ (Hkids _ Hlast)) as (pk & Hk & _).
    unfold Affordance.isPrototypeOf, instanceOf. cbn [root] in Hk.
    rewrite Hk. cbn [node_class]. rewrite bool_decide_eq_false_2 by done.
    exists h. split; [done|]. split; [done|]. done. }
  (* the last request is an Affordance *)
  apply last_Some_elem_of in Hlast. rewrite Forall_forall in Hkids.
  pose proof (Hkids _ Hlast) as Hwr. cbn [wf_tree] in Hwr.
  destruct (wf_tree_root _ _ (Hkids _ Hlast)) as (pr & Hr & _).
  cbn [root node_class] in Hr.
  unfold Affordance.isPrototypeOf at 1, instanceOf at 1. rewrite Hr.
  rewrite bool_decide_eq_true_2 by done. cbv iota.
  rewrite !bind_run, (Input_canRevive_run _ _ Hlive). cbv beta iota.
  destruct (input_min_shape h control) eqn:Hshape.
  2: { exists h. split; [done|]. split; [done|]. done. }
  assert (∃ lc, control = VRef lc) as [lc ->].
  { apply is_object_ref. unfold input_min_shape in Hshape.
    by destruct (is_object control). }
  unfold input_min_shape in Hshape.
  apply andb_prop in Hshape as [[_ Hid]%andb_prop Hval].
  destruct (wp_Input_revive lc h
              (λ v h1, ∃ r, v = VRef r ∧ h !! r = None
                 ∧ h1 = <[r := Obj CInput (input_props_from h (VRef lc))]> h))
    as (v & h1 & Hrev & r & -> & Hrn & ->).
  { done. }
  { by apply String.eqb_eq. }
  { intros Hu. by rewrite Hu in Hval. }
  { intros r Hr'. exists r. split; [done|]. split; [|done].
    by apply not_elem_of_dom. }
  rewrite bind_run, Hrev. cbv beta iota.
  set (h1 := <[r := Obj CInput (input_props_from h (VRef lc))]> h).
  assert (lr ≠ r) as Hlrr by (intros ->; congruence).
  assert (h1 !! lr = Some (Obj CAffordance pr)) as Hr1
    by (unfold h1; by rewrite lookup_insert_ne).
  assert (Input.isPrototypeOf h1 (VRef r) = true) as Hproto.
  { unfold Input.isPrototypeOf, instanceOf, h1.
    by rewrite lookup_insert_eq, bool_decide_eq_true_2. }
  unfold affordance_ok in Hwr.
  apply andb_prop in Hwr as [_ Hctl].
  rewrite (prop_lookup _ _ _ _ _ Hr) in Hctl.
  assert (∃ h',
    Affordance.addInput (VRef lr) (VRef r) h1 = (h', Val (VRef lr))
    ∧ h' !! r = Some (Obj CInput (input_props_from h (VRef lc)))
    ∧ inputs_of h' (VRef lr) = inputs_of h (VRef lr) ++ [VRef r]
    ∧ (∀ l' o, h !! l' = Some o → l' ≠ lr →
          VRef l' ≠ prop h (VRef lr) "_controls" → h' !! l' = Some o))
    as (h' & Hadd & Hr' & Hinputs & Hframe).
  { apply undefined_or_controls in Hctl as [[Hu _]|(xs & Hxs & Hall)].
    - (* no inputs yet *)
      destruct (wp_addInput_absent lr CAffordance pr (VRef r) h1
        (λ v h', ∃ la', v = VRef lr ∧ h1 !! la' = None ∧ la' ≠ lr
           ∧ h' = <[la' := Arr [VRef r]]>
                    (<[lr := Obj CAffordance
                               (<["_controls" := VRef la']> pr)]> h1)))
        as (v & h' & Hadd & la' & -> & Hla'n & Hla'lr & ->); [done..| |].
      { intros la' ? ?. exists la'. by rewrite Hproto. }
      assert (la' ≠ r) as Hla'r.
      { intros ->. unfold h1 in Hla'n. by rewrite lookup_insert_eq in Hla'n. }
      eexists. split; [exact Hadd|]. split; [|split].
      + rewrite !lookup_insert_ne by done. apply lookup_insert_eq.
      + unfold inputs_of. rewrite (prop_lookup _ _ _ _ _ Hr), Hu.
        rewrite prop_insert_ne, prop_insert_eq, lookup_insert_eq by done.
        cbn. by rewrite lookup_insert_eq.
      + intros l' o Ho Hl'lr _.
        assert (l' ≠ r) by (intros ->; congruence).
        assert (l' ≠ la').
        { intros ->. unfold h1 in Hla'n.
          rewrite lookup_insert_ne in Hla'n by done. congruence. }
        rewrite !lookup_insert_ne by done. unfold h1.
        by rewrite lookup_insert_ne.
    - (* an array of inputs *)
      assert (∃ lx, pr !! "_controls" = Some (VRef lx)
                    ∧ h !! lx = Some (Arr xs)) as (lx & Hplx & Hlx).
      { destruct (pr !! "_controls") as [[| | | | | |lx]|]; try done.
        exists lx. split; [done|]. simpl in Hxs.
        by destruct (h !! lx) as [[]|]; simplify_eq. }
      assert (lx ≠ r) as Hlxr by (intros ->; congruence).
      set (ps0 := delete "_controls" pr).
      destruct (wp_addInput lr CAffordance ps0 (Some lx) xs (VRef r) h1
        (λ v h', v = VRef lr
           ∧ building h' lr CAffordance ps0 (Some lx)
               (if Input.isPrototypeOf h1 (VRef r)
                   && not_in_array (VRef r) xs
                then xs ++ [VRef r] else xs)
           ∧ (∀ l', l' ≠ lr → l' ≠ lx → h' !! l' = h1 !! l')))
        as (v & h' & Hadd & -> & [Hl' Hlx'] & Hframe).
      { apply lookup_delete_eq. }
      { split.
        - unfold ps0. by rewrite insert_delete_id.
        - unfold h1. by rewrite lookup_insert_ne. }
      { intros h' la' _ Hsame _ Hb' Hframe.
        rewrite (Hsame lx eq_refl) in *. done. }
      rewrite Hproto in Hlx'.
      replace (not_in_array (VRef r) xs) with true in Hlx'.
      2: { symmetry. apply not_in_array_spec. intros Hin.
           rewrite forallb_forall in Hall.
           apply list_elem_of_In, Hall in Hin.
           apply andb_prop in Hin as [Hin _].
           apply instanceOf_live in Hin as (? & ? & [= <-] & ?). congruence. }
      cbn [andb] in Hlx'.
      eexists. split; [exact Hadd|]. split; [|split].
      + rewrite Hframe by done. unfold h1. apply lookup_insert_eq.
      + unfold inputs_of at 1. rewrite (prop_lookup _ _ _ _ _ Hl').
        rewrite lookup_insert_eq. cbn. rewrite Hlx'.
        unfold inputs_of. rewrite (prop_lookup _ _ _ _ _ Hr), Hplx. cbn.
        by rewrite Hlx.
      + intros l' o Ho Hl'lr Hl'c.
        rewrite (prop_lookup _ _ _ _ _ Hr), Hplx in Hl'c.
        rewrite Hframe; [|done|by intros ->].
        unfold h1. rewrite lookup_insert_ne; [done|]. intros ->. congruence. }
  rewrite bind_run, Hadd. cbv beta iota.
  exists h'. split; [done|]. split.
  - intros lr' [= <-] _. exists r. repeat split; done.
  - intros [Hno|?]; [|done]. by destruct (Hno lr).
Qed.

Lemma api_addInput_last_request_witness :
  ∃ h' r,
    HypermediaApi.addInput (VRef 7%positive) (VRef 8%positive) heap_api_form
    = (h', Val (VRef 7%positive))
    ∧ heap_api_form !! r = None
    ∧ inputs_of h' (VRef 1%positive) = [VRef r].
Proof.
  destruct (api_addInput_last_request 7%positive CObject
              (<["_requests" := VRef 5%positive]> ∅) 5%positive
              [Leaf 1%positive] (VRef 8%positive) heap_api_form)
    as (h' & Hrun & Hadd & _).
  - vm_compute. reflexivity.
  - reflexivity.
  - vm_compute. reflexivity.
  - vm_compute. eexists. reflexivity.
  - destruct (Hadd 1%positive) as (r & Hnew & _ & Hinputs & _).
    + reflexivity.
    + vm_compute. reflexivity.
    + exists h', r. split; [exact Hrun|]. split; [exact Hnew|].
      exact Hinputs.
Defined.

(** ** [forEachAffordance] *)

Lemma preserves_ret {A} P (a : A) : preserves P (mret a).
Proof. by intros h HP. Qed.

Lemma preserves_bind {A B} P (m : M A) (f : A → M B) :
  preserves P m → (∀ a, preserves P (f a)) → preserves P (m ≫= f).
Proof.
  intros Hm Hf h HP. rewrite bind_run. specialize (Hm h HP).
  destruct (m h) as [h' [a|e|v|step|]]; [by apply Hf|done..].
Qed.

Lemma preserves_for_each {A} P (body : A → M ()) xs :
  (∀ x, preserves P (body x)) → preserves P (for_each body xs).
Proof.
  intros Hbody. induction xs as [|x xs IH]; cbn [for_each].
  - apply preserves_ret.
  - by apply preserves_bind.
Qed.

Lemma eq_on_bind {A B} P (m1 m2 : M A) (f1 f2 : A → M B) :
  eq_on P m1 m2 → preserves P m2 → (∀ a, eq_on P (f1 a) (f2 a)) →
  eq_on P (m1 ≫= f1) (m2 ≫= f2).
Proof.
  intros Hm Hp Hf h HP. rewrite !bind_run, (Hm h HP).
  specialize (Hp h HP). destruct (m2 h) as [h' [a|e|v|step|]]; [by apply Hf|done..].
Qed.

Lemma for_each_app {A} (body : A → M ()) xs ys h :
  for_each body (xs ++ ys) h = (for_each body xs;; for_each body ys) h.
Proof.
  revert h. induction xs as [|x xs IH]; intros h; [done|].
  cbn [app for_each]. rewrite !bind_run.
  destruct (body x h) as [h' [[]|e|v|step|]]; [|done..]. by rewrite IH, bind_run.
Qed.

Lemma bind_unit_r (m : M ()) h : (m;; mret ()) h = m h.
Proof. rewrite bind_run. by destruct (m h) as [h' [[]|e|v|step|]]. Qed.

Lemma array_length_run la xs h :
  h !! la = Some (Arr xs) →
  array_length (VRef la) h = (h, Val (Z.of_nat (length xs))).
Proof. intros Hla. unfold array_length. cbn [array_elems]. by rewrite Hla. Qed.

Lemma undisturbed_kid l kids k h h1 :
  k ∈ kids → undisturbed (Node l kids) h h1 → undisturbed k h h1.
Proof.
  intros Hk Hund n Hn. apply Hund. unfold nodes in *. right.
  apply elem_of_descendants. exists k. split; [done|].
  apply elem_of_cons in Hn as [->|Hn]; auto.
Qed.

Section ForEach.

Variable call_function : val → val → M ().
Variable h : heap.
Variable callback : val.
Variable P : heap → Prop.

Hypothesis callback_is_function : typeof callback = "function".
Hypothesis callback_preserves : ∀ x, preserves P (call_function callback x).

Lemma forEachAffordance_unfold n this :
  forEachAffordance call_function (S n) this callback
  = (affordances ← get_prop this "_affordances";
     (if typeof callback =? "function" then
        array_forEach
          (λ affordance,
             nested ← test (λ h, instanceOf CAffordances h affordance);
             if nested : bool
             then forEachAffordance call_function n affordance callback;;
                  mret ()
             else call_function callback affordance)
          affordances
      else mret ());;
     mret this).
Proof. reflexivity. Qed.

Lemma preserves_leaves ls :
  preserves P (for_each (λ lf, call_function callback (VRef lf)) ls).
Proof. apply preserves_for_each. intros lf. apply callback_preserves. Qed.

Lemma forEachAffordance_tree t :
  ∀ fuel,
    wf_tree h t = true →
    node_class t = CAffordances →
    (height t ≤ fuel)%nat →
    (∀ h1, P h1 → undisturbed t h h1) →
    eq_on P (forEachAffordance call_function fuel (VRef (root t)) callback)
      (for_each (λ lf, call_function callback (VRef lf)) (leaves t);;
       mret (VRef (root t))).
Proof.
  induction t as [l|l kids IH] using tree_ind_kids;
    intros fuel Hwf Hclass Hfuel Hund; [done|].
  destruct fuel as [|n]; [simpl in Hfuel; lia|].
  destruct (wf_tree_root _ _ Hwf) as (ps & Hl & _).
  change (root (Node l kids)) with l in *.
  change (node_class (Node l kids)) with CAffordances in *.
  pose proof Hwf as (Hok & Harr & Hkids)%wf_tree_node.
  assert (∃ la, ps !! "_affordances" = Some (VRef la)
                ∧ h !! la = Some (Arr ((λ k, VRef (root k)) <$> kids)))
    as (la & Hpla & Hla).
  { rewrite (prop_lookup _ _ _ _ _ Hl) in Harr.
    destruct (ps !! "_affordances") as [[| | | | | |la]|]; try done.
    exists la. split; [done|]. simpl in Harr.
    by destruct (h !! la) as [[]|]; simplify_eq. }
  assert (∀ h1, P h1 →
            h1 !! l = Some (Obj CAffordances ps)
            ∧ h1 !! la = Some (Arr ((λ k, VRef (root k)) <$> kids)))
    as Hroot.
  { intros h1 HP. destruct (Hund h1 HP (Node l kids)) as [Hl1 Hla1];
      [apply list_elem_of_here|].
    cbn [root] in *. split; [by rewrite Hl1|].
    rewrite (Hla1 la); [done|]. by rewrite (prop_lookup _ _ _ _ _ Hl), Hpla. }
  assert (Forall (λ k, (height k ≤ n)%nat) kids) as Hheights.
  { apply Forall_forall. intros k Hk.
    pose proof (height_kid k kids l Hk). lia. }
  set (body := λ affordance : val,
         nested ← test (λ h0, instanceOf CAffordances h0 affordance);
         if nested : bool
         then forEachAffordance call_function n affordance callback;; mret ()
         else call_function callback affordance).
  set (step := λ k : nat,
         x ← gets (λ h0, array_elems h0 (VRef la) ≫= (.!! k));
         match x with
         | Some v => body v
         | None => mret ()
         end).
  set (visit := λ lf, call_function callback (VRef lf)).
  (* one child *)
  assert (∀ pre k ks, kids = pre ++ k :: ks →
            eq_on P (step (length pre)) (for_each visit (leaves k))) as Hone.
  { intros pre k ks Heq h2 HP2.
    assert (k ∈ kids) as Hk.
    { rewrite Heq. apply elem_of_app. right. apply list_elem_of_here. }
    rewrite Forall_forall in IH, Hkids, Hheights.
    destruct (Hroot h2 HP2) as [_ Hla2].
    destruct (wf_tree_root _ _ (Hkids k Hk)) as (pk & Hpk & _).
    destruct (undisturbed_kid _ _ _ _ _ Hk (Hund h2 HP2) k) as [Hk2 _];
      [apply list_elem_of_here|].
    unfold step. rewrite bind_run. unfold gets. cbn [array_elems].
    rewrite Hla2. cbn [mbind option_bind].
    replace (((λ k0, VRef (root k0)) <$> kids) !! length pre)
      with (Some (VRef (root k))).
    2: { symmetry. rewrite Heq, fmap_app, fmap_cons.
         rewrite lookup_app_r by (by rewrite length_fmap).
         by rewrite length_fmap, Nat.sub_diag. }
    cbv beta iota. unfold body. rewrite bind_run.
    unfold test, gets, instanceOf. rewrite Hk2, Hpk. cbv beta iota.
    destruct k as [lk|lk kk]; cbn [node_class root leaves].
    - rewrite bool_decide_eq_false_2 by done. cbv iota.
      cbn [for_each]. by rewrite bind_unit_r.
    - rewrite bool_decide_eq_true_2 by done. cbv iota.
      rewrite bind_run.
      rewrite (IH _ Hk n (Hkids _ Hk) eq_refl (Hheights _ Hk)); [|
        by intros h3 HP3; eapply undisturbed_kid; [|apply Hund]|done].
      cbn [root leaves]. rewrite bind_run.
      by destruct (for_each _ _ h2) as [h3 [[]|e|v|stp|]]. }
  (* the children in turn *)
  assert (∀ ks pre, kids = pre ++ ks →
            eq_on P (for_each step (seq (length pre) (length ks)))
              (for_each visit (flat_map leaves ks))) as Hall.
  { induction ks as [|k ks IHks]; intros pre Heq; [done|].
    cbn [length seq flat_map for_each]. intros h2 HP2.
    rewrite for_each_app.
    apply (eq_on_bind P (step (length pre)) (for_each visit (leaves k)));
      [by eapply Hone|apply preserves_leaves| |done].
    intros []. replace (S (length pre)) with (length (pre ++ [k])).
    2: { rewrite length_app. simpl. lia. }
    apply IHks. by rewrite <- app_assoc. }
  intros h1 HP1. destruct (Hroot h1 HP1) as [Hl1 Hla1].
  rewrite forEachAffordance_unfold, !bind_run.
  rewrite (get_prop_run _ _ _ _ Hl1). cbv beta iota.
  rewrite (prop_lookup _ _ _ _ _ Hl1), Hpla. cbn [default from_option id].
  rewrite callback_is_function.
  change ("function" =? "function") with true. cbv iota.
  unfold array_forEach. rewrite !bind_run.
  rewrite (array_length_run _ _ _ Hla1). cbv beta iota.
  rewrite Nat2Z.id, length_fmap. fold body. fold step.
  pose proof (Hall kids [] eq_refl h1 HP1) as Hrun. cbn [length] in Hrun.
  unfold step, body in Hrun. rewrite Hrun. cbn [leaves]. done.
Qed.

End ForEach.

(** X15: [forEachAffordance(callback)] with a function calls it on the
    Affordances of the tree, depth first and left to right, once for each
    place an Affordance has in the tree and never on a collection, and
    returns the receiver; this for every callback that leaves the nodes of
    the tree and their arrays of children as they are ([P] is what the
    callback keeps true).  An exception of the callback ends the walk.
    With a [callback] that is not a function nothing is done. *)
Theorem forEachAffordance_visits_leaves
    (call_function : val → val → M ()) (P : heap → Prop)
    l kids fuel callback h :
  wf_tree h (Node l kids) = true →
  (height (Node l kids) ≤ fuel)%nat →
  (∀ x, preserves P (call_function callback x)) →
  (∀ h1, P h1 → undisturbed (Node l kids) h h1) →
  P h →
  forEachAffordance call_function fuel (VRef l) callback h
  = if typeof callback =? "function"
    then (for_each (λ lf, call_function callback (VRef lf))
            (leaves (Node l kids));;
          mret (VRef l)) h
    else (h, Val (VRef l)).
Proof.
  intros Hwf Hfuel Hcall Hund HP.
  destruct (typeof callback =? "function") eqn:Hfun.
  - apply String.eqb_eq in Hfun.
    by apply (forEachAffordance_tree call_function h callback P Hfun Hcall
                (Node l kids) fuel).
  - destruct fuel as [|n]; [simpl in Hfuel; lia|].
    destruct (wf_tree_root _ _ Hwf) as (ps & Hl & _).
    cbn [forEachAffordance]. rewrite Hfun.
    rewrite bind_run, (get_prop_run _ _ _ _ Hl). cbv beta iota.
    reflexivity.
Qed.

Lemma forEachAffordance_visits_leaves_witness :
  ∃ h', forEachAffordance log_call 3 (VRef 1%positive) (VFun 0) heap_with_log
        = (h', Val (VRef 1%positive))
        ∧ h' !! 12%positive = Some (Arr [VRef 7%positive]).
Proof.
  rewrite (forEachAffordance_visits_leaves log_call
             (λ h1, ∀ l', l' ≠ 12%positive → h1 !! l' = heap_with_log !! l')
             1%positive [Node 4%positive [Leaf 7%positive]] 3 (VFun 0)
             heap_with_log).
  - eexists. split; vm_compute; reflexivity.
  - vm_compute. reflexivity.
  - cbn. lia.
  - intros x h1 HP l' Hl'. unfold log_call, push.
    repeat case_match; simpl; try by apply HP.
    rewrite lookup_insert_ne by done. by apply HP.
  - intros h1 HP n Hn. unfold nodes in Hn. cbn in Hn.
    repeat (apply elem_of_cons in Hn as [->|Hn]);
      [..|by apply elem_of_nil in Hn]; cbn [root].
    + split; [by apply HP|]. vm_compute. intros la [= <-]. by apply HP.
    + split; [by apply HP|]. vm_compute. intros la [= <-]. by apply HP.
    + split; [by apply HP|]. vm_compute. by intros la [=].
  - done.
Defined.

(** ** Decoding a document *)

Lemma internalize_JArr reviver key items :
  Naval.internalize reviver key (JArr items)
  = (vs ← walk_items reviver 0 items;
     holder ← alloc (Arr vs);
     reviver key holder).
Proof.
  cbn [Naval.internalize]. f_equal.
  generalize 0%nat. induction items as [|x rest IH]; intros i; [done|].
  cbn [walk_items]. by rewrite <- IH.
Qed.

Lemma internalize_JObj reviver key members h :
  Naval.internalize reviver key (JObj members) h
  = (ps ← walk_members reviver ∅ members;
     holder ← alloc (Obj CObject ps);
     reviver key holder) h.
Proof.
  cbn [Naval.internalize]. rewrite !bind_run.
  assert (∀ ps h1,
    (fix walk (ps : gmap string val) (members : list (string * json))
       : M (gmap string val) :=
       match members with
       | [] => mret ps
       | (k, x) :: rest =>
           v ← Naval.internalize reviver k x;
           walk (if strict_eq v VUndef then delete k ps else <[k := v]> ps)
             rest
       end) ps members h1
    = walk_members reviver ps members h1) as ->; [|done].
  induction members as [|[k x] rest IH]; intros ps h1; [done|].
  cbn [walk_members]. rewrite !bind_run.
  destruct (Naval.internalize reviver k x h1) as [h2 [v|e|w|step|]]; [|done..].
  apply IH.
Qed.

Lemma wp_run_eq {A} (m1 m2 : M A) h Q :
  m1 h = m2 h → wp m2 h Q → wp m1 h Q.
Proof. unfold wp. by intros ->. Qed.

(** The keys of an array are numerals: none starts with an underscore. *)
Lemma pretty_N_go_no_underscore x s s' :
  s ≠ ("_" +:+ s') → pretty_N_go x s ≠ ("_" +:+ s').
Proof.
  revert s. induction (N.lt_wf_0 x) as [x _ IH]; intros s Hs.
  assert (x = 0 ∨ 0 < x)%N as [->|Hpos] by lia.
  - by rewrite pretty_N_go_0.
  - rewrite pretty_N_go_step by done. apply IH.
    { by apply N.div_lt. }
    unfold pretty_N_char. by repeat case_match.
Qed.

Lemma pretty_nat_no_underscore (i : nat) s : pretty i ≠ ("_" +:+ s).
Proof.
  unfold pretty, pretty_nat, pretty, pretty_N.
  case_decide; [done|]. by apply pretty_N_go_no_underscore.
Qed.

Lemma own_props_array_underscore xs s :
  own_props (Arr xs) !! ("_" +:+ s) = None.
Proof.
  cbn [own_props]. apply not_elem_of_list_to_map_1.
  intros (pair & Hk & Hin)%list_elem_of_fmap.
  apply list_elem_of_lookup in Hin as [i Hi].
  rewrite list_lookup_imap in Hi.
  destruct (xs !! i) as [x|]; [|done]. injection Hi as <-.
  by apply (pretty_nat_no_underscore i s).
Qed.

Lemma prop_array_underscore la xs s h :
  h !! la = Some (Arr xs) → prop h (VRef la) (("_" +:+ s)) = VUndef.
Proof.
  intros Hla. unfold prop. by rewrite Hla, own_props_array_underscore.
Qed.

Lemma prop_array_fields la xs h :
  h !! la = Some (Arr xs) →
  prop h (VRef la) "_id" = VUndef
  ∧ prop h (VRef la) "_affordances" = VUndef.
Proof.
  intros Hla. split.
  - by apply (prop_array_underscore la xs "id").
  - by apply (prop_array_underscore la xs "affordances").
Qed.

(** The reviver, by the shape of the value. *)
Lemma navalJsonReviver_run key value h :
  val_live h value →
  Naval.navalJsonReviver key value h
  = (if affordance_shape h value then Affordance.revive value h
     else if input_min_shape h value then Input.revive value h
     else if affordances_shape h value then Affordances.revive value h
     else (h, Val value)).
Proof.
  intros Hlive. unfold Naval.navalJsonReviver.
  destruct (is_object value) eqn:Hobj.
  - rewrite bind_run, Affordance_canRevive_run by done.
    destruct (affordance_shape h value); [done|].
    rewrite bind_run, Input_canRevive_run by done.
    destruct (input_min_shape h value); [done|].
    rewrite bind_run, Affordances_canRevive_run by done.
    by destruct (affordances_shape h value).
  - unfold affordance_shape, input_min_shape, affordances_shape.
    by rewrite Hobj.
Qed.

Lemma wp_navalJsonReviver key value h Q :
  val_live h value →
  (if affordance_shape h value then wp (Affordance.revive value) h Q
   else if input_min_shape h value then wp (Input.revive value) h Q
   else if affordances_shape h value then wp (Affordances.revive value) h Q
   else Q value h) →
  wp (Naval.navalJsonReviver key value) h Q.
Proof.
  intros Hlive HQ. unfold wp in *. rewrite navalJsonReviver_run by done.
  destruct (affordance_shape h value); [done|].
  destruct (input_min_shape h value); [done|].
  destruct (affordances_shape h value); [done|]. eauto.
Qed.

Lemma wp_internalize_JStr key s h (Q : val → heap → Prop) :
  Q (VStr s) h →
  wp (Naval.internalize Naval.navalJsonReviver key (JStr s)) h Q.
Proof.
  intros HQ. exists (VStr s), h. split; [|done].
  cbn [Naval.internalize]. unfold Naval.navalJsonReviver.
  replace (is_object (VStr s)) with false; [done|].
  unfold is_object. cbn. by rewrite andb_false_r.
Qed.

(** An array passes the reviver as it is. *)
Lemma wp_reviver_array key la xs h (Q : val → heap → Prop) :
  h !! la = Some (Arr xs) →
  Q (VRef la) h →
  wp (Naval.navalJsonReviver key (VRef la)) h Q.
Proof.
  intros Hla HQ. exists (VRef la), h. split; [|done].
  rewrite navalJsonReviver_run by (simpl; eauto).
  unfold affordance_shape, input_min_shape, affordances_shape.
  destruct (prop_array_fields _ _ _ Hla) as [-> ->]. reflexivity.
Qed.

(** An Input of a document becomes a new Input. *)
Lemma wp_internalize_input key c h Q :
  (∀ h' r, h ⊆ h' → h !! r = None → input_holds h' (VRef r) c →
     Q (VRef r) h') →
  wp (Naval.internalize Naval.navalJsonReviver key (json_of_input c)) h Q.
Proof.
  intros HQ. unfold json_of_input.
  eapply wp_run_eq; [apply internalize_JObj|].
  cbn [walk_members].
  apply wp_bind. apply wp_bind, wp_internalize_JStr.
  apply wp_bind, wp_internalize_JStr. apply wp_ret.
  change (strict_eq (VStr c.1) VUndef) with false.
  change (strict_eq (VStr c.2) VUndef) with false. cbv iota.
  apply wp_bind, wp_alloc. intros lp Hlp.
  set (ps := (<["_value" := VStr c.2]> (<["_id" := VStr c.1]> ∅))
             : gmap string val).
  set (h1 := <[lp := Obj CObject ps]> h).
  apply not_elem_of_dom in Hlp as Hlpn.
  assert (h ⊆ h1) as Hsub1 by (by apply insert_subseteq).
  assert (∀ k, prop h1 (VRef lp) k = default VUndef (ps !! k)) as Hp
    by (intros; apply prop_insert_eq).
  assert (Hfields :
    prop h1 (VRef lp) "_id" = VStr c.1
    ∧ prop h1 (VRef lp) "_value" = VStr c.2
    ∧ prop h1 (VRef lp) "_method" = VUndef
    ∧ Forall (λ k, prop h1 (VRef lp) k = VUndef)
        ["_accept"; "_required"; "_label"; "_hidden"; "_readonly";
         "_options"; "_regexp"]).
  { rewrite !Hp. repeat split; try reflexivity.
    repeat constructor; rewrite Hp; reflexivity. }
  destruct Hfields as (Hid & Hval & Hmethod & Hrest).
  assert (input_shape h1 (VRef lp) = true) as Hshape.
  { unfold input_shape. rewrite Hid, Hval.
    repeat (apply Forall_cons_1 in Hrest as [-> Hrest]). reflexivity. }
  apply wp_navalJsonReviver.
  { simpl. unfold h1. rewrite lookup_insert_eq. eauto. }
  replace (affordance_shape h1 (VRef lp)) with false.
  2: { rewrite affordance_shape_ref, Hid, Hmethod. reflexivity. }
  replace (input_min_shape h1 (VRef lp)) with true.
  2: { unfold input_min_shape. rewrite Hid, Hval. reflexivity. }
  apply wp_Input_revive.
  { unfold h1. rewrite lookup_insert_eq. eauto. }
  { by rewrite Hid. }
  { by rewrite Hval. }
  intros r Hr.
  apply not_elem_of_dom in Hr as Hrn.
  set (h2 := <[r := Obj CInput (input_props_from h1 (VRef lp))]> h1).
  assert (h1 ⊆ h2) as Hsub2 by (by apply insert_subseteq).
  apply HQ.
  - by etrans.
  - destruct (h !! r) eqn:E; [|done].
    by rewrite (lookup_weaken _ _ _ _ E Hsub1) in Hrn.
  - pose proof (input_props_from_inv h1 (VRef lp) Hshape) as Hfrom.
    assert (Forall (λ k, prop h2 (VRef r) k = prop h1 (VRef lp) k)
              input_fields) as Hsame.
    { eapply Forall_impl; [exact Hfrom|]. intros k Hk. simpl in Hk.
      unfold h2. by rewrite prop_insert_eq. }
    unfold input_fields in Hsame.
    repeat (apply Forall_cons_1 in Hsame as [? Hsame]).
    repeat (apply Forall_cons_1 in Hrest as [? Hrest]).
    assert (prop h2 (VRef r) "_id" = VStr c.1) as Hid2 by congruence.
    assert (prop h2 (VRef r) "_value" = VStr c.2) as Hval2 by congruence.
    assert (Forall (λ k, prop h2 (VRef r) k = VUndef)
              ["_accept"; "_required"; "_label"; "_hidden"; "_readonly";
               "_options"; "_regexp"]) as Hrest2.
    { repeat constructor; congruence. }
    split; [|done].
    unfold input_ok, instanceOf, h2. rewrite lookup_insert_eq.
    rewrite bool_decide_eq_true_2 by done. cbn [andb]. fold h2.
    unfold input_shape. rewrite Hid2, Hval2.
    repeat (apply Forall_cons_1 in Hrest2 as [-> Hrest2]). reflexivity.
Qed.

Lemma input_holds_mono h h1 x c :
  h ⊆ h1 → input_holds h x c → input_holds h1 x c.
Proof.
  intros Hsub (Hok & Hid & Hval & Hrest).
  destruct (input_ok_mono h h1 x Hsub Hok) as (Hok1 & _ & Hp).
  split; [done|]. rewrite !Hp. split; [done|]. split; [done|].
  eapply Forall_impl; [exact Hrest|]. intros k Hk. simpl in *. by rewrite Hp.
Qed.

Lemma input_holds_live h x c :
  input_holds h x c → ∃ r ps, x = VRef r ∧ h !! r = Some (Obj CInput ps).
Proof.
  intros ([Hin _]%andb_prop & _). by apply instanceOf_live in Hin.
Qed.

(** The Inputs of a document become new Inputs, one for each, in order. *)
Lemma wp_walk_inputs cs :
  ∀ i h (Q : list val → heap → Prop),
    (∀ h' xs, h ⊆ h' →
       Forall2 (input_holds h') xs cs →
       Forall (λ x, ∃ r, x = VRef r ∧ h !! r = None) xs →
       NoDup xs →
       Q xs h') →
    wp (walk_items Naval.navalJsonReviver i (json_of_input <$> cs)) h Q.
Proof.
  induction cs as [|c cs IH]; intros i h Q HQ.
  - apply wp_ret. apply HQ; try done; constructor.
  - rewrite fmap_cons. cbn [walk_items].
    apply wp_bind, wp_internalize_input. intros h1 r Hsub1 Hrn Hr.
    apply wp_bind, IH. intros h' xs Hsub2 Hxs Hnew Hnd. apply wp_ret.
    apply HQ.
    + by etrans.
    + constructor; [by eapply input_holds_mono|done].
    + constructor; [by eauto|].
      eapply Forall_impl; [exact Hnew|]. intros x (r' & -> & Hr').
      exists r'. split; [done|].
      destruct (h !! r') eqn:E; [|done].
      by rewrite (lookup_weaken _ _ _ _ E Hsub1) in Hr'.
    + constructor; [|done]. intros Hin.
      rewrite Forall_forall in Hnew.
      destruct (Hnew _ Hin) as (r' & [= <-] & Hr').
      destruct (input_holds_live _ _ _ Hr) as (? & ps & [= <-] & ?).
      congruence.
Qed.

(** The array of Inputs of a document. *)
Lemma wp_internalize_controls key cs h (Q : val → heap → Prop) :
  (∀ h' la xs, h ⊆ h' → h !! la = None → h' !! la = Some (Arr xs) →
     Forall2 (input_holds h') xs cs → NoDup xs →
     Q (VRef la) h') →
  wp (Naval.internalize Naval.navalJsonReviver key
        (JArr (json_of_input <$> cs))) h Q.
Proof.
  intros HQ. rewrite internalize_JArr.
  apply wp_bind, wp_walk_inputs. intros h1 xs Hsub1 Hxs Hnew Hnd.
  apply wp_bind, wp_alloc. intros la Hla.
  apply not_elem_of_dom in Hla as Hlan.
  assert (h1 ⊆ <[la := Arr xs]> h1) as Hsub2 by (by apply insert_subseteq).
  apply (wp_reviver_array _ _ xs); [apply lookup_insert_eq|].
  apply (HQ _ la xs).
  - by etrans.
  - destruct (h !! la) eqn:E; [|done].
    by rewrite (lookup_weaken _ _ _ _ E Hsub1) in Hlan.
  - apply lookup_insert_eq.
  - eapply Forall2_impl; [exact Hxs|]. intros x c.
    by apply input_holds_mono.
  - done.
Qed.

Lemma keep_string_optional_string o :
  keep_string (optional_string o) = optional_string o.
Proof. by destruct o. Qed.

(** The reviver on the plain object of an Affordance of a document. *)
Lemma wp_reviver_affordance_holder key lp id method uri relation controls
    h (Q : val → heap → Prop) :
  is_Some (h !! lp) →
  prop h (VRef lp) "_id" = VStr id →
  prop h (VRef lp) "_method" = VStr method →
  prop h (VRef lp) "_uri" = VStr uri →
  prop h (VRef lp) "_relation" = optional_string relation →
  prop h (VRef lp) "_metadata" = VUndef →
  match controls with
  | None => prop h (VRef lp) "_controls" = VUndef
  | Some cs => ∃ la xs, prop h (VRef lp) "_controls" = VRef la
                        ∧ h !! la = Some (Arr xs)
                        ∧ Forall2 (input_holds h) xs cs
                        ∧ NoDup xs
  end →
  (∀ h' r, h ⊆ h' → h !! r = None →
     wf_tree h' (Leaf r) = true →
     holds h' (Leaf r) (DAffordance id method uri relation controls) →
     Q (VRef r) h') →
  wp (Naval.navalJsonReviver key (VRef lp)) h Q.
Proof.
  intros Hlive Hid Hmethod Huri Hrel Hmd Hctl HQ.
  assert (∃ xs, inputs_of h (VRef lp) = xs
                ∧ Forall2 (input_holds h) xs (default [] controls)
                ∧ NoDup xs
                ∧ val_live h (prop h (VRef lp) "_controls"))
    as (xs & Hin & Hxs & Hnd & Hclive).
  { unfold inputs_of. destruct controls as [cs|].
    - destruct Hctl as (la & xs & -> & Hla & Hxs & Hnd). exists xs.
      cbn [array_elems]. rewrite Hla. repeat split; try done. simpl. eauto.
    - rewrite Hctl. exists []. repeat split; try done; constructor. }
  apply wp_navalJsonReviver; [done|].
  replace (affordance_shape h (VRef lp)) with true.
  2: { rewrite affordance_shape_ref, Hid, Hmethod, Huri. reflexivity. }
  apply wp_Affordance_revive_inputs; try done.
  { rewrite affordance_shape_ref, Hid, Hmethod, Huri. reflexivity. }
  { rewrite Hin. apply Forall_forall. intros x Hx.
    apply list_elem_of_lookup_1 in Hx as [j Hj].
    destruct (Forall2_lookup_l _ _ _ _ _ Hxs Hj)
      as (c & _ & ([Hok _]%andb_prop & _)). done. }
  { by rewrite Hin. }
  intros h' r ps' lm ls Hsub Hrn Hr Hpid Hpm Hpu Hprel Hpmd Hpmsg Hlm Hls Hpctl.
  rewrite Hid, Hmethod, Huri in *. rewrite Hrel, keep_string_optional_string
    in Hprel. rewrite Hmd in Hpmd. change (keep_object VUndef) with VUndef in Hpmd.
  rewrite Hin in Hpctl.
  assert (∀ k, prop h' (VRef r) k = default VUndef (ps' !! k)) as Hp
    by (intros; by eapply prop_lookup).
  assert (inputs_of h' (VRef r) = xs) as Hin'.
  { unfold inputs_of. rewrite Hp. destruct xs as [|x xs'].
    - by rewrite Hpctl.
    - destruct Hpctl as (la & -> & _ & Hla). simpl. by rewrite Hla. }
  assert (Forall2 (input_holds h') xs (default [] controls)) as Hxs'.
  { eapply Forall2_impl; [exact Hxs|]. intros x c.
    by apply input_holds_mono. }
  apply HQ; [done|done| |].
  - cbn [wf_tree]. unfold affordance_ok, instanceOf.
    rewrite !Hp, Hr, Hpid, Hpm, Hpu, Hprel, Hpmd.
    rewrite bool_decide_eq_true_2 by done.
    cbn [default from_option Datatypes.id andb typeof].
    change ("string" =? "string") with true. cbn [andb].
    apply andb_true_intro. split; [by destruct relation|].
    destruct xs as [|x xs'].
    + by rewrite Hpctl.
    + destruct Hpctl as (la & -> & _ & Hla). cbn [default from_option Datatypes.id].
      unfold undefined_or, controls_ok. cbn [typeof array_elems].
      rewrite Hla.
      change ("object" =? "undefined") with false. cbv iota.
      apply forallb_forall. intros y Hy%list_elem_of_In.
      apply list_elem_of_lookup_1 in Hy as [j Hj].
      by destruct (Forall2_lookup_l _ _ _ _ _ Hxs' Hj) as (c & _ & (Hok & _)).
  - cbn [holds]. rewrite !Hp, Hpid, Hpm, Hpu, Hprel, Hpmd, Hin'.
    repeat split; done.
Qed.

Lemma holds_node h l kids id members :
  holds h (Node l kids) (DAffordances id members) ↔
  prop h (VRef l) "_id" = optional_string id
  ∧ prop h (VRef l) "_metadata" = VUndef
  ∧ Forall2 (holds h) kids members.
Proof.
  cbn [holds].
  assert (∀ ks ds,
    (fix all2 (ks : list tree) (ds : list doc) : Prop :=
       match ks, ds with
       | [], [] => True
       | k :: ks, d :: ds => holds h k d ∧ all2 ks ds
       | _, _ => False
       end) ks ds ↔ Forall2 (holds h) ks ds) as ->; [|done].
  induction ks as [|k ks IH]; intros [|d ds]; split; try done.
  - intros H. inversion H.
  - intros H. inversion H.
  - intros [Hk Hks]. constructor; [done|by apply IH].
  - intros H. inversion H; subst. split; [done|by apply IH].
Qed.

Lemma doc_ind_members (P : doc → Prop) :
  (∀ id method uri relation controls,
     P (DAffordance id method uri relation controls)) →
  (∀ id members, Forall P members → P (DAffordances id members)) →
  ∀ d, P d.
Proof.
  intros Hleaf Hnode. fix IH 1. intros [id method uri relation controls|id ms].
  - apply Hleaf.
  - apply Hnode. induction ms as [|m ms IHms]; constructor; [apply IH|done].
Qed.

Lemma holds_mono h h1 t :
  h ⊆ h1 → wf_tree h t = true → ∀ d, holds h t d → holds h1 t d.
Proof.
  intros Hsub. induction t as [l|l kids IH] using tree_ind_kids;
    intros Hwf [id method uri relation controls|id members]; try done.
  - cbn [holds]. cbn [wf_tree] in Hwf.
    assert (is_Some (h !! l)) as Hl by (by apply (wf_tree_root_live h (Leaf l))).
    rewrite !(prop_mono h h1) by done.
    rewrite (inputs_of_mono h h1) by done.
    intros (? & ? & ? & ? & ? & Hin). repeat split; try done.
    eapply Forall2_impl; [exact Hin|]. intros x c.
    by apply input_holds_mono.
  - rewrite !holds_node.
    assert (is_Some (h !! l)) as Hl
      by (by apply (wf_tree_root_live h (Node l kids))).
    rewrite !(prop_mono h h1) by done.
    intros (? & ? & Hkids). split; [done|]. split; [done|].
    apply wf_tree_node in Hwf as (_ & _ & Hwfk).
    clear -IH Hwfk Hkids. revert members Hkids.
    induction kids as [|k ks IHks]; intros members Hkids;
      inversion Hkids; subst; constructor.
    + apply Forall_cons_1 in IH as [IHk _].
      apply Forall_cons_1 in Hwfk as [Hk _]. by apply IHk.
    + apply Forall_cons_1 in IH as [_ IH'].
      apply Forall_cons_1 in Hwfk as [_ Hks]. by apply IHks.
Qed.

(** An Affordance of a document becomes a new Affordance. *)
Lemma wp_internalize_affordance key id method uri relation controls
    h (Q : val → heap → Prop) :
  (∀ h' r, h ⊆ h' → h !! r = None →
     wf_tree h' (Leaf r) = true →
     holds h' (Leaf r) (DAffordance id method uri relation controls) →
     Q (VRef r) h') →
  wp (Naval.internalize Naval.navalJsonReviver key
        (to_json (DAffordance id method uri relation controls))) h Q.
Proof.
  intros HQ. cbn [to_json].
  eapply wp_run_eq; [apply internalize_JObj|].
  cbn [app walk_members].
  apply wp_bind. apply wp_bind, wp_internalize_JStr.
  apply wp_bind, wp_internalize_JStr.
  apply wp_bind, wp_internalize_JStr.
  change (strict_eq (VStr id) VUndef) with false.
  change (strict_eq (VStr method) VUndef) with false.
  change (strict_eq (VStr uri) VUndef) with false. cbv iota.
  set (ps0 := (<["_uri" := VStr uri]> (<["_method" := VStr method]>
                 (<["_id" := VStr id]> ∅))) : gmap string val).
  assert (∀ ps h0 (Q' : gmap string val → heap → Prop),
    (∀ h1 ps1, h0 ⊆ h1 →
       (∀ k, k ≠ "_relation" → k ≠ "_controls" → ps1 !! k = ps !! k) →
       default VUndef (ps1 !! "_relation")
       = from_option VStr (default VUndef (ps !! "_relation")) relation →
       match controls with
       | None => ps1 !! "_controls" = ps !! "_controls"
       | Some cs => ∃ la xs, ps1 !! "_controls" = Some (VRef la)
                             ∧ h0 !! la = None
                             ∧ h1 !! la = Some (Arr xs)
                             ∧ Forall2 (input_holds h1) xs cs ∧ NoDup xs
       end →
       Q' ps1 h1) →
    wp (walk_members Naval.navalJsonReviver ps
          (from_option (λ r, [("_relation", JStr r)]) [] relation
           ++ from_option
                (λ cs, [("_controls", JArr (json_of_input <$> cs))])
                [] controls)) h0 Q') as Hwalk.
  { intros ps h0 Q' HQ'.
    destruct relation as [rel|]; destruct controls as [cs|];
      cbn [from_option app walk_members].
    - apply wp_bind, wp_internalize_JStr.
      change (strict_eq (VStr rel) VUndef) with false. cbv iota.
      apply wp_bind, wp_internalize_controls.
      intros h1 la xs Hsub Hla Hla1 Hxs Hnd.
      change (strict_eq (VRef la) VUndef) with false. cbv iota.
      apply wp_ret. apply HQ'; [done| | |].
      + intros k ? ?. by rewrite !lookup_insert_ne.
      + rewrite lookup_insert_ne, lookup_insert_eq; done.
      + exists la, xs. by rewrite lookup_insert_eq.
    - apply wp_bind, wp_internalize_JStr.
      change (strict_eq (VStr rel) VUndef) with false. cbv iota.
      apply wp_ret. apply HQ'; [done| | |].
      + intros k ? ?. by rewrite !lookup_insert_ne.
      + by rewrite lookup_insert_eq.
      + by rewrite lookup_insert_ne.
    - apply wp_bind, wp_internalize_controls.
      intros h1 la xs Hsub Hla Hla1 Hxs Hnd.
      change (strict_eq (VRef la) VUndef) with false. cbv iota.
      apply wp_ret. apply HQ'; [done| | |].
      + intros k ? ?. by rewrite !lookup_insert_ne.
      + by rewrite lookup_insert_ne.
      + exists la, xs. by rewrite lookup_insert_eq.
    - apply wp_ret. apply HQ'; done. }
  apply Hwalk. intros h1 ps1 Hsub1 Hsame Hrel Hctl.
  apply wp_bind, wp_alloc. intros lp Hlp.
  apply not_elem_of_dom in Hlp as Hlpn.
  set (h2 := <[lp := Obj CObject ps1]> h1).
  assert (h1 ⊆ h2) as Hsub2 by (by apply insert_subseteq).
  assert (∀ k, prop h2 (VRef lp) k = default VUndef (ps1 !! k)) as Hp
    by (intros; apply prop_insert_eq).
  eapply (wp_reviver_affordance_holder _ lp id method uri relation controls).
  - unfold h2. rewrite lookup_insert_eq. eauto.
  - rewrite Hp, Hsame by done. reflexivity.
  - rewrite Hp, Hsame by done. reflexivity.
  - rewrite Hp, Hsame by done. reflexivity.
  - rewrite Hp, Hrel. by destruct relation.
  - rewrite Hp, Hsame by done. reflexivity.
  - destruct controls as [cs|].
    + destruct Hctl as (la & xs & Hc & Hla & Hla1 & Hxs & Hnd).
      exists la, xs. rewrite Hp, Hc. split; [done|].
      split; [by eapply lookup_weaken|]. split; [|done].
      eapply Forall2_impl; [exact Hxs|]. intros x c.
      by apply input_holds_mono.
    + rewrite Hp, Hctl. reflexivity.
  - intros h' r Hsub3 Hr Hwf Hholds. apply HQ; try done.
    + etrans; [exact Hsub1|]. by etrans.
    + destruct (h !! r) eqn:E; [|done].
      assert (h ⊆ h2) as Hsub by (by etrans).
      by rewrite (lookup_weaken _ _ _ _ E Hsub) in Hr.
Qed.

Lemma wp_walk_docs members :
  Forall (λ d, ∀ key h,
            wp (Naval.internalize Naval.navalJsonReviver key (to_json d)) h
              (decoded h d)) members →
  ∀ i h (Q : list val → heap → Prop),
    (∀ h' ts, h ⊆ h' →
       Forall2 (λ t d, wf_tree h' t = true ∧ holds h' t d) ts members →
       Forall (λ t, h !! root t = None) ts →
       NoDup ((λ t, VRef (root t)) <$> ts) →
       Q ((λ t, VRef (root t)) <$> ts) h') →
    wp (walk_items Naval.navalJsonReviver i (to_json <$> members)) h Q.
Proof.
  induction 1 as [|d ds Hd _ IH]; intros i h Q HQ.
  - apply wp_ret. apply (HQ h []); try done; constructor.
  - rewrite fmap_cons. cbn [walk_items].
    apply wp_bind. eapply wp_mono; [apply Hd|].
    intros v h1 (t & -> & Hsub1 & Hnew & Hwf & Hholds).
    apply wp_bind, IH. intros h' ts Hsub2 Hts Hnews Hnd. apply wp_ret.
    apply (HQ h' (t :: ts)).
    + by etrans.
    + constructor; [|done].
      split; [by eapply wf_tree_mono|by eapply holds_mono].
    + constructor; [done|].
      eapply Forall_impl; [exact Hnews|]. intros t' Ht'. simpl in *.
      destruct (h !! root t') eqn:E; [|done].
      by rewrite (lookup_weaken _ _ _ _ E Hsub1) in Ht'.
    + rewrite fmap_cons. constructor; [|done].
      intros (t' & [= Heq] & Hin)%list_elem_of_fmap.
      rewrite Forall_forall in Hnews. specialize (Hnews _ Hin).
      destruct (wf_tree_root_live _ _ Hwf) as [o Ho]. congruence.
Qed.

(** The reviver on the plain object of a collection of a document. *)
Lemma wp_reviver_affordances_holder key lp id la ts
    h (Q : val → heap → Prop) :
  is_Some (h !! lp) →
  prop h (VRef lp) "_id" = optional_string id →
  prop h (VRef lp) "_method" = VUndef →
  prop h (VRef lp) "_value" = VUndef →
  prop h (VRef lp) "_metadata" = VUndef →
  prop h (VRef lp) "_affordances" = VRef la →
  h !! la = Some (Arr ((λ t, VRef (root t)) <$> ts)) →
  Forall (λ t, wf_tree h t = true) ts →
  NoDup ((λ t, VRef (root t)) <$> ts) →
  (∀ h' r, h ⊆ h' → h !! r = None →
     wf_tree h' (Node r ts) = true →
     prop h' (VRef r) "_id" = optional_string id →
     prop h' (VRef r) "_metadata" = VUndef →
     Q (VRef r) h') →
  wp (Naval.navalJsonReviver key (VRef lp)) h Q.
Proof.
  intros Hlive Hid Hmethod Hvalue Hmd Haff Hla Hts Hnd HQ.
  apply wp_navalJsonReviver; [done|].
  replace (affordance_shape h (VRef lp)) with false.
  2: { rewrite affordance_shape_ref, Hmethod. cbn [typeof].
       by rewrite andb_false_r. }
  replace (input_min_shape h (VRef lp)) with false.
  2: { unfold input_min_shape. rewrite Hvalue. cbn [typeof].
       by rewrite andb_false_r. }
  replace (affordances_shape h (VRef lp)) with true.
  2: { unfold affordances_shape, isArray. rewrite Haff. cbn [array_elems].
       by rewrite Hla. }
  apply (wp_Affordances_revive lp la ((λ t, VRef (root t)) <$> ts));
    try done.
  { apply Forall_forall. intros x (t & -> & Ht)%list_elem_of_fmap.
    rewrite Forall_forall in Hts. by apply wf_tree_kid_is_node, Hts. }
  intros h' r la' ps' Hsub Hr Hla' Hne Hr' Hid' Hmd' Haff' Hla'' _.
  rewrite Hid, keep_string_optional_string in Hid'.
  rewrite Hmd in Hmd'. change (keep_object VUndef) with VUndef in Hmd'.
  assert (∀ k, prop h' (VRef r) k = default VUndef (ps' !! k)) as Hp
    by (intros; by eapply prop_lookup).
  apply HQ; try done.
  - apply wf_tree_node. split; [|split].
    + unfold affordances_ok, instanceOf. rewrite !Hp, Hr', Hid', Hmd'.
      rewrite bool_decide_eq_true_2 by done. by destruct id.
    + rewrite Hp, Haff'. cbn [default from_option Datatypes.id array_elems].
      by rewrite Hla''.
    + eapply Forall_impl; [exact Hts|]. intros t. by apply wf_tree_mono.
  - by rewrite Hp.
  - by rewrite Hp.
Qed.

Lemma walk_members_cons reviver ps k x rest :
  walk_members reviver ps ((k, x) :: rest)
  = (v ← Naval.internalize reviver k x;
     walk_members reviver
       (if strict_eq v VUndef then delete k ps else <[k := v]> ps) rest).
Proof. reflexivity. Qed.

(** A collection of a document becomes a new collection of the trees its
    members become. *)
Lemma wp_internalize_affordances key id members h :
  Forall (λ d, ∀ key h,
            wp (Naval.internalize Naval.navalJsonReviver key (to_json d)) h
              (decoded h d)) members →
  wp (Naval.internalize Naval.navalJsonReviver key
        (to_json (DAffordances id members))) h
    (decoded h (DAffordances id members)).
Proof.
  intros IH. cbn [to_json].
  eapply wp_run_eq; [apply internalize_JObj|].
  assert (∀ ps h0 (Q' : gmap string val → heap → Prop),
    (∀ h1 la ts, h0 ⊆ h1 → h0 !! la = None →
       h1 !! la = Some (Arr ((λ t, VRef (root t)) <$> ts)) →
       Forall2 (λ t d, wf_tree h1 t = true ∧ holds h1 t d) ts members →
       Forall (λ t, h0 !! root t = None) ts →
       NoDup ((λ t, VRef (root t)) <$> ts) →
       Q' (<["_affordances" := VRef la]> ps) h1) →
    wp (walk_members Naval.navalJsonReviver ps
          [("_affordances", JArr (to_json <$> members))]) h0 Q') as Hwalk.
  { intros ps h0 Q' HQ'. cbn [walk_members].
    apply wp_bind. rewrite internalize_JArr.
    apply wp_bind, wp_walk_docs; [done|].
    intros h1 ts Hsub1 Hts Hnew Hnd.
    apply wp_bind, wp_alloc. intros la Hla.
    apply not_elem_of_dom in Hla as Hlan.
    assert (h1 ⊆ <[la := Arr ((λ t, VRef (root t)) <$> ts)]> h1) as Hsub2
      by (by apply insert_subseteq).
    apply (wp_reviver_array _ _ ((λ t, VRef (root t)) <$> ts));
      [apply lookup_insert_eq|].
    change (strict_eq (VRef la) VUndef) with false. cbv iota.
    apply wp_ret. apply (HQ' _ la ts).
    - by etrans.
    - destruct (h0 !! la) eqn:E; [|done].
      by rewrite (lookup_weaken _ _ _ _ E Hsub1) in Hlan.
    - apply lookup_insert_eq.
    - eapply Forall2_impl; [exact Hts|]. intros t d [Hwf Hh].
      split; [by eapply wf_tree_mono|by eapply holds_mono].
    - done.
    - done. }
  assert (∀ ps h0,
    ps !! "_method" = None → ps !! "_value" = None →
    ps !! "_metadata" = None →
    default VUndef (ps !! "_id") = optional_string id →
    h ⊆ h0 →
    wp (walk_members Naval.navalJsonReviver ps
          [("_affordances", JArr (to_json <$> members))]) h0
      (λ ps1 h1,
         wp (holder ← alloc (Obj CObject ps1);
             Naval.navalJsonReviver key holder) h1
           (decoded h (DAffordances id members)))) as Hrest.
  { intros ps h0 Hm Hv Hmd Hid Hsub0.
    apply Hwalk. intros h1 la ts Hsub1 Hla Hla1 Hts Hnew Hnd.
    apply wp_bind, wp_alloc. intros lp Hlp.
    apply not_elem_of_dom in Hlp as Hlpn.
    set (ps1 := <["_affordances" := VRef la]> ps).
    set (h2 := <[lp := Obj CObject ps1]> h1).
    assert (h1 ⊆ h2) as Hsub2 by (by apply insert_subseteq).
    assert (∀ k, prop h2 (VRef lp) k = default VUndef (ps1 !! k)) as Hp
      by (intros; apply prop_insert_eq).
    apply (wp_reviver_affordances_holder _ lp id la ts).
    - unfold h2. rewrite lookup_insert_eq. eauto.
    - rewrite Hp. unfold ps1. by rewrite lookup_insert_ne.
    - rewrite Hp. unfold ps1. by rewrite lookup_insert_ne, Hm.
    - rewrite Hp. unfold ps1. by rewrite lookup_insert_ne, Hv.
    - rewrite Hp. unfold ps1. by rewrite lookup_insert_ne, Hmd.
    - rewrite Hp. unfold ps1. by rewrite lookup_insert_eq.
    - by eapply lookup_weaken.
    - apply Forall_forall. intros t Ht.
      apply list_elem_of_lookup_1 in Ht as [j Hj].
      destruct (Forall2_lookup_l _ _ _ _ _ Hts Hj) as (d & _ & Hwf & _).
      by eapply wf_tree_mono.
    - done.
    - intros h' r Hsub3 Hr Hwf Hid' Hmd'.
      assert (h0 ⊆ h') as Hsub
        by (etrans; [exact Hsub1|]; etrans; [exact Hsub2|exact Hsub3]).
      exists (Node r ts). split; [done|]. split; [by etrans|].
      split.
      { cbn [root]. destruct (h !! r) eqn:E; [|done].
        assert (h ⊆ h2) as Hs
          by (etrans; [exact Hsub0|]; etrans; [exact Hsub1|exact Hsub2]).
        by rewrite (lookup_weaken _ _ _ _ E Hs) in Hr. }
      split; [done|].
      apply holds_node. split; [done|]. split; [done|].
      apply wf_tree_node in Hwf as (_ & _ & Hwfs).
      clear -Hts Hsub2 Hsub3. 
      eapply Forall2_impl; [exact Hts|]. intros t d [Hwf Hh]. simpl.
      eapply holds_mono; [|exact Hwf|exact Hh]. by etrans. }
  apply wp_bind. destruct id as [i|]; cbn [from_option app].
  - rewrite walk_members_cons.
    apply wp_bind, wp_internalize_JStr.
    change (strict_eq (VStr i) VUndef) with false. cbv iota.
    by apply Hrest.
  - by apply Hrest.
Qed.

Lemma wp_internalize_doc d :
  ∀ key h,
    wp (Naval.internalize Naval.navalJsonReviver key (to_json d)) h
      (decoded h d).
Proof.
  induction d as [id method uri relation controls|id members IH]
    using doc_ind_members; intros key h.
  - apply wp_internalize_affordance. intros h' r Hsub Hr Hwf Hholds.
    by exists (Leaf r).
  - by apply wp_internalize_affordances.
Qed.

Section DecodeDocuments.

Variable JSON_grammar : string → option json.
Variable ToString : val → M string.

(** X16: when the text given to the decode delegate is the JSON of a
    document [d] (an Affordance with its id, method and uri, with or
    without a relation and Inputs, or a collection, with or without an id,
    of such documents), the delegate returns a new tree of Affordance and
    Affordances instances that [d] describes: every node has the fields of
    its document and no metadata, every collection lists the trees of its
    members in their order, every Affordance the Inputs of its controls.
    The objects of the heap in which the text is parsed (the heap of the
    call, when the argument is a string) are as they were. *)
Theorem decode_document text d h h0 s :
  Naval.to_source ToString text h = (h0, Val s) →
  JSON_grammar s = Some (to_json d) →
  ∃ t h',
    Naval.shouldDecodeDelegate JSON_grammar ToString text h
    = (h', Val (VRef (root t)))
    ∧ h0 ⊆ h'
    ∧ h0 !! root t = None
    ∧ wf_tree h' t = true
    ∧ holds h' t d.
Proof.
  intros Hsource Hparse.
  destruct (wp_internalize_doc d "" h0)
    as (v & h' & Hrun & t & -> & Hsub & Hnew & Hwf & Hholds).
  exists t, h'. split; [|done].
  unfold Naval.shouldDecodeDelegate, try_catch, Naval.JSON_parse.
  rewrite !bind_run, Hsource, Hparse, Hrun.
  rewrite bind_run. unfold test, gets. cbv beta iota.
  by rewrite (wf_tree_kid_is_node _ _ Hwf).
Qed.

End DecodeDocuments.

Lemma decode_document_witness :
  ∃ t h',
    Naval.shouldDecodeDelegate grammar_form engine_ToString
      (VStr "the text of doc_form") heap_nested
    = (h', Val (VRef (root t)))
    ∧ heap_nested ⊆ h'
    ∧ heap_nested !! root t = None
    ∧ wf_tree h' t = true
    ∧ holds h' t doc_form.
Proof.
  apply (decode_document grammar_form engine_ToString
           (VStr "the text of doc_form") doc_form heap_nested heap_nested
           "the text of doc_form"); reflexivity.
Defined.
